(** * Backend estimator (qiskit/primitives/backend_estimator_v2.py)

    A shallow embedding of the estimator pipeline and the properties of it
    that the specification states: the parity estimator over count
    histograms, the shot/precision law and the batching by shots, the
    validation of pubs, broadcasting and post-processing of a pub, and the
    construction of measurement circuits.

    Numbers.  Python [int] is [Z].  A float64 (a Python [float], a
    [np.float64], an element of an array of dtype float) is a binary64 float
    of the kernel: sums, products, quotients and square roots round to
    nearest, ties to even, overflow to an infinity and underflow as IEEE 754
    says.  Where Python raises and numpy does not (a division by zero, an
    overflow of [**], [math.ceil] of NaN, the conversion of a large int),
    the functions below raise.

    What lies outside the file under study (the pass manager, the grouping
    of Paulis, the labels of Paulis, the binding of parameters, the backend,
    the coercion of pubs, [pow] and [hypot] of the C library) is a variable
    of the section that uses it. *)

From Stdlib Require Import ZArith List String Ascii Bool Lia.
From Stdlib Require Import Sorted.
From Stdlib Require Import Floats.
Import ListNotations.

Local Open Scope Z_scope.

(** ** Exceptions *)

Inductive exn : Type :=
| ValueError
| ZeroDivisionError
| OverflowError
| TypeError
| KeyError
| IndexError
| RuntimeError
| QiskitError
| CircuitError.

(** A call either raises ([inl]) or returns ([inr]). *)
Definition result (A : Type) : Type := (exn + A)%type.

Definition ret {A : Type} (a : A) : result A := inr a.
Definition raise {A : Type} (e : exn) : result A := inl e.

Definition bind {A B : Type} (m : result A) (k : A -> result B) : result B :=
  match m with
  | inl e => inl e
  | inr a => k a
  end.

Notation "x <- m ;; k" := (bind m (fun x => k))
  (at level 61, m at next level, right associativity).
Notation "' p <- m ;; k" := (bind m (fun p => k))
  (at level 61, p pattern, m at next level, right associativity).

Definition raises {A : Type} (m : result A) : Prop := exists e, m = inl e.

(** ** float64 *)

Definition float64 : Type := float.

(** The float nearest to an integer, ties to even; an infinity when the
    integer is beyond the largest float. *)
Definition round_int (n : Z) : float64 :=
  SF2Prim (binary_normalize prec emax n 0 false).

(** A Python int where a float64 is needed ([np.float64 + int], an array of
    floats divided by an int): the nearest float, and OverflowError when the
    int is too large to convert. *)
Definition of_int (n : Z) : result float64 :=
  match binary_normalize prec emax n 0 false with
  | S754_infinity _ => raise OverflowError
  | _ => ret (round_int n)
  end.

(** numpy's element-wise operations on float64: they never raise, a division
    by zero gives an infinity or NaN (with a RuntimeWarning only). *)
Module np.

Definition add (a b : float64) : float64 := (a + b)%float.
Definition subtract (a b : float64) : float64 := (a - b)%float.
Definition multiply (a b : float64) : float64 := (a * b)%float.
Definition divide (a b : float64) : float64 := (a / b)%float.
Definition sqrt (a : float64) : float64 := PrimFloat.sqrt a.
Definition absolute (a : float64) : float64 := PrimFloat.abs a.

(** [a <= b]; every comparison with NaN is false. *)
Definition less_equal (a b : float64) : bool := (a <=? b)%float.

(** [np.sqrt(n)] for a Python int [n]: the int becomes an int64 or a uint64
    and then a float64; an int outside their range becomes an object, of
    which numpy has no square root (TypeError). *)
Definition sqrt_int (n : Z) : result float64 :=
  if (- 2 ^ 63 <=? n) && (n <? 2 ^ 64)
  then ret (sqrt (round_int n))
  else raise TypeError.

End np.

(** ** Python built-ins used by the estimator *)

Module py.

(** [s.split(" ", 1)]: the part before the first space and, when there is
    a space, the rest. *)
Fixpoint split_space_1 (s : string) : string * option string :=
  match s with
  | EmptyString => (EmptyString, None)
  | String c s' =>
      if Ascii.eqb c " "
      then (EmptyString, Some s')
      else let '(h, r) := split_space_1 s' in (String c h, r)
  end.

(** [" " in s] *)
Fixpoint contains_space (s : string) : bool :=
  match s with
  | EmptyString => false
  | String c s' => Ascii.eqb c " " || contains_space s'
  end.

(** White space that [int] skips around a literal, for a string of code
    points below 256: tab to carriage return and the space, which the parser
    of integers skips, and the two other white space characters of that
    range (next line, no-break space), which [int] turns into spaces first.
    The separators 28 to 31 are not skipped. *)
Definition is_space (c : ascii) : bool :=
  let n := nat_of_ascii c in
  (((9 <=? n) && (n <=? 13)) || (n =? 32) || (n =? 133) || (n =? 160))%nat.

Fixpoint lstrip (l : list ascii) : list ascii :=
  match l with
  | c :: t => if is_space c then lstrip t else l
  | [] => []
  end.

Definition digit2 (c : ascii) : option Z :=
  if Ascii.eqb c "0" then Some 0
  else if Ascii.eqb c "1" then Some 1
  else None.

(** The digit scanner of [int(s, 2)]: digits and single underscores between
    them; it stops at the first other character and returns the value, the
    number of digits and what is left.  [None]: a doubled or trailing
    underscore. *)
Fixpoint scan_digits (l : list ascii) (acc : Z) (digits : nat) (prev_us : bool)
  : option (Z * nat * list ascii) :=
  match l with
  | [] => if prev_us then None else Some (acc, digits, [])
  | c :: t =>
      if Ascii.eqb c "_"
      then (if prev_us then None else scan_digits t acc digits true)
      else match digit2 c with
           | Some d => scan_digits t (2 * acc + d) (S digits) false
           | None => if prev_us then None else Some (acc, digits, l)
           end
  end.

(** [int(s, 2)]: optional white space, sign and [0b] prefix (one underscore
    may follow the prefix), at least one binary digit, optional white
    space.  [None] stands for ValueError. *)
Definition int2 (s : string) : option Z :=
  let l1 := lstrip (list_ascii_of_string s) in
  let '(neg, l2) :=
    match l1 with
    | "+"%char :: t => (false, t)
    | "-"%char :: t => (true, t)
    | _ => (false, l1)
    end in
  let l3 :=
    match l2 with
    | "0"%char :: b :: t =>
        if Ascii.eqb b "b" || Ascii.eqb b "B"
        then match t with "_"%char :: t' => t' | _ => t end
        else l2
    | _ => l2
    end in
  match l3 with
  | "_"%char :: _ => None
  | _ =>
      match scan_digits l3 0 0 false with
      | Some (v, digits, rest) =>
          match digits, lstrip rest with
          | S _, [] => Some (if neg then - v else v)
          | _, _ => None
          end
      | None => None
      end
  end.

(** Binary digits of a positive number, most significant first. *)
Fixpoint bin_pos (p : positive) (acc : string) : string :=
  match p with
  | xH => String "1" acc
  | xO p' => bin_pos p' (String "0" acc)
  | xI p' => bin_pos p' (String "1" acc)
  end.

(** [bin(n)] *)
Definition bin (n : Z) : string :=
  match n with
  | Z0 => "0b0"
  | Zpos p => "0b" ++ bin_pos p ""
  | Zneg p => "-0b" ++ bin_pos p ""
  end.

(** [s.count(c)] for a one-character [c]. *)
Fixpoint count (s : string) (c : ascii) : Z :=
  match s with
  | EmptyString => 0
  | String a s' => (if Ascii.eqb a c then 1 else 0) + count s' c
  end.

(** [l[k]]: IndexError out of range (only indices [k >= 0] occur). *)
Definition getitem {A : Type} (l : list A) (k : nat) : result A :=
  match nth_error l k with
  | Some a => ret a
  | None => raise IndexError
  end.

Fixpoint update {A : Type} (l : list A) (k : nat) (v : A) : list A :=
  match l, k with
  | [], _ => []
  | _ :: t, O => v :: t
  | h :: t, S k' => h :: update t k' v
  end.

(** [l[k] = v] *)
Definition setitem {A : Type} (l : list A) (k : nat) (v : A) : result (list A) :=
  match nth_error l k with
  | Some _ => ret (update l k v)
  | None => raise IndexError
  end.

(** A loop [for x in xs: state = body(x, state)] that stops at the first
    exception. *)
Fixpoint for_each {A S : Type} (xs : list A) (body : A -> S -> result S) (s : S)
  : result S :=
  match xs with
  | [] => ret s
  | x :: xs' => s' <- body x s ;; for_each xs' body s'
  end.

End py.

(** ** Paulis *)

(** A Pauli on [n] sites in symplectic form: site [i] is non-identity when
    [z[i] || x[i]]. *)
Record Pauli : Type := mkPauli {
  pauli_z : list bool;
  pauli_x : list bool;
  pauli_phase : Z
}.

(** A PauliList, row by row. *)
Definition PauliList : Type := list Pauli.

(** Element-wise [a | b] of two boolean vectors of one length. *)
Definition logical_or (a b : list bool) : list bool :=
  map (fun p => orb (fst p) (snd p)) (combine a b).

(** [np.packbits(row, bitorder="little")]: eight bits to a byte, bit [i] of a
    byte worth [2^i], the last byte padded with zeros. *)
Fixpoint packbits_little (bits : list bool) (pos : nat) (cur : Z) : list Z :=
  match bits with
  | [] => if (pos =? 0)%nat then [] else [cur]
  | b :: t =>
      let cur' := cur + (if b then Z.shiftl 1 (Z.of_nat pos) else 0) in
      if (pos =? 7)%nat
      then cur' :: packbits_little t 0 0
      else packbits_little t (S pos) cur'
  end.

(** [a @ b] for two vectors of Python ints. *)
Definition dot (a b : list Z) : Z :=
  fold_left Z.add (map (fun p => fst p * snd p) (combine a b)) 0.

Definition _paulis2inds (paulis : PauliList) : list Z :=
  map (fun p =>
         let nonid := logical_or (pauli_z p) (pauli_x p) in
         let packed_vals := packbits_little nonid 0 0 in
         let power_uint8 :=
           map (fun j => Z.shiftl 1 (8 * Z.of_nat j)) (seq 0 (List.length packed_vals)) in
         dot packed_vals power_uint8)
      paulis.

Definition _parity (integer : Z) : Z :=
  py.count (py.bin integer) "1" mod 2.

(** ** The expectation estimator *)

(** A count histogram: the items of the dict, in iteration order. *)
Definition Counts : Type := list (string * Z).

(** [expvals[k] += n] for a Python int [n]: the element is read, the int is
    converted, the sum is stored. *)
Definition iadd_at (expvals : list float64) (k : nat) (n : Z)
  : result (list float64) :=
  old <- py.getitem expvals k ;;
  v <- of_int n ;;
  py.setitem expvals k (np.add old v).

(** The key of one histogram entry as an integer. *)
Definition parse_outcome (bin_outcome : string) : result Z :=
  let split_outcome :=
    if py.contains_space bin_outcome
    then fst (py.split_space_1 bin_outcome)
    else bin_outcome in
  match py.int2 split_outcome with
  | Some outcome => ret outcome
  | None => raise ValueError
  end.

(** The body of the loop over [counts.items()]: the state is
    [(expvals, denom)]. *)
Definition count_step (size : nat) (diag_inds : list Z) (item : string * Z)
  (st : list float64 * Z) : result (list float64 * Z) :=
  let '(bin_outcome, freq) := item in
  let '(expvals, denom) := st in
  outcome <- parse_outcome bin_outcome ;;
  let denom := denom + freq in
  expvals <- py.for_each (seq 0 size)
               (fun k expvals =>
                  d <- py.getitem diag_inds k ;;
                  let coeff := (-1) ^ _parity (Z.land d outcome) in
                  iadd_at expvals k (freq * coeff))
               expvals ;;
  ret (expvals, denom).

Definition _pauli_expval_with_variance (counts : Counts) (paulis : PauliList)
  : result (list float64 * list float64) :=
  let size := List.length paulis in
  let diag_inds := _paulis2inds paulis in
  let expvals := repeat 0%float size in
  let denom := 0 in
  '(expvals, denom) <- py.for_each counts (count_step size diag_inds) (expvals, denom) ;;
  denom <- of_int denom ;;
  let expvals := map (fun e => np.divide e denom) expvals in
  let variances := map (fun e => np.subtract 1%float (np.multiply e e)) expvals in
  ret (expvals, variances).

(** ** Python float arithmetic (it raises where numpy only warns) *)

Module pyfloat.

(** [a ** 2], the square rounded to nearest: OverflowError when the square
    of a finite float is beyond the largest float; a square too small for a
    float is 0.0. *)
Definition pow2 (a : float64) : result float64 :=
  let square := (a * a)%float in
  if is_finite a && is_infinity square then raise OverflowError else ret square.

(** [a / b] *)
Definition truediv (a b : float64) : result float64 :=
  if is_zero b then raise ZeroDivisionError else ret (a / b)%float.

(** [math.ceil(a)]: the least integer not below [a], exactly. *)
Definition ceil (a : float64) : result Z :=
  match Prim2SF a with
  | S754_zero _ => ret 0
  | S754_finite s m e =>
      let v := if s then Zneg m else Zpos m in
      ret (if 0 <=? e then v * 2 ^ e else - ((- v) / 2 ^ (- e)))
  | S754_infinity _ => raise OverflowError
  | S754_nan => raise ValueError
  end.

End pyfloat.

(** ** N-dimensional arrays *)

(** An array is its shape and its elements in row-major (C) order. *)
Record ndarray (A : Type) : Type := mkArray {
  shape : list nat;
  flat : list A
}.
Arguments mkArray {A} _ _.
Arguments shape {A} _.
Arguments flat {A} _.

Definition size_of (shp : list nat) : nat := fold_right Nat.mul 1%nat shp.

(** [np.ndindex] over a shape: all indices of the shape, last axis fastest. *)
Fixpoint ndindex (shp : list nat) : list (list nat) :=
  match shp with
  | [] => [[]]
  | n :: rest => flat_map (fun i => map (cons i) (ndindex rest)) (seq 0 n)
  end.

(** Offset of an index in the flat data; [None] when the index does not fit
    the shape. *)
Fixpoint ravel (shp idx : list nat) : option nat :=
  match shp, idx with
  | [], [] => Some 0%nat
  | n :: rest, i :: idx' =>
      if (i <? n)%nat
      then option_map (fun o => (i * size_of rest + o)%nat) (ravel rest idx')
      else None
  | _, _ => None
  end.

(** [arr[index]] for a full index tuple. *)
Definition array_get {A : Type} (arr : ndarray A) (index : list nat) : result A :=
  match ravel (shape arr) index with
  | Some o => py.getitem (flat arr) o
  | None => raise IndexError
  end.

(** [arr[index] = v] *)
Definition array_set {A : Type} (arr : ndarray A) (index : list nat) (v : A)
  : result (ndarray A) :=
  match ravel (shape arr) index with
  | Some o => data <- py.setitem (flat arr) o v ;; ret (mkArray (shape arr) data)
  | None => raise IndexError
  end.

(** [np.zeros_like(arr, dtype=float)] *)
Definition zeros_like {A : Type} (arr : ndarray A) : ndarray float64 :=
  mkArray (shape arr) (repeat 0%float (size_of (shape arr))).

(** One axis of a broadcast: equal sizes, or one of them is 1. *)
Definition broadcast_dim (x y : nat) : option nat :=
  if (x =? y)%nat then Some x
  else if (x =? 1)%nat then Some y
  else if (y =? 1)%nat then Some x
  else None.

(** Broadcast of two shapes given last axis first. *)
Fixpoint broadcast_rev (a b : list nat) : option (list nat) :=
  match a, b with
  | [], l => Some l
  | l, [] => Some l
  | x :: a', y :: b' =>
      match broadcast_dim x y, broadcast_rev a' b' with
      | Some d, Some l => Some (d :: l)
      | _, _ => None
      end
  end.

(** The broadcast shape: axes aligned from the last, size-1 axes stretch. *)
Definition broadcast_shapes (s1 s2 : list nat) : option (list nat) :=
  option_map (@rev nat) (broadcast_rev (rev s1) (rev s2)).

(** The index of the source element seen at [index] of the broadcast. *)
Definition source_index (src_shape index : list nat) : list nat :=
  let trailing := skipn (List.length index - List.length src_shape) index in
  map (fun p => if (fst p =? 1)%nat then 0%nat else snd p) (combine src_shape trailing).

Fixpoint map_result {A B : Type} (f : A -> result B) (l : list A) : result (list B) :=
  match l with
  | [] => ret []
  | a :: l' => b <- f a ;; bs <- map_result f l' ;; ret (b :: bs)
  end.

(** [np.broadcast_to(arr, target)], with the elements written out. *)
Definition broadcast_to {A : Type} (arr : ndarray A) (target : list nat)
  : result (ndarray A) :=
  data <- map_result (fun index => array_get arr (source_index (shape arr) index))
            (ndindex target) ;;
  ret (mkArray target data).

(** [np.broadcast_arrays(a, b)]: ValueError when the shapes do not agree. *)
Definition broadcast_arrays {A B : Type} (a : ndarray A) (b : ndarray B)
  : result (ndarray A * ndarray B) :=
  match broadcast_shapes (shape a) (shape b) with
  | None => raise ValueError
  | Some target =>
      a' <- broadcast_to a target ;;
      b' <- broadcast_to b target ;;
      ret (a', b')
  end.

(** ** Coefficients, operator sums and pubs *)

(** A coefficient of an operator sum: a Python float or a Python complex. *)
Inductive Coeff : Type :=
| CoeffFloat (c : float64)
| CoeffComplex (re im : float64).

(** [expval * coeff] for a float64 [expval]: a float64, or a complex128 given
    by its real and imaginary part (the float is promoted to [expval + 0j]). *)
Definition mul_coeff (expval : float64) (coeff : Coeff) : float64 * option float64 :=
  match coeff with
  | CoeffFloat c => (np.multiply expval c, None)
  | CoeffComplex re im =>
      (np.subtract (np.multiply expval re) (np.multiply 0%float im),
       Some (np.add (np.multiply expval im) (np.multiply 0%float re)))
  end.

(** [old + v] for a float64 [old] and the product above. *)
Definition add_product (old : float64) (v : float64 * option float64)
  : float64 * option float64 :=
  match v with
  | (re, None) => (np.add old re, None)
  | (re, Some im) => (np.add old re, Some (np.add 0%float im))
  end.

(** Storing a scalar into an array of dtype float: a complex128 is cast to its
    real part (numpy warns that the imaginary part is discarded). *)
Definition cast_to_float (v : float64 * option float64) : float64 := fst v.

(** An operator sum: the items of the dict from Pauli label to coefficient. *)
Definition OperatorSum : Type := list (string * Coeff).

(** The values of the bindings array matter only to the binding of the
    circuit; its shape drives the broadcast. *)
Definition BindingsArray : Type := ndarray (list (string * float64)).

(** ** Circuits *)

Record ClassicalRegister : Type := mkCreg {
  creg_name : string;
  creg_size : nat
}.

(** A classical bit: a register and an index in it. *)
Definition Clbit : Type := (ClassicalRegister * nat)%type.

Inductive Instruction : Type :=
| SdgGate (qubit : nat)
| HGate (qubit : nat)
| Measure (qubit : nat) (clbit : Clbit)
| Gate (name : string) (qubits : list nat) (clbits : list Clbit).

(** What the estimator keeps in the metadata of a measurement circuit; the
    metadata of the caller's circuit is a dict of its own. *)
Inductive CircuitMetadata : Type :=
| UserMetadata (items : list (string * string))
| MeasMetadata (orig_paulis meas_paulis : PauliList) (param_index : list nat).

Record QuantumCircuit : Type := mkCircuit {
  num_qubits : nat;
  cregs : list ClassicalRegister;
  data : list Instruction;
  metadata : CircuitMetadata
}.

Definition set_metadata (c : QuantumCircuit) (m : CircuitMetadata) : QuantumCircuit :=
  mkCircuit (num_qubits c) (cregs c) (data c) m.

(** Appending an instruction on qubit [i]: CircuitError when the circuit has
    no such qubit. *)
Definition append_on (c : QuantumCircuit) (i : nat) (instr : Instruction)
  : result QuantumCircuit :=
  if (i <? num_qubits c)%nat
  then ret (mkCircuit (num_qubits c) (cregs c) (data c ++ [instr]) (metadata c))
  else raise CircuitError.

Record EstimatorPub : Type := mkPub {
  pub_circuit : QuantumCircuit;
  pub_observables : ndarray OperatorSum;
  pub_parameter_values : BindingsArray;
  pub_precision : float64
}.

Record Options : Type := mkOptions {
  default_precision : float64;
  abelian_grouping : bool;
  seed_simulator : option Z
}.

Record _PreprocessedData : Type := mkPreprocessed {
  circuits : list QuantumCircuit;
  parameter_indices : ndarray (list nat);
  observables : ndarray OperatorSum
}.

(** A PubResult: the DataBin (evs, stds and their shape) and the metadata. *)
Record PubResult : Type := mkPubResult {
  evs : ndarray float64;
  stds : ndarray float64;
  bin_shape : list nat;
  target_precision : float64;
  result_shots : Z;
  circuit_metadata : CircuitMetadata
}.

(** ** Measurement circuits *)

(** [np.arange(n)[mask]]: the positions where the mask holds. *)
Definition masked_arange (mask : list bool) : list nat :=
  filter (fun i => nth i mask false) (seq 0 (List.length mask)).

(** [np.any(indices)]: some index is non-zero. *)
Definition np_any (indices : list nat) : bool :=
  existsb (fun i => negb (i =? 0)%nat) indices.

Section MeasurementCircuit.

(** [str(pauli)], from qiskit.quantum_info. *)
Variable pauli_str : Pauli -> string.

Definition _measurement_circuit (n_qubits : nat) (pauli : Pauli)
  : result (QuantumCircuit * list nat) :=
  let qubit_indices := masked_arange (logical_or (pauli_z pauli) (pauli_x pauli)) in
  let qubit_indices := if negb (np_any qubit_indices) then [0%nat] else qubit_indices in
  let creg := mkCreg ("__c_" ++ pauli_str pauli) (List.length qubit_indices) in
  let meas_circuit := mkCircuit n_qubits [creg] [] (UserMetadata []) in
  meas_circuit <-
    py.for_each (combine (seq 0 (List.length qubit_indices)) qubit_indices)
      (fun '(clbit, i) meas_circuit =>
         px <- py.getitem (pauli_x pauli) i ;;
         meas_circuit <-
           (if (px : bool)
            then
              pz <- py.getitem (pauli_z pauli) i ;;
              meas_circuit <-
                (if (pz : bool) then append_on meas_circuit i (SdgGate i) else ret meas_circuit) ;;
              append_on meas_circuit i (HGate i)
            else ret meas_circuit) ;;
         append_on meas_circuit i (Measure i (creg, clbit)))
      meas_circuit ;;
  ret (meas_circuit, qubit_indices).

End MeasurementCircuit.

(** ** Dicts and sets in insertion order *)

Definition Key : Type := (list nat * string)%type.

Definition index_eqb (a b : list nat) : bool :=
  if list_eq_dec Nat.eq_dec a b then true else false.

Definition key_eqb (a b : Key) : bool :=
  index_eqb (fst a) (fst b) && String.eqb (snd a) (snd b).

(** [d[k]]: KeyError when [k] is missing. *)
Fixpoint dict_get {K V : Type} (eqb : K -> K -> bool) (d : list (K * V)) (k : K)
  : result V :=
  match d with
  | [] => raise KeyError
  | (k', v) :: d' => if eqb k' k then ret v else dict_get eqb d' k
  end.

(** [d[k] = v]: an existing key keeps its place. *)
Fixpoint dict_set {K V : Type} (eqb : K -> K -> bool) (d : list (K * V)) (k : K) (v : V)
  : list (K * V) :=
  match d with
  | [] => [(k, v)]
  | (k', v') :: d' =>
      if eqb k' k then (k', v) :: d' else (k', v') :: dict_set eqb d' k v
  end.

(** [d[k]] of a [defaultdict]: the default when [k] is missing. *)
Definition dict_get_default {K V : Type} (eqb : K -> K -> bool) (d : list (K * V))
  (k : K) (default : V) : V :=
  match dict_get eqb d k with
  | inr v => v
  | inl _ => default
  end.

(** [s.add(x)] on a set of strings kept without repeats. *)
Definition set_add (s : list string) (x : string) : list string :=
  if existsb (String.eqb x) s then s else s ++ [x].

(** [s.update(keys)] *)
Definition set_update (s : list string) (keys : list string) : list string :=
  fold_left set_add keys s.

Fixpoint insert_sorted (x : string) (l : list string) : list string :=
  match l with
  | [] => [x]
  | y :: l' => if String.leb x y then x :: l else y :: insert_sorted x l'
  end.

(** [sorted(s)] for strings. *)
Definition sorted (s : list string) : list string :=
  fold_right insert_sorted [] s.

(** ** Post-processing of a pub *)

Section PostProcessing.

(** [pow(x, 0.5)] and [hypot(x, y)] of the C library: they compute
    [variance**0.5] and the modulus of a complex coefficient. *)
Variable pow_half : float64 -> float64.
Variable hypot : float64 -> float64 -> float64.

(** [np.abs(coeff)]: the modulus for a complex. *)
Definition abs_coeff (coeff : Coeff) : float64 :=
  match coeff with
  | CoeffFloat c => np.absolute c
  | CoeffComplex re im => hypot re im
  end.

(** The body of the loop over the items of one operator sum: the state is
    [(evs, variances)]. *)
Definition postprocess_item (expval_map : list (Key * (float64 * float64)))
  (index param_index : list nat) (item : string * Coeff)
  (st : ndarray float64 * ndarray float64)
  : result (ndarray float64 * ndarray float64) :=
  let '(pauli, coeff) := item in
  let '(evs, variances) := st in
  '(expval, variance) <- dict_get key_eqb expval_map (param_index, pauli) ;;
  old <- array_get evs index ;;
  evs <- array_set evs index (cast_to_float (add_product old (mul_coeff expval coeff))) ;;
  old <- array_get variances index ;;
  variances <- array_set variances index
                 (np.add old (np.multiply (abs_coeff coeff) (pow_half variance))) ;;
  ret (evs, variances).

(** The loop of [_postprocess_pub] over the broadcast indices. *)
Definition accumulate (expval_map : list (Key * (float64 * float64)))
  (bc_param_ind : ndarray (list nat)) (bc_obs : ndarray OperatorSum)
  : result (ndarray float64 * ndarray float64) :=
  let evs := zeros_like bc_param_ind in
  let variances := zeros_like bc_param_ind in
  py.for_each (ndindex (shape bc_param_ind))
    (fun index st =>
       param_index <- array_get bc_param_ind index ;;
       obs <- array_get bc_obs index ;;
       py.for_each obs (postprocess_item expval_map index param_index) st)
    (evs, variances).

Definition _postprocess_pub (pub : EstimatorPub)
  (expval_map : list (Key * (float64 * float64))) (data : _PreprocessedData) (shots : Z)
  : result PubResult :=
  let bc_param_ind := parameter_indices data in
  let bc_obs := observables data in
  '(evs, variances) <- accumulate expval_map bc_param_ind bc_obs ;;
  root <- np.sqrt_int shots ;;
  let stds :=
    mkArray (shape variances) (map (fun v => np.divide v root) (flat variances)) in
  ret (mkPubResult evs stds (shape evs) (pub_precision pub) shots
         (metadata (pub_circuit pub))).

End PostProcessing.

(** ** Construction of the circuits to run *)

(** [np.logical_or.reduce(rows)]: the OR of the rows, site by site. *)
Definition or_reduce (rows : list (list bool)) : list bool :=
  match rows with
  | [] => []
  | r :: rs => fold_left logical_or rs r
  end.

(** [row[indices]] *)
Definition select_columns (row : list bool) (indices : list nat) : list bool :=
  map (fun i => nth i row false) indices.

(** [PauliList.from_symplectic(obs.z[:, indices], obs.x[:, indices], obs.phase)] *)
Definition restrict_to (obs : PauliList) (indices : list nat) : PauliList :=
  map (fun p => mkPauli (select_columns (pauli_z p) indices)
                        (select_columns (pauli_x p) indices) (pauli_phase p))
      obs.

(** [circuit_copy.add_register(clbits)] *)
Definition add_register (c : QuantumCircuit) (creg : ClassicalRegister) : QuantumCircuit :=
  mkCircuit (num_qubits c) (cregs c ++ [creg]) (data c) (metadata c).

(** [circuit_copy.compose(meas_circuit, clbits=clbits, inplace=True)]: the
    instructions of [meas_circuit] follow those of the circuit, on the same
    qubits and on the bits of the register just added. *)
Definition compose (c other : QuantumCircuit) : result QuantumCircuit :=
  if (num_qubits other <=? num_qubits c)%nat
  then ret (mkCircuit (num_qubits c) (cregs c) (data c ++ data other) (metadata c))
  else raise CircuitError.

(** The body of the loop that combines the measurement circuits with the
    circuit of the caller. *)
Definition combine_with (circuit meas_circuit : QuantumCircuit) : result QuantumCircuit :=
  let circuit_copy := circuit in
  clbits <- py.getitem (cregs meas_circuit) 0 ;;
  _ <- py.for_each (cregs circuit_copy)
         (fun creg (_ : unit) =>
            if String.eqb (creg_name clbits) (creg_name creg)
            then raise QiskitError
            else ret tt)
         tt ;;
  let circuit_copy := add_register circuit_copy clbits in
  circuit_copy <- compose circuit_copy meas_circuit ;;
  ret (set_metadata circuit_copy (metadata meas_circuit)).

Section Circuits.

Variable options : Options.
(** [str(pauli)] and [PauliList(labels)], from qiskit.quantum_info. *)
Variable pauli_str : Pauli -> string.
Variable paulis_of_labels : list string -> PauliList.
(** [observable.group_commuting(qubit_wise=True)] *)
Variable group_commuting : PauliList -> list PauliList.
(** The pass manager that unrolls the basis gates. *)
Variable passmanager_run : list QuantumCircuit -> list QuantumCircuit.
(** [parameter_values.bind(circuit, param_index)] *)
Variable bind_parameters : BindingsArray -> QuantumCircuit -> list nat -> QuantumCircuit.

(** One measurement circuit with its metadata. *)
Definition measure_group (circuit : QuantumCircuit) (basis : Pauli) (obs : PauliList)
  (param_index : list nat) : result QuantumCircuit :=
  '(meas_circuit, indices) <- _measurement_circuit pauli_str (num_qubits circuit) basis ;;
  let paulis := restrict_to obs indices in
  ret (set_metadata meas_circuit (MeasMetadata obs paulis param_index)).

(** The first half of [_create_measurement_circuits]: one measurement
    circuit per commuting group, or per Pauli without grouping. *)
Definition build_measurement_circuits (circuit : QuantumCircuit)
  (observable : PauliList) (param_index : list nat) : result (list QuantumCircuit) :=
  if abelian_grouping options
  then
    map_result
      (fun obs =>
         let basis := mkPauli (or_reduce (map pauli_z obs)) (or_reduce (map pauli_x obs)) 0 in
         measure_group circuit basis obs param_index)
      (group_commuting observable)
  else
    map_result (fun basis => measure_group circuit basis [basis] param_index)
      observable.

Definition _create_measurement_circuits (circuit : QuantumCircuit)
  (observable : PauliList) (param_index : list nat) : result (list QuantumCircuit) :=
  meas_circuits <- build_measurement_circuits circuit observable param_index ;;
  let meas_circuits := passmanager_run meas_circuits in
  map_result (combine_with circuit) meas_circuits.

Definition _bind_and_add_measurements (circuit : QuantumCircuit)
  (parameter_values : BindingsArray) (param_obs_map : list (list nat * list string))
  : result (list QuantumCircuit) :=
  py.for_each param_obs_map
    (fun '(param_index, pauli_strings) circuits =>
       let bound_circuit := bind_parameters parameter_values circuit param_index in
       let meas_paulis := paulis_of_labels (sorted pauli_strings) in
       new_circuits <- _create_measurement_circuits bound_circuit meas_paulis param_index ;;
       ret (circuits ++ new_circuits))
    [].

(** The broadcast of [_preprocess_pub]: the indices of the bindings array
    and the observables, both in the shape of the pub. *)
Definition broadcast_pub (pub : EstimatorPub)
  : result (ndarray (list nat) * ndarray OperatorSum) :=
  let param_shape := shape (pub_parameter_values pub) in
  let param_indices := mkArray param_shape (ndindex param_shape) in
  broadcast_arrays param_indices (pub_observables pub).

Definition _preprocess_pub (pub : EstimatorPub) : result _PreprocessedData :=
  let circuit := pub_circuit pub in
  let parameter_values := pub_parameter_values pub in
  '(bc_param_ind, bc_obs) <- broadcast_pub pub ;;
  param_obs_map <-
    py.for_each (ndindex (shape bc_param_ind))
      (fun index param_obs_map =>
         param_index <- array_get bc_param_ind index ;;
         obs <- array_get bc_obs index ;;
         let labels := dict_get_default index_eqb param_obs_map param_index [] in
         ret (dict_set index_eqb param_obs_map param_index
                (set_update labels (map fst obs))))
      [] ;;
  bound_circuits <- _bind_and_add_measurements circuit parameter_values param_obs_map ;;
  ret (mkPreprocessed bound_circuits bc_param_ind bc_obs).

End Circuits.

(** ** Execution on the backend *)

(** One call of [backend.run]. *)
Record RunCall : Type := mkCall {
  call_circuits : list QuantumCircuit;
  call_shots : Z;
  call_seed : option Z
}.

(** What [Result.get_counts()] gives: one histogram or a list of them. *)
Inductive GetCounts : Type :=
| OneCounts (c : Counts)
| ListCounts (l : list Counts).

(** A [Result] of the backend: what [get_counts()] returns or raises. *)
Record Result : Type := mkResult {
  get_counts : result GetCounts
}.

(** A job of the backend: what [result()] returns or raises. *)
Record Job : Type := mkJob {
  job_result : result Result
}.

Definition _prepare_counts (results : list Result) : result (list Counts) :=
  py.for_each results
    (fun res counts =>
       count <- get_counts res ;;
       let count := match count with OneCounts c => [c] | ListCounts l => l end in
       ret (counts ++ count))
    [].

(** [l[i:j]] *)
Definition slice {A : Type} (l : list A) (i j : nat) : list A :=
  firstn (j - i) (skipn i l).

(** [[l[pos:pos+n] for pos in range(0, len(l), n)]] for [n > 0]. *)
Fixpoint chunks_upto {A : Type} (fuel n : nat) (l : list A) : list (list A) :=
  match fuel, l with
  | O, _ | _, [] => []
  | S fuel', _ => firstn n l :: chunks_upto fuel' n (skipn n l)
  end.

Definition chunks {A : Type} (n : nat) (l : list A) : list (list A) :=
  chunks_upto (List.length l) n l.

Section Estimator.

Variable options : Options.
Variable pauli_str : Pauli -> string.
(** [pauli.to_label()] *)
Variable to_label : Pauli -> string.
Variable paulis_of_labels : list string -> PauliList.
Variable group_commuting : PauliList -> list PauliList.
Variable passmanager_run : list QuantumCircuit -> list QuantumCircuit.
Variable bind_parameters : BindingsArray -> QuantumCircuit -> list nat -> QuantumCircuit.
Variable pow_half : float64 -> float64.
Variable hypot : float64 -> float64 -> float64.

(** The backend: its state, whether it is a [BackendV2], its
    [max_circuits], and [run], which raises or returns the job it starts. *)
Variable BackendState : Type.
Variable is_backend_v2 : bool.
Variable max_circuits : option nat.
Variable backend_run : BackendState -> RunCall -> result Job * BackendState.

(** The state of the world: the backend and the calls of [backend.run] so
    far, oldest first. *)
Record World : Type := mkWorld {
  backend : BackendState;
  calls : list RunCall
}.

(** A computation that may call the backend and may raise. *)
Definition M (A : Type) : Type := World -> result A * World.

Definition retM {A : Type} (a : A) : M A := fun w => (inr a, w).
Definition liftM {A : Type} (r : result A) : M A := fun w => (r, w).
Definition bindM {A B : Type} (m : M A) (k : A -> M B) : M B :=
  fun w =>
    match m w with
    | (inl e, w') => (inl e, w')
    | (inr a, w') => k a w'
    end.

Fixpoint for_eachM {A S : Type} (xs : list A) (body : A -> S -> M S) (s : S) : M S :=
  match xs with
  | [] => retM s
  | x :: xs' => bindM (body x s) (for_eachM xs' body)
  end.

(** [backend.run(circuits, shots=..., seed_simulator=...)]: the call is
    recorded; it raises or returns the job. *)
Definition submit (call : RunCall) : M Job :=
  fun w =>
    let '(job, b) := backend_run (backend w) call in
    (job, mkWorld b (calls w ++ [call])).

Local Notation "x <~ m ;; k" := (bindM m (fun x => k))
  (at level 61, m at next level, right associativity).
Local Notation "' p <~ m ;; k" := (bindM m (fun p => k))
  (at level 61, p pattern, m at next level, right associativity).

Definition _run_circuits (circuits : list QuantumCircuit) (shots : Z)
  (seed : option Z) : M (list Result * list CircuitMetadata) :=
  let metadata := map metadata circuits in
  let circuits := map (fun circ => set_metadata circ (UserMetadata [])) circuits in
  if is_backend_v2
  then
    match max_circuits with
    | Some (S n) =>
        jobs <~ for_eachM (chunks (S n) circuits)
                  (fun batch jobs =>
                     job <~ submit (mkCall batch shots seed) ;;
                     retM (jobs ++ [job]))
                  [] ;;
        result <~ liftM (map_result job_result jobs) ;;
        retM (result, metadata)
    | _ =>
        job <~ submit (mkCall circuits shots seed) ;;
        result <~ liftM (job_result job) ;;
        retM ([result], metadata)
    end
  else liftM (raise RuntimeError).

Definition _calc_expval_map (counts : list Counts) (metadata : list CircuitMetadata)
  : result (list (Key * (float64 * float64))) :=
  py.for_each (combine counts metadata)
    (fun '(count, meta) expval_map =>
       match meta with
       | MeasMetadata orig_paulis meas_paulis param_index =>
           '(expvals, variances) <- _pauli_expval_with_variance count meas_paulis ;;
           ret (fold_left
                  (fun expval_map '(pauli, (expval, variance)) =>
                     dict_set key_eqb expval_map (param_index, to_label pauli)
                       (expval, variance))
                  (combine orig_paulis (combine expvals variances))
                  expval_map)
       | UserMetadata _ => raise KeyError
       end)
    [].

Definition _run_pubs (pubs : list EstimatorPub) (shots : Z) : M (list PubResult) :=
  preprocessed_data <~
    liftM
      (map_result
         (_preprocess_pub options pauli_str paulis_of_labels group_commuting
            passmanager_run bind_parameters)
         pubs) ;;
  let flat_circuits := flat_map circuits preprocessed_data in
  ' (run_result, metadata) <~
    _run_circuits flat_circuits shots (seed_simulator options) ;;
  counts <~ liftM (_prepare_counts run_result) ;;
  liftM
    ('(results, _) <-
       py.for_each (combine pubs preprocessed_data)
         (fun '(pub, data) '(results, start) =>
            let stop := (start + List.length (circuits data))%nat in
            expval_map <- _calc_expval_map (slice counts start stop)
                            (slice metadata start stop) ;;
            pub_result <- _postprocess_pub pow_half hypot pub expval_map data shots ;;
            ret (results ++ [pub_result], stop))
         ([], 0%nat) ;;
     ret results).

(** The shots a pub needs: [int(math.ceil(1.0 / pub.precision**2))]. *)
Definition shots_of (pub : EstimatorPub) : result Z :=
  square <- pyfloat.pow2 (pub_precision pub) ;;
  quotient <- pyfloat.truediv 1%float square ;;
  pyfloat.ceil quotient.

(** The first loop of [_run]: [pub_dict], from shots to the indices of the
    pubs that need them, in insertion order. *)
Definition consolidate (pubs : list EstimatorPub) : result (list (Z * list nat)) :=
  py.for_each (combine (seq 0 (List.length pubs)) pubs)
    (fun '(i, pub) pub_dict =>
       shots <- shots_of pub ;;
       let lst := dict_get_default Z.eqb pub_dict shots [] in
       ret (dict_set Z.eqb pub_dict shots (lst ++ [i])))
    [].

Definition _run (pubs : list EstimatorPub) : M (list (option PubResult)) :=
  pub_dict <~ liftM (consolidate pubs) ;;
  let results := repeat None (List.length pubs) in
  for_eachM pub_dict
    (fun '(shots, lst) results =>
       group <~ liftM (map_result (py.getitem pubs) lst) ;;
       pub_results <~ _run_pubs group shots ;;
       liftM
         (py.for_each (combine lst pub_results)
            (fun '(i, pub_result) results => py.setitem results i (Some pub_result))
            results))
    results.

Definition _validate_pubs (pubs : list EstimatorPub) : result unit :=
  py.for_each (combine (seq 0 (List.length pubs)) pubs)
    (fun '(i, pub) _ =>
       if np.less_equal (pub_precision pub) 0%float
       then raise ValueError
       else ret tt)
    tt.

(** [EstimatorPub.coerce(pub, precision)], from the containers. *)
Variable PubLike : Type.
Variable coerce : PubLike -> float64 -> result EstimatorPub.

(** [run]: what it returns is the job, that is the outcome of [_run]. *)
Definition run (pubs : list PubLike) (precision : option float64)
  : M (result (list (option PubResult))) :=
  let precision :=
    match precision with
    | None => default_precision options
    | Some p => p
    end in
  coerced_pubs <~ liftM (map_result (fun pub => coerce pub precision) pubs) ;;
  _ <~ liftM (_validate_pubs coerced_pubs) ;;
  fun w => let '(job, w') := _run coerced_pubs w in (inr job, w').

End Estimator.

(** ** The words of the specification *)

(** Number of one bits of a positive number. *)
Fixpoint popcount_pos (p : positive) : Z :=
  match p with
  | xH => 1
  | xO p' => popcount_pos p'
  | xI p' => 1 + popcount_pos p'
  end.

(** [popcount n] for [n >= 0]. *)
Definition popcount (n : Z) : Z :=
  match n with
  | Zpos p => popcount_pos p
  | _ => 0
  end.

(** The sign contribution of outcome [b] to an operator of mask [m]. *)
Definition sign (m b : Z) : Z := (-1) ^ popcount (Z.land m b).

(** A histogram with its keys read as integers: pairs (outcome, frequency). *)
Definition Histogram : Type := list (Z * Z).

Definition parse_histogram (counts : Counts) : result Histogram :=
  map_result (fun '(key, freq) => b <- parse_outcome key ;; ret (b, freq)) counts.

(** The total frequency and the signed total of a histogram. *)
Definition total (h : Histogram) : Z :=
  fold_right (fun bf acc => snd bf + acc) 0 h.


(** The integer whose bit [i] is [bits[i]]. *)
Fixpoint mask_of_bits (bits : list bool) : Z :=
  match bits with
  | [] => 0
  | b :: t => (if b then 1 else 0) + 2 * mask_of_bits t
  end.

(** The non-identity mask of an operator: the OR of its X and Z bits. *)
Definition nonid_mask (p : Pauli) : Z :=
  mask_of_bits (logical_or (pauli_z p) (pauli_x p)).

(** A histogram key: the part before the first space and, when there is a
    space, what follows it. *)
Definition key_of (parts : string * option string) : string :=
  match parts with
  | (prefix, None) => prefix
  | (prefix, Some rest) => prefix ++ " " ++ rest
  end.

(** The little-endian value of a list of bytes, as [_paulis2inds] sums it. *)
Definition le_value (bytes : list Z) : Z :=
  dot bytes (map (fun j => Z.shiftl 1 (8 * Z.of_nat j)) (seq 0 (List.length bytes))).

(** The sites a circuit measures, in program order. *)
Definition measured_sites (c : QuantumCircuit) : list nat :=
  flat_map (fun instr => match instr with Measure q _ => [q] | _ => [] end) (data c).

(** The circuit already has a classical register of that name. *)
Definition has_creg_named (name : string) (c : QuantumCircuit) : bool :=
  existsb (fun creg => String.eqb name (creg_name creg)) (cregs c).

(** The register of measurement results of a measurement circuit collides
    with a register of the circuit. *)
Definition collides (circuit meas_circuit : QuantumCircuit) : bool :=
  match cregs meas_circuit with
  | clbits :: _ => has_creg_named (creg_name clbits) circuit
  | [] => false
  end.

(** The measurement circuit composed onto a copy of the circuit: the register
    of results is added, the instructions follow, the metadata is that of the
    measurement circuit. *)
Definition composed_onto (circuit meas_circuit : QuantumCircuit) : QuantumCircuit :=
  mkCircuit (num_qubits circuit) (cregs circuit ++ firstn 1 (cregs meas_circuit))
    (data circuit ++ data meas_circuit) (metadata meas_circuit).

(** The signed frequencies [f_b * (-1)^popcount(m & b)] of a histogram added
    up in binary64, in the order of the histogram and from a sum so far:
    every term is converted to a float and added, which rounds. *)
Definition float_total_from (m : Z) (h : Histogram) (start : float64) : float64 :=
  fold_left (fun acc bf => np.add acc (round_int (snd bf * sign m (fst bf)))) h start.

Definition float_total (m : Z) (h : Histogram) : float64 :=
  float_total_from m h 0%float.

(** The expectation value of the mask [m] in binary64: the float sum of the
    signed frequencies divided by the total; and the variance, one minus
    the square of the expectation value. *)
Definition expval_of (m : Z) (hist : Histogram) : float64 :=
  np.divide (float_total m hist) (round_int (total hist)).

Definition variance_of (m : Z) (hist : Histogram) : float64 :=
  np.subtract 1%float (np.multiply (expval_of m hist) (expval_of m hist)).

(** The histogram counts shots: no frequency is negative and the total is
    below [2^63]. *)
Definition counts_shots (h : Histogram) : Prop :=
  Forall (fun bf => 0 <= snd bf) h /\ total h < 2 ^ 63.

(** The histogram of the items whose keys are given in two parts (the part
    before the first space, and what follows the space if there is one),
    with the part before the space read as the outcome. *)
Definition prefix_histogram (items : list ((string * option string) * Z))
  : result Histogram :=
  map_result
    (fun it =>
       match py.int2 (fst (fst it)) with
       | Some b => ret (b, snd it)
       | None => raise ValueError
       end)
    items.

(** *** Post-processing, index by index *)

Section PostProcessingWords.

Variable pow_half : float64 -> float64.
Variable hypot : float64 -> float64 -> float64.

(** What [evs[index] += expval * coeff] adds to a cell of the float array:
    the product for a float coefficient, its real part for a complex one. *)
Definition stored_product (expval : float64) (coeff : Coeff) : float64 :=
  match coeff with
  | CoeffFloat c => np.multiply expval c
  | CoeffComplex re im =>
      np.subtract (np.multiply expval re) (np.multiply 0%float im)
  end.

(** The accumulation over the (label, coefficient) pairs of one operator sum:
    [ev += coeff * expectation] and [err += |coeff| * sqrt(variance)], with
    the expectation and the variance looked up for the binding index. *)
Definition accumulate_pairs (expval_map : list (Key * (float64 * float64)))
  (param_index : list nat) (obs : OperatorSum) (start : float64 * float64)
  : result (float64 * float64) :=
  py.for_each obs
    (fun '(pauli, coeff) '(ev, err) =>
       '(expval, variance) <- dict_get key_eqb expval_map (param_index, pauli) ;;
       ret (np.add ev (stored_product expval coeff),
            np.add err (np.multiply (abs_coeff hypot coeff) (pow_half variance))))
    start.

(** The pair (ev, err_accum) of one broadcast index. *)
Definition cell_at (expval_map : list (Key * (float64 * float64)))
  (bc_param_ind : ndarray (list nat)) (bc_obs : ndarray OperatorSum) (index : list nat)
  : result (float64 * float64) :=
  param_index <- array_get bc_param_ind index ;;
  obs <- array_get bc_obs index ;;
  accumulate_pairs expval_map param_index obs (0%float, 0%float).

(** Post-processing as the specification words it: every broadcast index gets
    its accumulated expectation value, and its accumulated error divided by
    [sqrt(shots)]. *)
Definition postprocess_by_index (pub : EstimatorPub)
  (expval_map : list (Key * (float64 * float64))) (data : _PreprocessedData) (shots : Z)
  : result PubResult :=
  let shp := shape (parameter_indices data) in
  cells <- map_result (cell_at expval_map (parameter_indices data) (observables data))
             (ndindex shp) ;;
  ret (mkPubResult
         (mkArray shp (map fst cells))
         (mkArray shp (map (fun c => np.divide (snd c) (np.sqrt (round_int shots))) cells))
         shp (pub_precision pub) shots (metadata (pub_circuit pub))).

End PostProcessingWords.

(** The accumulation of [coeff * expectation] in complex arithmetic: the real
    and the imaginary part of the sum. *)
Definition complex_accumulate (expval_map : list (Key * (float64 * float64)))
  (param_index : list nat) (obs : OperatorSum) : result (float64 * float64) :=
  py.for_each obs
    (fun '(pauli, coeff) '(re, im) =>
       '(expval, _) <- dict_get key_eqb expval_map (param_index, pauli) ;;
       let '(pre, pim) := mul_coeff expval coeff in
       ret (np.add re pre,
            np.add im (match pim with Some v => v | None => 0%float end)))
    (0%float, 0%float).

(** *** A pub with a complex coefficient *)

(** The empty circuit on one qubit. *)
Definition empty_circuit : QuantumCircuit := mkCircuit 1 [] [] (UserMetadata []).

(** One scalar pub: the operator sum [{"Z": 1j}] and no parameters. *)
Definition imaginary_pub : EstimatorPub :=
  mkPub empty_circuit
    (mkArray [] [[("Z"%string, CoeffComplex 0%float 1%float)]])
    (mkArray [] [[]])
    0x1p-6%float.

Definition imaginary_data : _PreprocessedData :=
  mkPreprocessed [] (mkArray [] [[]]) (pub_observables imaginary_pub).

(** The expectation of [Z] is 1 and its variance 0. *)
Definition sure_outcome : list (Key * (float64 * float64)) :=
  [(([], "Z"%string), (1%float, 0%float))].

(** *** Shots and calls of the backend *)

(** The least integer not below a float (0 for an infinity and for NaN). *)
Definition ceiling (a : float64) : Z :=
  match pyfloat.ceil a with
  | inr n => n
  | inl _ => 0
  end.

(** [ceil(1.0 / precision**2)] as binary64 evaluates it: the square is
    rounded, the quotient is rounded, the ceiling is exact. *)
Definition binary64_shots (precision : float64) : Z :=
  ceiling (1 / (precision * precision))%float.

(** [ceil(1 / precision^2)] in exact arithmetic, for a finite precision
    [m * 2^e] other than zero: 1 when [e >= 0], and the ceiling of
    [2^(-2e) / m^2] otherwise. *)
Definition exact_shots (precision : float64) : option Z :=
  match Prim2SF precision with
  | S754_finite _ m e =>
      Some (if 0 <=? e then 1 else - ((- 2 ^ (- 2 * e)) / (Zpos m * Zpos m)))
  | _ => None
  end.

(** Index [i] is in the list that [d] keeps for [shots]. *)
Definition batched (d : list (Z * list nat)) (shots : Z) (i : nat) : Prop :=
  exists lst, dict_get Z.eqb d shots = inr lst /\ In i lst.

(** What [_run_circuits] sends: the circuit without its metadata. *)
Definition cleared (circ : QuantumCircuit) : QuantumCircuit :=
  set_metadata circ (UserMetadata []).

(** Whatever the world, the calls of the backend that [m] adds all satisfy
    [P]. *)
Definition emits {B A : Type} (P : RunCall -> Prop) (m : M B A) : Prop :=
  forall w, exists new, calls B (snd (m w)) = calls B w ++ new /\ Forall P new.

Section CallsOfRun.

Variable options : Options.
Variable pauli_str : Pauli -> string.
Variable paulis_of_labels : list string -> PauliList.
Variable group_commuting : PauliList -> list PauliList.
Variable passmanager_run : list QuantumCircuit -> list QuantumCircuit.
Variable bind_parameters : BindingsArray -> QuantumCircuit -> list nat -> QuantumCircuit.

(** [circ] is one of the circuits that preprocessing makes for [pub], with
    its metadata cleared for the backend. *)
Definition circuit_of_pub (pub : EstimatorPub) (circ : QuantumCircuit) : Prop :=
  exists data c0,
    _preprocess_pub options pauli_str paulis_of_labels group_commuting passmanager_run
      bind_parameters pub = inr data /\
    In c0 (circuits data) /\
    circ = cleared c0.

(** Every circuit of the call is a circuit of one of the pubs, and the call
    asks for the shots that the precision of that pub gives in binary64. *)
Definition sent_with_required_shots (pubs : list EstimatorPub) (call : RunCall) : Prop :=
  forall circ, In circ (call_circuits call) ->
    exists pub,
      In pub pubs /\ circuit_of_pub pub circ /\
      call_shots call = binary64_shots (pub_precision pub).


End CallsOfRun.

(** *** A small estimator to run the statements on *)

Module Demo.

Definition options : Options := mkOptions 0x1p-6%float true None.

(** Every label is [Z] on one qubit. *)
Definition zed : Pauli := mkPauli [true] [false] 0.
Definition pauli_str (p : Pauli) : string := "Z".
Definition paulis_of_labels (labels : list string) : PauliList := map (fun _ => zed) labels.
Definition group_commuting (paulis : PauliList) : list PauliList :=
  match paulis with
  | [] => []
  | _ => [paulis]
  end.
Definition passmanager_run (l : list QuantumCircuit) : list QuantumCircuit := l.
Definition bind_parameters (values : BindingsArray) (c : QuantumCircuit) (index : list nat)
  : QuantumCircuit := c.

(** A [pow(x, 0.5)] that is the square root, and a [hypot] that is the
    square root of the sum of the squares. *)
Definition pow_half (x : float64) : float64 := np.sqrt x.
Definition hypot (x y : float64) : float64 := np.sqrt (x * x + y * y)%float.

(** A backend without state that measures 0 in every shot. *)
Definition backend_run (b : unit) (call : RunCall) : result Job * unit :=
  (inr (mkJob (inr (mkResult
     (inr (ListCounts
             (map (fun _ => [("0"%string, call_shots call)]) (call_circuits call))))))),
   tt).

Definition world : World unit := mkWorld unit tt [].

(** The observable [Z] at every one of three bindings. *)
Definition pub_of (precision : float64) : EstimatorPub :=
  mkPub (mkCircuit 1 [] [] (UserMetadata []))
    (mkArray [1%nat] [[("Z"%string, CoeffFloat 1%float)]])
    (mkArray [3%nat] [[]; []; []])
    precision.

Definition expval_map : list (Key * (float64 * float64)) :=
  [(([0%nat], "Z"%string), (1%float, 0%float));
   (([1%nat], "Z"%string), (1%float, 0%float));
   (([2%nat], "Z"%string), (1%float, 0%float))].

(** The float nearest to 0.1, and the float nearest to 1/3. *)
Definition tenth : float64 := 0x1.999999999999ap-4%float.

End Demo.

(** *** Broadcasting in the words of the specification *)

(** [src] stretches to [target]: aligned from the last axis, every axis of
    [src] has the size of the target axis or size 1. *)
Definition stretches_to (src target : list nat) : Prop :=
  (List.length src <= List.length target)%nat /\
  Forall2 (fun n t => n = t \/ n = 1%nat) src
    (skipn (List.length target - List.length src) target).

(** The array holds as many elements as its shape says. *)
Definition well_formed {A : Type} (arr : ndarray A) : Prop :=
  List.length (flat arr) = size_of (shape arr).

(** *** The aggregation example of the specification *)

(** One scalar pub with the operator sum [{"Z": 1.0}]. *)
Definition single_z_pub : EstimatorPub :=
  mkPub (mkCircuit 1 [] [] (UserMetadata []))
    (mkArray [] [[("Z"%string, CoeffFloat 1%float)]])
    (mkArray [] [[]])
    0x1p-6%float.

Definition single_z_data : _PreprocessedData :=
  mkPreprocessed [] (mkArray [] [[]]) (pub_observables single_z_pub).

(** ** More words for the properties of the code *)

(** Site [i] of the Pauli is not the identity. *)
Definition nonid_at (p : Pauli) (i : nat) : bool :=
  nth i (pauli_z p) false || nth i (pauli_x p) false.

(** The key of an item is not a binary outcome. *)
Definition bad_key (item : string * Z) : Prop :=
  parse_outcome (fst item) = inl ValueError.

(** The change of basis in front of the measurement of site [i]: nothing for
    Z (and the identity), H for X, Sdg then H for Y. *)
Definition basis_change (pauli : Pauli) (i : nat) : list Instruction :=
  if nth i (pauli_x pauli) false
  then (if nth i (pauli_z pauli) false then [SdgGate i] else []) ++ [HGate i]
  else [].

(** The sites to measure: the sites where the Pauli is not the identity, in
    increasing order, and site 0 when there is none. *)
Definition measured_indices (pauli : Pauli) : list nat :=
  match masked_arange (logical_or (pauli_z pauli) (pauli_x pauli)) with
  | [] => [0%nat]
  | sites => sites
  end.

(** The instructions that measure the sites [indices], site number [j] of
    the list into bit [j] of [creg]. *)
Definition measurement_program (creg : ClassicalRegister) (pauli : Pauli)
  (indices : list nat) : list Instruction :=
  flat_map (fun '(clbit, i) => basis_change pauli i ++ [Measure i (creg, clbit)])
    (combine (seq 0 (List.length indices)) indices).

(** The Pauli is the identity on each of its [n] sites. *)
Definition identity_on (n : nat) (p : Pauli) : Prop :=
  forall i, (i < n)%nat -> nonid_at p i = false.

(** The Pauli has [n] sites. *)
Definition on_sites (n : nat) (p : Pauli) : Prop :=
  List.length (pauli_z p) = n /\ List.length (pauli_x p) = n.

(** The sites among the first [n] where some Pauli of the group is not the
    identity, in increasing order. *)
Definition group_sites (n : nat) (obs : PauliList) : list nat :=
  filter (fun i => existsb (fun p => nonid_at p i) obs) (seq 0 n).

(** The groups of Paulis that get a measurement circuit each: the commuting
    groups, or every Pauli on its own. *)
Definition measured_groups (options : Options)
  (group_commuting : PauliList -> list PauliList) (observable : PauliList)
  : list PauliList :=
  if abelian_grouping options
  then group_commuting observable
  else map (fun p => [p]) observable.

(** A precision that the validation lets through: a number above zero,
    plus infinity, or NaN. *)
Definition accepted_precision (precision : float64) : Prop :=
  (0 <? precision)%float = true \/ is_nan precision = true.

(** The list is strictly increasing. *)
Definition increasing (l : list nat) : Prop := StronglySorted lt l.

(** The list that [pub_dict] keeps for some number of shots is a real batch
    of [pubs]: not empty, strictly increasing, made of indices of pubs whose
    precision asks for that number of shots. *)
Definition batch_of (pubs : list EstimatorPub) (entry : Z * list nat) : Prop :=
  snd entry <> [] /\
  increasing (snd entry) /\
  forall i, In i (snd entry) ->
    exists pub, nth_error pubs i = Some pub /\ shots_of pub = inr (fst entry).

(** The result [r] is the result of [pub]: it carries the precision of the
    pub, the metadata of its circuit, and the shots that its precision asks
    for. *)
Definition result_of (pub : EstimatorPub) (r : PubResult) : Prop :=
  target_precision r = pub_precision pub /\
  shots_of pub = inr (result_shots r) /\
  circuit_metadata r = metadata (pub_circuit pub).

(** [label] is a label of an operator sum at one of the indices [indices]
    whose binding index is [param_index]. *)
Definition labels_in (bc_param_ind : ndarray (list nat)) (bc_obs : ndarray OperatorSum)
  (indices : list (list nat)) (param_index : list nat) (label : string) : Prop :=
  exists index obs,
    In index indices /\
    array_get bc_param_ind index = inr param_index /\
    array_get bc_obs index = inr obs /\
    In label (map fst obs).

(** [param_obs_map] is the table of the labels to measure per binding
    index, for the broadcast indices [indices]: one row per binding index
    that occurs, holding once each label of its operator sums. *)
Definition table_of (bc_param_ind : ndarray (list nat)) (bc_obs : ndarray OperatorSum)
  (indices : list (list nat)) (param_obs_map : list (list nat * list string)) : Prop :=
  NoDup (map fst param_obs_map) /\
  (forall param_index labels,
     In (param_index, labels) param_obs_map ->
     NoDup labels /\
     forall label, In label labels <-> labels_in bc_param_ind bc_obs indices param_index label) /\
  (forall index param_index,
     In index indices -> array_get bc_param_ind index = inr param_index ->
     In param_index (map fst param_obs_map)).

(** The job result [res] reports the histograms [h] of its circuits:
    [get_counts()] gives the list, or the bare histogram when there is one
    circuit. *)
Definition reports (res : Result) (h : list Counts) : Prop :=
  get_counts res = inr (ListCounts h) \/
  exists c, h = [c] /\ get_counts res = inr (OneCounts c).

(** The numbers of a list in the order of their first occurrence. *)
Fixpoint first_occurrences (l : list Z) : list Z :=
  match l with
  | [] => []
  | x :: l' => x :: filter (fun y => negb (y =? x)) (first_occurrences l')
  end.

(** The outcome of a key that [int(., 2)] accepts (0 for the others). *)
Definition outcome_of (key : string) : Z :=
  match parse_outcome key with
  | inr b => b
  | inl _ => 0
  end.

(** The number of shots of a histogram. *)
Definition shot_total (c : Counts) : Z :=
  fold_right (fun item acc => snd item + acc) 0 c.

(** The batches that [_run_circuits] cuts the circuits into: at most
    [max_circuits] circuits each, or one batch of all of them when there is
    no limit ([None] or 0). *)
Definition batches_of (max_circuits : option nat) (circuits : list QuantumCircuit)
  : list (list QuantumCircuit) :=
  match max_circuits with
  | Some (S n) => chunks (S n) (map cleared circuits)
  | _ => [map cleared circuits]
  end.

(** * Properties *)

(** ** Conversion of integers to binary64 *)

Lemma digits2_pos_bound (p : positive) (k : Z) :
  0 <= k -> Zpos p < 2 ^ k -> Zpos (digits2_pos p) <= k.
Proof.
  revert k. induction p as [p IH | p IH | ]; intros k Hk Hp; cbn [digits2_pos].
  - assert (0 < k) by (destruct (Z.eq_dec k 0) as [-> | ]; [simpl in Hp; lia | lia]).
    replace k with (Z.succ (k - 1)) in Hp by lia. rewrite Z.pow_succ_r in Hp by lia.
    specialize (IH (k - 1) ltac:(lia) ltac:(lia)). lia.
  - assert (0 < k) by (destruct (Z.eq_dec k 0) as [-> | ]; [simpl in Hp; lia | lia]).
    replace k with (Z.succ (k - 1)) in Hp by lia. rewrite Z.pow_succ_r in Hp by lia.
    specialize (IH (k - 1) ltac:(lia) ltac:(lia)). lia.
  - assert (0 < k) by (destruct (Z.eq_dec k 0) as [-> | ]; [simpl in Hp; lia | lia]).
    lia.
Qed.

Lemma Zdigits2_nonneg (m : Z) : 0 <= Zdigits2 m.
Proof. destruct m; simpl; lia. Qed.

(** One shift takes one bit off the mantissa. *)
Lemma shr_1_digits (mrs : shr_record) :
  Zdigits2 (shr_m (shr_1 mrs)) = Z.max 0 (Zdigits2 (shr_m mrs) - 1).
Proof.
  destruct mrs as [m r s]. destruct m as [ | [p | p | ] | [p | p | ]];
    cbn [shr_1 shr_m Zdigits2 digits2_pos]; lia.
Qed.

Lemma iter_shr_1_digits (p : positive) (mrs : shr_record) :
  Zdigits2 (shr_m (iter_pos shr_1 p mrs)) = Z.max 0 (Zdigits2 (shr_m mrs) - Zpos p).
Proof.
  revert mrs. induction p as [p IH | p IH | ]; intro mrs; cbn [iter_pos].
  - rewrite !IH, shr_1_digits. lia.
  - rewrite !IH. lia.
  - rewrite shr_1_digits. lia.
Qed.

Lemma shr_record_of_loc_m (m : Z) (l : location) : shr_m (shr_record_of_loc m l) = m.
Proof. destruct l as [ | [ | | ]]; reflexivity. Qed.

(** After [shr_fexp] the exponent is the larger of the old one and the
    canonical one, and the mantissa has lost the bits shifted out. *)
Lemma shr_fexp_bounds (m e : Z) (l : location) :
  let '(mrs, e') := shr_fexp prec emax m e l in
  e' = Z.max e (fexp prec emax (Zdigits2 m + e)) /\
  Zdigits2 (shr_m mrs) = Z.max 0 (Zdigits2 m - (e' - e)).
Proof.
  pose proof (Zdigits2_nonneg m) as Hd.
  unfold shr_fexp, shr.
  destruct (fexp prec emax (Zdigits2 m + e) - e) as [ | p | p] eqn:E.
  - rewrite shr_record_of_loc_m. split; lia.
  - split; [lia | ]. rewrite iter_shr_1_digits, shr_record_of_loc_m. lia.
  - rewrite shr_record_of_loc_m. split; lia.
Qed.

Lemma Zdigits2_succ (m : Z) : 0 <= m -> Zdigits2 (m + 1) <= Zdigits2 m + 1.
Proof.
  intro Hm. destruct m as [ | p | p]; try lia; [simpl; lia | ].
  change (Z.pos p + 1) with (Z.pos (p + 1)). cbn [Zdigits2].
  rewrite Pos.add_1_r.
  induction p as [p IH | p IH | ]; cbn [Pos.succ digits2_pos]; lia.
Qed.

Lemma round_nearest_even_digits (m : Z) (l : location) :
  0 <= m -> Zdigits2 (round_nearest_even m l) <= Zdigits2 m + 1.
Proof.
  intro Hm. pose proof (Zdigits2_succ m Hm).
  destruct l as [ | [ | | ]]; cbn [round_nearest_even]; try lia.
  destruct (Z.even m); lia.
Qed.

Lemma shr_1_nonneg (mrs : shr_record) : 0 <= shr_m mrs -> 0 <= shr_m (shr_1 mrs).
Proof.
  destruct mrs as [m r s]. destruct m as [ | [p | p | ] | [p | p | ]];
    cbn [shr_1 shr_m]; lia.
Qed.

Lemma iter_shr_1_nonneg (p : positive) (mrs : shr_record) :
  0 <= shr_m mrs -> 0 <= shr_m (iter_pos shr_1 p mrs).
Proof.
  revert mrs. induction p as [p IH | p IH | ]; intros mrs H; cbn [iter_pos];
    auto using shr_1_nonneg.
Qed.

Lemma shr_fexp_nonneg (m e : Z) (l : location) :
  0 <= m -> 0 <= shr_m (fst (shr_fexp prec emax m e l)).
Proof.
  intro Hm. unfold shr_fexp, shr.
  destruct (fexp prec emax (Zdigits2 m + e) - e) as [ | p | p]; cbn [fst];
    try (rewrite shr_record_of_loc_m; exact Hm).
  apply iter_shr_1_nonneg. rewrite shr_record_of_loc_m. exact Hm.
Qed.

(** Rounding a mantissa of at most 1000 bits at exponent 0 or below gives no
    infinity. *)
Lemma binary_round_aux_finite (sx : bool) (m e : Z) :
  0 <= m -> Zdigits2 m + e <= 1000 -> e <= 0 ->
  match binary_round_aux prec emax sx m e loc_Exact with
  | S754_infinity _ => False
  | _ => True
  end.
Proof.
  intros Hm Hd He. unfold binary_round_aux.
  pose proof (shr_fexp_bounds m e loc_Exact) as B1.
  pose proof (shr_fexp_nonneg m e loc_Exact Hm) as N1.
  destruct (shr_fexp prec emax m e loc_Exact) as [mrs' e'] eqn:E1.
  cbn [fst] in N1. destruct B1 as [Be1 Bd1].
  set (m1 := round_nearest_even (shr_m mrs') (loc_of_shr_record mrs')).
  pose proof (round_nearest_even_digits (shr_m mrs') (loc_of_shr_record mrs') N1) as R.
  fold m1 in R.
  pose proof (shr_fexp_bounds m1 e' loc_Exact) as B2.
  destruct (shr_fexp prec emax m1 e' loc_Exact) as [mrs'' e''] eqn:E2.
  destruct B2 as [Be2 Bd2].
  destruct (shr_m mrs'') as [ | p | p]; trivial.
  assert (Hle : e'' <= emax - prec).
  { pose proof (Zdigits2_nonneg m). pose proof (Zdigits2_nonneg m1).
    unfold fexp, emin in *. change prec with 53 in *. change emax with 1024 in *. lia. }
  apply Z.leb_le in Hle. rewrite Hle. trivial.
Qed.

Lemma digits2_pos_shift (m d : positive) :
  Zpos (digits2_pos (Pos.iter xO m d)) = Zpos (digits2_pos m) + Zpos d.
Proof.
  induction d as [ | d IH] using Pos.peano_ind.
  - cbn [Pos.iter digits2_pos]. lia.
  - rewrite Pos.iter_succ. cbn [digits2_pos]. lia.
Qed.

Lemma binary_round_finite (sx : bool) (m : positive) :
  Zpos m < 2 ^ 64 ->
  match binary_round prec emax sx m 0 with
  | S754_infinity _ => False
  | _ => True
  end.
Proof.
  intro Hm. pose proof (digits2_pos_bound m 64 ltac:(lia) Hm) as Hd.
  unfold binary_round, shl_align.
  destruct (fexp prec emax (Z.pos (digits2_pos m) + 0) - 0) as [ | p | p] eqn:E.
  - apply binary_round_aux_finite; cbn [Zdigits2]; lia.
  - apply binary_round_aux_finite; cbn [Zdigits2]; lia.
  - apply binary_round_aux_finite; cbn [Zdigits2]; try lia.
    rewrite digits2_pos_shift. lia.
Qed.

(** An int of less than 65 bits converts to a float64. *)
Lemma of_int_returns (n : Z) : - 2 ^ 64 < n < 2 ^ 64 -> of_int n = inr (round_int n).
Proof.
  intro Hn. unfold of_int.
  destruct n as [ | p | p]; cbn [binary_normalize].
  - reflexivity.
  - pose proof (binary_round_finite false p ltac:(lia)) as H.
    destruct (binary_round prec emax false p 0); tauto.
  - pose proof (binary_round_finite true p ltac:(lia)) as H.
    destruct (binary_round prec emax true p 0); tauto.
Qed.

(** ** The definitions on small inputs *)

Example int2_bits : py.int2 "0101" = Some 5.
Proof. reflexivity. Qed.

Example int2_lenient : py.int2 " 0b1_1 " = Some 3 /\ py.int2 "-11" = Some (-3).
Proof. split; reflexivity. Qed.

Example int2_rejects :
  py.int2 "" = None /\ py.int2 "12" = None /\ py.int2 "0b" = None /\
  py.int2 "1__0" = None /\ py.int2 "_1" = None /\ py.int2 "1 1" = None.
Proof. repeat split; reflexivity. Qed.

Example bin_of_six : py.bin 6 = "0b110"%string /\ py.bin (-6) = "-0b110"%string.
Proof. split; reflexivity. Qed.

Example parity_of_seven : _parity 7 = 1 /\ _parity 5 = 0 /\ _parity 0 = 0.
Proof. repeat split; reflexivity. Qed.

Example outcome_of_two_registers : parse_outcome "01 11" = inr 1.
Proof. reflexivity. Qed.

Example outcome_after_leading_space : parse_outcome " 01" = inl ValueError.
Proof. reflexivity. Qed.

(** Nine sites make two bytes: [Z] on site 0 and 8, [X] on site 1. *)
Example inds_of_nine_sites :
  _paulis2inds
    [mkPauli [true; false; false; false; false; false; false; false; true]
             [false; true; false; false; false; false; false; false; false] 0]
  = [259].
Proof. reflexivity. Qed.

Example ndindex_2_3 :
  ndindex [2; 3]%nat = [[0; 0]; [0; 1]; [0; 2]; [1; 0]; [1; 1]; [1; 2]]%nat.
Proof. reflexivity. Qed.

Example ndindex_scalar : ndindex [] = [[]].
Proof. reflexivity. Qed.

Example broadcast_examples :
  broadcast_shapes [3]%nat [1]%nat = Some [3]%nat /\
  broadcast_shapes [2; 1]%nat [3]%nat = Some [2; 3]%nat /\
  broadcast_shapes [] [3]%nat = Some [3]%nat /\
  broadcast_shapes [2]%nat [3]%nat = None.
Proof. repeat split; reflexivity. Qed.

Example broadcast_arrays_2_3 :
  broadcast_arrays (mkArray [3]%nat [10; 20; 30]) (mkArray [2; 1]%nat [true; false])
  = inr (mkArray [2; 3]%nat [10; 20; 30; 10; 20; 30],
         mkArray [2; 3]%nat [true; true; true; false; false; false]).
Proof. reflexivity. Qed.

Example chunks_of_two : chunks 2 [1; 2; 3; 4; 5] = [[1; 2]; [3; 4]; [5]].
Proof. reflexivity. Qed.

Example sorted_labels : sorted ["ZI"; "XX"; "IZ"]%string = ["IZ"; "XX"; "ZI"]%string.
Proof. reflexivity. Qed.

(** [Y] on site 1 of two: the basis change is [sdg] then [h]. *)
Example measurement_circuit_of_y :
  _measurement_circuit (fun _ => "YI"%string) 2 (mkPauli [false; true] [false; true] 0)
  = inr (mkCircuit 2 [mkCreg "__c_YI" 1]
           [SdgGate 1; HGate 1; Measure 1 (mkCreg "__c_YI" 1, 0%nat)] (UserMetadata []),
         [1%nat]).
Proof. reflexivity. Qed.

(** ** The estimator *)



Lemma bind_ret {A B : Type} (a : A) (k : A -> result B) : bind (ret a) k = k a.
Proof. reflexivity. Qed.

Lemma count_cons (c x : ascii) (s : string) :
  py.count (String c s) x = (if Ascii.eqb c x then 1 else 0) + py.count s x.
Proof. reflexivity. Qed.

Lemma count_bin_pos (p : positive) (acc : string) :
  py.count (py.bin_pos p acc) "1" = popcount_pos p + py.count acc "1".
Proof.
  revert acc; induction p as [p IH | p IH | ]; intro acc;
    cbn [py.bin_pos popcount_pos]; try rewrite IH; rewrite count_cons;
    match goal with |- context [Ascii.eqb ?a ?b] =>
      let v := eval vm_compute in (Ascii.eqb a b) in change (Ascii.eqb a b) with v end; cbv beta iota;
    lia.
Qed.

Lemma popcount_pos_nonneg (p : positive) : 0 <= popcount_pos p.
Proof. induction p; cbn [popcount_pos]; lia. Qed.

Lemma popcount_nonneg (n : Z) : 0 <= popcount n.
Proof. destruct n; simpl; try lia. apply popcount_pos_nonneg. Qed.

Lemma parity_popcount (n : Z) : 0 <= n -> _parity n = popcount n mod 2.
Proof.
  intro Hn. unfold _parity. destruct n as [ | p | p]; try lia.
  - reflexivity.
  - unfold py.bin, popcount.
    change ("0b" ++ py.bin_pos p "")%string with (String "0" (String "b" (py.bin_pos p ""))).
    rewrite !count_cons, count_bin_pos.
    change (py.count "" "1") with 0.
    change (Ascii.eqb "0" "1") with false. change (Ascii.eqb "b" "1") with false. cbv beta iota.
    f_equal. lia.
Qed.

Lemma pow_m1_mod2 (n : Z) : 0 <= n -> (-1) ^ (n mod 2) = (-1) ^ n.
Proof.
  intro Hn.
  assert (Hq : 0 <= n / 2) by (apply Z.div_pos; lia).
  assert (Hr : 0 <= n mod 2 < 2) by (apply Z.mod_pos_bound; lia).
  rewrite (Z.div_mod n 2) at 2 by lia.
  rewrite Z.pow_add_r, Z.pow_mul_r by lia.
  change ((-1) ^ 2) with 1. rewrite Z.pow_1_l by lia. lia.
Qed.

Lemma coeff_sign (m b : Z) : 0 <= m -> (-1) ^ _parity (Z.land m b) = sign m b.
Proof.
  intro Hm. unfold sign.
  assert (0 <= Z.land m b) by (apply Z.land_nonneg; left; exact Hm).
  rewrite parity_popcount by assumption.
  apply pow_m1_mod2, popcount_nonneg.
Qed.


(** *** Packed masks *)

Lemma mask_of_bits_nonneg (bits : list bool) : 0 <= mask_of_bits bits.
Proof. induction bits as [ | [ | ] t IH]; cbn [mask_of_bits]; lia. Qed.

Lemma fold_left_add_acc (l : list Z) (a : Z) :
  fold_left Z.add l a = a + fold_left Z.add l 0.
Proof.
  revert a; induction l as [ | x l IH]; intro a; cbn [fold_left].
  - lia.
  - rewrite IH, (IH (0 + x)). lia.
Qed.

Lemma dot_cons (x p : Z) (xs ps : list Z) : dot (x :: xs) (p :: ps) = x * p + dot xs ps.
Proof.
  unfold dot. cbn [combine map fold_left fst snd].
  rewrite fold_left_add_acc. lia.
Qed.

Lemma dot_scale (c : Z) (xs ps : list Z) : dot xs (map (Z.mul c) ps) = c * dot xs ps.
Proof.
  revert ps; induction xs as [ | x xs IH]; intros [ | p ps]; cbn [map];
    try (unfold dot; cbn [combine map fold_left]; lia).
  rewrite !dot_cons, IH. lia.
Qed.


Lemma le_value_cons (x : Z) (xs : list Z) : le_value (x :: xs) = x + 256 * le_value xs.
Proof.
  unfold le_value. cbn [List.length seq map]. rewrite dot_cons.
  rewrite <- seq_shift, map_map.
  rewrite <- (dot_scale 256), map_map.
  change (Z.shiftl 1 (8 * Z.of_nat 0)) with 1. rewrite Z.mul_1_r.
  f_equal. f_equal. apply map_ext. intro j.
  rewrite !Z.shiftl_1_l, Nat2Z.inj_succ.
  replace (8 * Z.succ (Z.of_nat j)) with (8 + 8 * Z.of_nat j) by lia.
  rewrite Z.pow_add_r by lia. reflexivity.
Qed.

Lemma packbits_value (bits : list bool) (pos : nat) (cur : Z) :
  (pos <= 7)%nat -> (pos = 0%nat -> cur = 0) ->
  le_value (packbits_little bits pos cur) = cur + 2 ^ Z.of_nat pos * mask_of_bits bits.
Proof.
  revert pos cur; induction bits as [ | b t IH]; intros pos cur Hpos Hcur;
    cbn [packbits_little mask_of_bits].
  - destruct (Nat.eqb_spec pos 0) as [E | E].
    + rewrite (Hcur E). change (le_value []) with 0. lia.
    + rewrite le_value_cons. change (le_value []) with 0. lia.
  - rewrite Z.shiftl_1_l.
    destruct (Nat.eqb_spec pos 7) as [E | E].
    + rewrite le_value_cons, IH by (try lia; reflexivity).
      subst pos. change (Z.of_nat 7) with 7. change (Z.of_nat 0) with 0.
      destruct b; lia.
    + rewrite IH by (try lia; intro; discriminate).
      rewrite Nat2Z.inj_succ, Z.pow_succ_r by lia.
      destruct b; lia.
Qed.

Lemma paulis2inds_mask (paulis : PauliList) : _paulis2inds paulis = map nonid_mask paulis.
Proof.
  unfold _paulis2inds. apply map_ext. intro p.
  fold (le_value (packbits_little (logical_or (pauli_z p) (pauli_x p)) 0 0)).
  rewrite packbits_value by (try lia; reflexivity).
  unfold nonid_mask. change (2 ^ Z.of_nat 0) with 1. lia.
Qed.

(** *** The loops of the estimator *)

Lemma update_app {A : Type} (pre post : list A) (e v : A) :
  py.update (pre ++ e :: post) (List.length pre) v = pre ++ v :: post.
Proof. induction pre as [ | a pre IH]; cbn [py.update app List.length]; congruence. Qed.

Lemma nth_error_middle {A : Type} (pre post : list A) (e : A) :
  nth_error (pre ++ e :: post) (List.length pre) = Some e.
Proof. induction pre as [ | a pre IH]; cbn [nth_error app List.length]; auto. Qed.

Lemma getitem_middle {A : Type} (pre post : list A) (e : A) :
  py.getitem (pre ++ e :: post) (List.length pre) = ret e.
Proof. unfold py.getitem. rewrite nth_error_middle. reflexivity. Qed.

Lemma setitem_middle {A : Type} (pre post : list A) (e v : A) :
  py.setitem (pre ++ e :: post) (List.length pre) v = ret (pre ++ v :: post).
Proof. unfold py.setitem. rewrite nth_error_middle, update_app. reflexivity. Qed.


Lemma parity_bit (n : Z) : _parity n = 0 \/ _parity n = 1.
Proof.
  unfold _parity. pose proof (Z.mod_pos_bound (py.count (py.bin n) "1") 2 ltac:(lia)). lia.
Qed.

Lemma coeff_cases (n : Z) : (-1) ^ _parity n = 1 \/ (-1) ^ _parity n = -1.
Proof. destruct (parity_bit n) as [-> | ->]; [left | right]; reflexivity. Qed.

Lemma iadd_at_middle (pre post : list float64) (e : float64) (n : Z) :
  - 2 ^ 64 < n < 2 ^ 64 ->
  iadd_at (pre ++ e :: post) (List.length pre) n
  = ret (pre ++ np.add e (round_int n) :: post).
Proof.
  intro Hn. unfold iadd_at. rewrite getitem_middle. cbn [bind ret].
  rewrite (of_int_returns n Hn). cbn [bind].
  apply setitem_middle.
Qed.

(** One pass of the inner loop [for k in range(size)] adds the signed
    frequency to every accumulator. *)
Lemma inner_loop (freq outcome : Z) (post : list float64) :
  - 2 ^ 64 < freq < 2 ^ 64 ->
  forall (pre : list float64) (dpre dpost : list Z),
    List.length pre = List.length dpre ->
    List.length post = List.length dpost ->
    py.for_each (seq (List.length pre) (List.length post))
      (fun k expvals =>
         d <- py.getitem (dpre ++ dpost) k ;;
         let coeff := (-1) ^ _parity (Z.land d outcome) in
         iadd_at expvals k (freq * coeff))
      (pre ++ post)
    = ret (pre ++ map (fun p => np.add (fst p)
                                  (round_int (freq * (-1) ^ _parity (Z.land (snd p) outcome))))
                    (combine post dpost)).
Proof.
  intro Hfreq.
  induction post as [ | e post IH]; intros pre dpre dpost Hpre Hpost.
  - reflexivity.
  - destruct dpost as [ | d dpost]; [discriminate | ].
    cbn [List.length seq py.for_each combine map fst snd].
    rewrite Hpre at 1. rewrite getitem_middle. cbn [bind ret].
    rewrite iadd_at_middle
      by (destruct (coeff_cases (Z.land d outcome)) as [-> | ->]; lia).
    cbn [bind ret].
    specialize (IH (pre ++ [np.add e (round_int (freq * (-1) ^ _parity (Z.land d outcome)))])
                  (dpre ++ [d]) dpost).
    rewrite !length_app in IH. cbn [List.length] in IH.
    rewrite !Nat.add_1_r, <- !app_assoc in IH. cbn [app] in IH.
    rewrite IH by (cbn [List.length] in Hpost; lia).
    reflexivity.
Qed.

Lemma count_step_ok (size : nat) (diag_inds : list Z) (key : string) (freq outcome : Z)
  (expvals : list float64) (denom : Z) :
  parse_outcome key = inr outcome ->
  - 2 ^ 64 < freq < 2 ^ 64 ->
  List.length expvals = size ->
  List.length diag_inds = size ->
  count_step size diag_inds (key, freq) (expvals, denom)
  = ret (map (fun p => np.add (fst p)
                         (round_int (freq * (-1) ^ _parity (Z.land (snd p) outcome))))
           (combine expvals diag_inds),
         denom + freq).
Proof.
  intros Hkey Hfreq He Hd. unfold count_step. rewrite Hkey. cbn [bind].
  pose proof (inner_loop freq outcome expvals Hfreq [] [] diag_inds eq_refl) as L.
  cbn [app List.length] in L. rewrite He in L.
  rewrite L by congruence. reflexivity.
Qed.

Lemma combine_map_self {A B : Type} (g : A -> B) (l : list A) :
  combine (map g l) l = map (fun a => (g a, a)) l.
Proof. induction l as [ | a l IH]; cbn [map combine]; congruence. Qed.

(** The loop over the items: every accumulator gains, item after item, the
    signed frequencies of the histogram, and the denominator its total. *)
Lemma counts_loop (diag_inds : list Z) :
  Forall (fun d => 0 <= d) diag_inds ->
  forall (counts : Counts) (hist : Histogram) (acc : Z -> float64) (denom : Z),
    parse_histogram counts = inr hist ->
    Forall (fun bf => - 2 ^ 64 < snd bf < 2 ^ 64) hist ->
    py.for_each counts (count_step (List.length diag_inds) diag_inds)
      (map acc diag_inds, denom)
    = ret (map (fun d => float_total_from d hist (acc d)) diag_inds,
           denom + total hist).
Proof.
  intro Hdiag. induction counts as [ | [key freq] counts IH];
    intros hist acc denom Hparse Hrange.
  - injection Hparse as <-. cbn [py.for_each total fold_right]. unfold ret.
    f_equal. f_equal. lia.
  - cbn [parse_histogram map_result] in Hparse.
    destruct (parse_outcome key) as [e | outcome] eqn:Hkey; [discriminate | ].
    cbn [bind ret] in Hparse. fold (parse_histogram counts) in Hparse.
    destruct (parse_histogram counts) as [e | hist'] eqn:Hrest; [discriminate | ].
    cbn [bind ret] in Hparse. injection Hparse as <-.
    apply Forall_cons_iff in Hrange as [Hfreq Hrange]. cbn [snd] in Hfreq.
    cbn [py.for_each].
    rewrite (count_step_ok _ _ _ _ outcome) by (rewrite ?length_map; auto).
    cbn [bind ret]. rewrite combine_map_self, map_map. cbn [fst snd].
    rewrite (map_ext_in _ (fun d => np.add (acc d) (round_int (freq * sign d outcome)))).
    + rewrite (IH hist' (fun d => np.add (acc d) (round_int (freq * sign d outcome)))
                 (denom + freq) eq_refl Hrange).
      unfold ret. f_equal. f_equal.
      cbn [total fold_right snd]. fold (total hist'). lia.
    + intros d Hd.
      rewrite coeff_sign by (rewrite Forall_forall in Hdiag; auto).
      reflexivity.
Qed.

Lemma mask_nonneg_all (paulis : PauliList) :
  Forall (fun d => 0 <= d) (map nonid_mask paulis).
Proof.
  apply Forall_forall. intros d Hd. apply in_map_iff in Hd as [p [<- _]].
  apply mask_of_bits_nonneg.
Qed.

Lemma repeat_map_const {A B : Type} (b : B) (l : list A) :
  repeat b (List.length l) = map (fun _ => b) l.
Proof. induction l as [ | a l IH]; cbn [map repeat List.length]; congruence. Qed.

(** What the estimator returns as soon as every key is a binary outcome and
    the frequencies and their total convert to floats. *)
Lemma estimator_returns (counts : Counts) (paulis : PauliList) (hist : Histogram) :
  parse_histogram counts = inr hist ->
  Forall (fun bf => - 2 ^ 64 < snd bf < 2 ^ 64) hist ->
  - 2 ^ 64 < total hist < 2 ^ 64 ->
  _pauli_expval_with_variance counts paulis
  = ret (map (fun p => expval_of (nonid_mask p) hist) paulis,
         map (fun p => variance_of (nonid_mask p) hist) paulis).
Proof.
  intros Hparse Hrange Htotal. unfold _pauli_expval_with_variance.
  rewrite paulis2inds_mask.
  rewrite repeat_map_const.
  replace (map (fun _ : Pauli => 0%float) paulis)
    with (map (fun _ : Z => 0%float) (map nonid_mask paulis)) by (rewrite map_map; reflexivity).
  replace (List.length paulis) with (List.length (map nonid_mask paulis))
    by apply length_map.
  rewrite (counts_loop _ (mask_nonneg_all paulis) counts hist _ 0 Hparse Hrange).
  cbn [bind ret Z.add]. rewrite (of_int_returns _ Htotal). cbn [bind].
  rewrite !map_map. reflexivity.
Qed.


Lemma total_nonneg (hist : Histogram) :
  Forall (fun bf => 0 <= snd bf) hist -> 0 <= total hist.
Proof.
  induction 1 as [ | [b f] hist Hf _ IH]; cbn [total fold_right snd] in *; [lia | ].
  fold (total hist). lia.
Qed.

(** In a histogram that counts shots every frequency is below [2^63]. *)
Lemma counts_shots_range (hist : Histogram) :
  counts_shots hist ->
  Forall (fun bf => - 2 ^ 64 < snd bf < 2 ^ 64) hist /\ - 2 ^ 64 < total hist < 2 ^ 64.
Proof.
  intros [Hfreq Htotal]. pose proof (total_nonneg hist Hfreq) as H0. split; [ | lia].
  revert Htotal H0. induction Hfreq as [ | [b f] hist Hf Hrest IH];
    cbn [total fold_right snd] in *; intros Htotal H0; [constructor | ].
  fold (total hist) in *. pose proof (total_nonneg hist Hrest).
  constructor; [cbn [snd]; lia | apply IH; lia].
Qed.

(** *** What the estimator returns *)




(** The aggregation example of the specification: [{"0": 700, "1": 300}]
    measured for [Z] gives the floats nearest to 0.4 and, within an ulp, to
    0.84. *)
Example estimator_700_300 :
  _pauli_expval_with_variance [("0"%string, 700); ("1"%string, 300)]
    [mkPauli [true] [false] 0]
  = inr ([0x1.999999999999ap-2%float], [0x1.ae147ae147ae1p-1%float]).
Proof. vm_compute. reflexivity. Qed.


(** *** A histogram without shots *)

Lemma zero_frequencies (hist : Histogram) :
  Forall (fun bf => 0 <= snd bf) hist -> total hist = 0 ->
  Forall (fun bf => snd bf = 0) hist.
Proof.
  induction 1 as [ | [b f] hist Hf Hrest IH]; cbn [total fold_right snd] in *; intro Ht.
  - constructor.
  - fold (total hist) in Ht. pose proof (total_nonneg hist Hrest).
    constructor; [cbn [snd]; lia | apply IH; lia].
Qed.

Lemma float_total_of_zeros (m : Z) (hist : Histogram) :
  Forall (fun bf => snd bf = 0) hist -> float_total m hist = 0%float.
Proof.
  unfold float_total.
  induction 1 as [ | [b f] hist Hf _ IH]; cbn [float_total_from fold_left fst snd] in *.
  - reflexivity.
  - rewrite Hf. cbn [Z.mul]. exact IH.
Qed.

Lemma map_const_repeat {A B : Type} (b : B) (l : list A) :
  map (fun _ => b) l = repeat b (List.length l).
Proof. induction l as [ | a l IH]; cbn [map repeat List.length]; congruence. Qed.

(** C1, as the code has it: a histogram of well-formed keys and non-negative
    frequencies whose total is zero raises nothing; the division by the
    total gives NaN as the expectation and as the variance of every
    operator. *)
Theorem zero_total_returns_nan (counts : Counts) (paulis : PauliList) (hist : Histogram) :
  parse_histogram counts = inr hist ->
  Forall (fun bf => 0 <= snd bf) hist ->
  total hist = 0 ->
  _pauli_expval_with_variance counts paulis
  = inr (repeat nan (List.length paulis), repeat nan (List.length paulis)).
Proof.
  intros Hparse Hfreq Htotal.
  assert (Hshots : counts_shots hist) by (split; [exact Hfreq | rewrite Htotal; reflexivity]).
  destruct (counts_shots_range hist Hshots) as [Hrange Ht].
  rewrite (estimator_returns _ _ _ Hparse Hrange Ht). unfold ret.
  assert (He : forall p, expval_of (nonid_mask p) hist = nan).
  { intro p. unfold expval_of.
    rewrite float_total_of_zeros by (apply zero_frequencies; assumption).
    rewrite Htotal. reflexivity. }
  assert (Hv : forall p, variance_of (nonid_mask p) hist = nan).
  { intro p. unfold variance_of. rewrite He. reflexivity. }
  rewrite (map_ext _ (fun _ => nan) He), (map_ext _ (fun _ => nan) Hv), !map_const_repeat.
  reflexivity.
Qed.

Lemma zero_total_returns_nan_witness :
  _pauli_expval_with_variance [("0"%string, 0); ("1"%string, 0)] [mkPauli [true] [false] 0]
  = inr ([nan], [nan]).
Proof.
  apply (zero_total_returns_nan [("0"%string, 0); ("1"%string, 0)]
           [mkPauli [true] [false] 0] [(0, 0); (1, 0)]).
  - reflexivity.
  - repeat constructor; simpl; lia.
  - reflexivity.
Defined.

(** C1, as stated, fails: the empty histogram has total frequency zero, and
    the estimator returns NaN for the operator [Z] instead of raising. *)
Lemma zero_total_does_not_raise :
  parse_histogram [] = inr [] /\
  total [] = 0 /\
  _pauli_expval_with_variance [] [mkPauli [true] [false] 0] = inr ([nan], [nan]) /\
  ~ raises (_pauli_expval_with_variance [] [mkPauli [true] [false] 0]).
Proof.
  assert (E : _pauli_expval_with_variance [] [mkPauli [true] [false] 0] = inr ([nan], [nan]))
    by reflexivity.
  repeat split; try reflexivity.
  intros [e He]. rewrite E in He. discriminate.
Qed.

(** *** Keys with a space *)

Lemma contains_space_app (prefix rest : string) :
  py.contains_space (prefix ++ " " ++ rest) = true.
Proof.
  change (" " ++ rest)%string with (String " " rest).
  induction prefix as [ | c prefix IH]; cbn [append py.contains_space].
  - reflexivity.
  - rewrite IH. apply orb_true_r.
Qed.

Lemma split_space_1_app (prefix rest : string) :
  py.contains_space prefix = false ->
  py.split_space_1 (prefix ++ " " ++ rest) = (prefix, Some rest).
Proof.
  change (" " ++ rest)%string with (String " " rest).
  induction prefix as [ | c prefix IH]; cbn [append py.contains_space py.split_space_1]; intro H.
  - reflexivity.
  - apply orb_false_elim in H as [Hc Hp]. rewrite Hc, (IH Hp). reflexivity.
Qed.

(** A key with a space is a space-free prefix, the space, and a rest. *)
Lemma key_with_space (key : string) :
  py.contains_space key = true ->
  exists prefix rest,
    key = key_of (prefix, Some rest) /\ py.contains_space prefix = false.
Proof.
  induction key as [ | c key IH]; cbn [py.contains_space]; [discriminate | ].
  destruct (Ascii.eqb_spec c " ") as [-> | N]; cbn [orb].
  - intros _. exists EmptyString, key. split; reflexivity.
  - intro H. destruct (IH H) as [prefix [rest [-> Hp]]].
    exists (String c prefix), rest. split; [reflexivity | ].
    cbn [py.contains_space]. rewrite Hp.
    destruct (Ascii.eqb_spec c " ") as [E | _]; [contradiction | reflexivity].
Qed.

Lemma parse_outcome_no_space (key : string) :
  py.contains_space key = false ->
  parse_outcome key = match py.int2 key with Some b => ret b | None => raise ValueError end.
Proof. intro H. unfold parse_outcome. rewrite H. reflexivity. Qed.

Lemma parse_outcome_key_of (parts : string * option string) :
  py.contains_space (fst parts) = false ->
  parse_outcome (key_of parts)
  = match py.int2 (fst parts) with Some b => ret b | None => raise ValueError end.
Proof.
  destruct parts as [prefix [rest | ]]; cbn [fst key_of]; intro H.
  - unfold parse_outcome. rewrite contains_space_app, (split_space_1_app _ _ H). reflexivity.
  - apply parse_outcome_no_space, H.
Qed.

Lemma count_step_key (size : nat) (diag_inds : list Z) (key key' : string) (freq : Z)
  (st : list float64 * Z) :
  parse_outcome key = parse_outcome key' ->
  count_step size diag_inds (key, freq) st = count_step size diag_inds (key', freq) st.
Proof. intro H. destruct st as [expvals denom]. unfold count_step. rewrite H. reflexivity. Qed.

Lemma estimator_keys (paulis : PauliList) (f g : string * option string -> string)
  (items : list ((string * option string) * Z)) :
  (forall it, In it items -> parse_outcome (f (fst it)) = parse_outcome (g (fst it))) ->
  _pauli_expval_with_variance (map (fun it => (f (fst it), snd it)) items) paulis
  = _pauli_expval_with_variance (map (fun it => (g (fst it), snd it)) items) paulis.
Proof.
  intro H. unfold _pauli_expval_with_variance.
  generalize (repeat 0%float (List.length paulis), 0).
  induction items as [ | it items IH]; intro st; cbn [map py.for_each].
  - reflexivity.
  - rewrite (count_step_key _ _ _ (g (fst it))) by (apply H; left; reflexivity).
    destruct (count_step _ _ _ st) as [e | st']; cbn [bind]; [reflexivity | ].
    apply IH. intros it' Hin. apply H. right. exact Hin.
Qed.


Lemma prefix_histogram_parses (items : list ((string * option string) * Z)) :
  Forall (fun it => py.contains_space (fst (fst it)) = false) items ->
  parse_histogram (map (fun it => (key_of (fst it), snd it)) items) = prefix_histogram items.
Proof.
  unfold parse_histogram, prefix_histogram.
  induction 1 as [ | it items Hit _ IH]; cbn [map map_result].
  - reflexivity.
  - rewrite IH, (parse_outcome_key_of _ Hit).
    destruct (py.int2 (fst (fst it))); reflexivity.
Qed.

(** C10: when the key of a histogram entry contains a space, the outcome is
    the binary number written before the first space, and whatever follows
    that space has no effect on what the estimator returns: it returns what
    it returns for the keys cut at the space, and when the frequencies count
    shots that is, for every operator, the signed sum whose signs
    [(-1)^popcount(m & b)] are taken with the numbers [b] written before the
    spaces. *)
Theorem outcome_is_read_before_first_space (paulis : PauliList)
  (items : list ((string * option string) * Z)) :
  Forall (fun it => py.contains_space (fst (fst it)) = false) items ->
  (forall key, py.contains_space key = true ->
     exists prefix rest,
       key = key_of (prefix, Some rest) /\ py.contains_space prefix = false) /\
  (forall it, In it items ->
     parse_outcome (key_of (fst it))
     = match py.int2 (fst (fst it)) with Some b => ret b | None => raise ValueError end) /\
  _pauli_expval_with_variance (map (fun it => (key_of (fst it), snd it)) items) paulis
  = _pauli_expval_with_variance (map (fun it => (fst (fst it), snd it)) items) paulis /\
  (forall hist, prefix_histogram items = inr hist -> counts_shots hist ->
     _pauli_expval_with_variance (map (fun it => (key_of (fst it), snd it)) items) paulis
     = inr (map (fun p => np.divide (float_total (nonid_mask p) hist)
                            (round_int (total hist))) paulis,
            map (fun p =>
                   let e := np.divide (float_total (nonid_mask p) hist)
                              (round_int (total hist)) in
                   np.subtract 1%float (np.multiply e e)) paulis)).
Proof.
  intro Hitems. pose proof Hitems as Hall. rewrite Forall_forall in Hitems.
  split; [exact key_with_space | split; [ | split]].
  - intros it Hin. apply parse_outcome_key_of, Hitems, Hin.
  - apply estimator_keys. intros it Hin.
    rewrite parse_outcome_key_of, parse_outcome_no_space by (apply Hitems, Hin).
    reflexivity.
  - intros hist Hhist Hshots.
    destruct (counts_shots_range hist Hshots) as [Hrange Ht].
    apply estimator_returns; trivial.
    rewrite prefix_histogram_parses; assumption.
Qed.

Lemma outcome_is_read_before_first_space_witness :
  (forall key, py.contains_space key = true ->
     exists prefix rest,
       key = key_of (prefix, Some rest) /\ py.contains_space prefix = false) /\
  (forall it, In it [(("01"%string, Some "10 junk"%string), 3); (("11"%string, None), 1)] ->
     parse_outcome (key_of (fst it))
     = match py.int2 (fst (fst it)) with Some b => ret b | None => raise ValueError end) /\
  _pauli_expval_with_variance [("01 10 junk"%string, 3); ("11"%string, 1)]
    [mkPauli [true; false] [false; true] 0]
  = _pauli_expval_with_variance [("01"%string, 3); ("11"%string, 1)]
      [mkPauli [true; false] [false; true] 0] /\
  (forall hist,
     prefix_histogram [(("01"%string, Some "10 junk"%string), 3); (("11"%string, None), 1)]
     = inr hist ->
     counts_shots hist ->
     _pauli_expval_with_variance [("01 10 junk"%string, 3); ("11"%string, 1)]
       [mkPauli [true; false] [false; true] 0]
     = inr (map (fun p => np.divide (float_total (nonid_mask p) hist)
                            (round_int (total hist)))
              [mkPauli [true; false] [false; true] 0],
            map (fun p =>
                   let e := np.divide (float_total (nonid_mask p) hist)
                              (round_int (total hist)) in
                   np.subtract 1%float (np.multiply e e))
              [mkPauli [true; false] [false; true] 0])).
Proof.
  apply (outcome_is_read_before_first_space [mkPauli [true; false] [false; true] 0]
           [(("01"%string, Some "10 junk"%string), 3); (("11"%string, None), 1)]).
  repeat constructor.
Defined.

(** The register before the space decides: [Z] on the key ["1 0"] sees the
    outcome 1, and on ["0 1"] the outcome 0. *)
Example first_register_decides :
  _pauli_expval_with_variance [("1 0"%string, 5)] [mkPauli [true] [false] 0]
  = inr ([(-1)%float], [0%float]) /\
  _pauli_expval_with_variance [("0 1"%string, 5)] [mkPauli [true] [false] 0]
  = inr ([1%float], [0%float]).
Proof. split; vm_compute; reflexivity. Qed.

(** The characters 28 to 31 are no whitespace for [int]: a key that starts
    with one of them is refused. *)
Example separator_is_no_space :
  parse_outcome (String (ascii_of_nat 28) "1") = inl ValueError /\
  parse_outcome (String (ascii_of_nat 9) "1") = inr 1.
Proof. split; reflexivity. Qed.


(** ** Masks and parity *)

Lemma mask_of_bits_cons (b : bool) (t : list bool) :
  mask_of_bits (b :: t) = 2 * mask_of_bits t + Z.b2z b.
Proof. cbn [mask_of_bits]. destruct b; cbn [Z.b2z]; lia. Qed.

Lemma mask_of_bits_testbit (bits : list bool) :
  forall i : nat, Z.testbit (mask_of_bits bits) (Z.of_nat i) = nth i bits false.
Proof.
  induction bits as [ | b t IH]; intro i.
  - cbn [mask_of_bits]. rewrite Z.testbit_0_l. destruct i; reflexivity.
  - rewrite mask_of_bits_cons. destruct i as [ | i].
    + change (Z.of_nat 0) with 0. rewrite Z.testbit_0_r. reflexivity.
    + rewrite Nat2Z.inj_succ, Z.testbit_succ_r by lia. apply IH.
Qed.

Lemma mask_of_bits_bound (bits : list bool) :
  0 <= mask_of_bits bits < 2 ^ Z.of_nat (List.length bits).
Proof.
  induction bits as [ | b t IH].
  - cbn. lia.
  - rewrite mask_of_bits_cons. cbn [List.length].
    rewrite Nat2Z.inj_succ, Z.pow_succ_r by lia. destruct b; cbn [Z.b2z]; lia.
Qed.

Lemma logical_or_nth (a b : list bool) (i : nat) :
  List.length a = List.length b ->
  nth i (logical_or a b) false = nth i a false || nth i b false.
Proof.
  revert b i; induction a as [ | x a IH]; intros [ | y b] i H; try discriminate.
  - destruct i; reflexivity.
  - destruct i as [ | i]; [reflexivity | ].
    cbn [logical_or combine map nth fst snd]. apply IH. injection H as H. exact H.
Qed.

(** X1: [_paulis2inds] gives every Pauli the integer whose bit [i] tells
    whether site [i] is not the identity; it is below [2^n] for [n] sites. *)
Theorem paulis2inds_bits (paulis : PauliList) (k : nat) (p : Pauli) :
  nth_error paulis k = Some p ->
  exists m,
    nth_error (_paulis2inds paulis) k = Some m /\
    0 <= m < 2 ^ Z.of_nat (List.length (logical_or (pauli_z p) (pauli_x p))) /\
    (forall i : nat,
       Z.testbit m (Z.of_nat i) = nth i (logical_or (pauli_z p) (pauli_x p)) false) /\
    (List.length (pauli_z p) = List.length (pauli_x p) ->
     forall i : nat, Z.testbit m (Z.of_nat i) = nonid_at p i).
Proof.
  intro Hk. exists (nonid_mask p). rewrite paulis2inds_mask, nth_error_map, Hk.
  split; [reflexivity | ]. unfold nonid_mask.
  split; [apply mask_of_bits_bound | ].
  split; [apply mask_of_bits_testbit | ].
  intros Hlen i. rewrite mask_of_bits_testbit. apply logical_or_nth, Hlen.
Qed.

Lemma paulis2inds_bits_witness :
  exists m,
    nth_error (_paulis2inds [mkPauli [true; false; false] [false; false; true] 0]) 0 = Some m /\
    0 <= m < 2 ^ 3 /\
    (forall i : nat,
       Z.testbit m (Z.of_nat i) = nth i [true; false; true] false) /\
    (3%nat = 3%nat ->
     forall i : nat,
       Z.testbit m (Z.of_nat i)
       = nonid_at (mkPauli [true; false; false] [false; false; true] 0) i).
Proof.
  exact (paulis2inds_bits [mkPauli [true; false; false] [false; false; true] 0] 0
           (mkPauli [true; false; false] [false; false; true] 0) eq_refl).
Defined.

(** X2: [_parity] is the parity of the number of one bits of the magnitude:
    it is 0 or 1, and a negative integer has the parity of its opposite. *)
Theorem parity_of_magnitude (n : Z) :
  _parity n = popcount (Z.abs n) mod 2 /\
  (_parity n = 0 \/ _parity n = 1) /\
  _parity (- n) = _parity n.
Proof.
  assert (E : forall k, _parity k = popcount (Z.abs k) mod 2).
  { intros [ | p | p]; [reflexivity | apply parity_popcount; lia | ].
    unfold _parity, py.bin. cbn [Z.abs popcount].
    change ("-0b" ++ py.bin_pos p "")%string
      with (String "-" (String "0" (String "b" (py.bin_pos p "")))).
    rewrite !count_cons, count_bin_pos.
    change (py.count "" "1") with 0.
    change (Ascii.eqb "-" "1") with false. change (Ascii.eqb "0" "1") with false.
    change (Ascii.eqb "b" "1") with false. cbv beta iota. f_equal. lia. }
  split; [apply E | split].
  - rewrite E. pose proof (Z.mod_pos_bound (popcount (Z.abs n)) 2 ltac:(lia)). lia.
  - rewrite !E, Z.abs_opp. reflexivity.
Qed.

(** ** The estimator on whole histograms *)

Lemma parse_outcome_cases (key : string) :
  parse_outcome key = inl ValueError \/ parse_outcome key = inr (outcome_of key).
Proof.
  unfold outcome_of. destruct (parse_outcome key) as [e | b] eqn:E; [left | right; reflexivity].
  unfold parse_outcome in E. destruct (py.int2 _); [discriminate | ].
  injection E as <-. reflexivity.
Qed.

Lemma bad_key_dec (counts : Counts) :
  Exists bad_key counts \/
  Forall (fun item => parse_outcome (fst item) = inr (outcome_of (fst item))) counts.
Proof.
  induction counts as [ | item counts [IH | IH]].
  - right. constructor.
  - left. apply Exists_cons_tl, IH.
  - destruct (parse_outcome_cases (fst item)) as [E | E].
    + left. apply Exists_cons_hd, E.
    + right. constructor; assumption.
Qed.

Lemma parse_histogram_good (counts : Counts) :
  Forall (fun item => parse_outcome (fst item) = inr (outcome_of (fst item))) counts ->
  parse_histogram counts = inr (map (fun item => (outcome_of (fst item), snd item)) counts).
Proof.
  induction 1 as [ | [key freq] counts Hx _ IH].
  - reflexivity.
  - unfold parse_histogram in *. cbn [map_result map fst snd] in *.
    rewrite Hx. cbn [bind ret]. rewrite IH. reflexivity.
Qed.


Lemma shot_total_nonneg (counts : Counts) :
  Forall (fun item => 0 <= snd item) counts -> 0 <= shot_total counts.
Proof.
  induction 1 as [ | item counts Hf _ IH]; cbn [shot_total fold_right] in *; [lia | ].
  fold (shot_total counts). lia.
Qed.

Lemma shot_total_range (counts : Counts) :
  Forall (fun item => 0 <= snd item) counts -> shot_total counts < 2 ^ 63 ->
  Forall (fun item => - 2 ^ 64 < snd item < 2 ^ 64) counts.
Proof.
  induction 1 as [ | item counts Hf Hrest IH]; cbn [shot_total fold_right] in *; intro Ht;
    [constructor | ].
  fold (shot_total counts) in Ht. pose proof (shot_total_nonneg counts Hrest).
  constructor; [lia | apply IH; lia].
Qed.

Lemma shot_total_parsed (counts : Counts) :
  total (map (fun item => (outcome_of (fst item), snd item)) counts) = shot_total counts.
Proof.
  induction counts as [ | item counts IH]; [reflexivity | ].
  cbn [map total shot_total fold_right snd].
  fold (total (map (fun item => (outcome_of (fst item), snd item)) counts)).
  fold (shot_total counts). rewrite IH. reflexivity.
Qed.

Lemma counts_loop_fails (size : nat) (diag_inds : list Z) :
  List.length diag_inds = size ->
  forall (counts : Counts) (expvals : list float64) (denom : Z),
    List.length expvals = size ->
    Forall (fun item => - 2 ^ 64 < snd item < 2 ^ 64) counts ->
    Exists bad_key counts ->
    py.for_each counts (count_step size diag_inds) (expvals, denom) = inl ValueError.
Proof.
  intro Hd. induction counts as [ | [key freq] counts IH];
    intros expvals denom He Hrange Hbad.
  - inversion Hbad.
  - cbn [py.for_each]. apply Forall_cons_iff in Hrange as [Hfreq Hrange]. cbn [snd] in Hfreq.
    destruct (parse_outcome_cases key) as [E | E].
    + unfold count_step. rewrite E. reflexivity.
    + rewrite (count_step_ok _ _ _ _ _ _ _ E Hfreq He Hd). cbn [bind ret].
      apply IH.
      * rewrite length_map, length_combine. lia.
      * exact Hrange.
      * inversion Hbad as [x l Hx | x l Hl]; subst; [ | exact Hl].
        unfold bad_key in Hx. cbn [fst] in Hx. congruence.
Qed.

(** X3: on a histogram that counts shots (no negative frequency, a total
    below 2^63) the estimator raises in one case only, a key that
    [int(., 2)] does not accept once cut at the first space (ValueError);
    otherwise it returns one expectation value and one variance per Pauli. *)
Theorem estimator_raises_only_on_bad_key (counts : Counts) (paulis : PauliList) :
  Forall (fun item => 0 <= snd item) counts ->
  shot_total counts < 2 ^ 63 ->
  (Exists bad_key counts /\
   _pauli_expval_with_variance counts paulis = inl ValueError)
  \/
  (Forall (fun item => exists b, parse_outcome (fst item) = inr b) counts /\
   exists expvals variances,
     _pauli_expval_with_variance counts paulis = inr (expvals, variances) /\
     List.length expvals = List.length paulis /\
     List.length variances = List.length paulis).
Proof.
  intros Hfreq Htotal.
  pose proof (shot_total_range counts Hfreq Htotal) as Hrange.
  destruct (bad_key_dec counts) as [Hbad | Hgood].
  - left. split; [exact Hbad | ].
    unfold _pauli_expval_with_variance.
    rewrite (counts_loop_fails (List.length paulis) (_paulis2inds paulis)); auto.
    + rewrite paulis2inds_mask. apply length_map.
    + apply repeat_length.
  - right. split.
    + eapply Forall_impl; [ | exact Hgood]. intros item E. eexists. exact E.
    + rewrite (estimator_returns _ _ _ (parse_histogram_good _ Hgood)).
      * do 2 eexists. split; [reflexivity | ]. rewrite !length_map. split; reflexivity.
      * apply Forall_map. exact Hrange.
      * rewrite shot_total_parsed. pose proof (shot_total_nonneg counts Hfreq). lia.
Qed.

Lemma estimator_raises_only_on_bad_key_witness :
  (Exists bad_key [("01"%string, 3); ("2"%string, 1)] /\
   _pauli_expval_with_variance [("01"%string, 3); ("2"%string, 1)]
     [mkPauli [true] [false] 0] = inl ValueError)
  \/
  (Forall (fun item => exists b, parse_outcome (fst item) = inr b)
     [("01"%string, 3); ("2"%string, 1)] /\
   exists expvals variances,
     _pauli_expval_with_variance [("01"%string, 3); ("2"%string, 1)]
       [mkPauli [true] [false] 0] = inr (expvals, variances) /\
     List.length expvals = 1%nat /\
     List.length variances = 1%nat).
Proof.
  apply (estimator_raises_only_on_bad_key [("01"%string, 3); ("2"%string, 1)]
           [mkPauli [true] [false] 0]).
  - repeat constructor; simpl; lia.
  - reflexivity.
Defined.

(** A frequency too large for a float: the conversion raises OverflowError
    at the first operator. *)
Example huge_frequency_overflows :
  _pauli_expval_with_variance [("0"%string, 2 ^ 1024)] [mkPauli [true] [false] 0]
  = inl OverflowError.
Proof. vm_compute. reflexivity. Qed.

(** ** The measurement circuit of a Pauli *)

Lemma combine_seq_fst {A : Type} (l : list A) (n : nat) :
  map fst (combine (seq n (List.length l)) l) = seq n (List.length l).
Proof.
  revert n; induction l as [ | a l IH]; intro n; cbn [List.length seq combine map fst];
    [reflexivity | ]. rewrite IH. reflexivity.
Qed.

Lemma combine_seq_nth {A : Type} (l : list A) (n i : nat) (a : A) :
  In (i, a) (combine (seq n (List.length l)) l) <-> (n <= i)%nat /\ nth_error l (i - n) = Some a.
Proof.
  revert n; induction l as [ | b l IH]; intro n; cbn [List.length seq combine In].
  - split; [intros [] | ]. intros [_ H]. destruct (i - n)%nat; discriminate.
  - rewrite IH. split.
    + intros [E | [Hle Hnth]].
      * injection E as -> ->. rewrite Nat.sub_diag. split; [lia | reflexivity].
      * split; [lia | ]. replace (i - n)%nat with (S (i - S n)) by lia. exact Hnth.
    + intros [Hle Hnth]. destruct (Nat.eq_dec i n) as [-> | N].
      * rewrite Nat.sub_diag in Hnth. injection Hnth as ->. left. reflexivity.
      * right. split; [lia | ].
        replace (i - n)%nat with (S (i - S n)) in Hnth by lia. exact Hnth.
Qed.

Lemma getitem_nth {A : Type} (l : list A) (k : nat) (d : A) :
  (k < List.length l)%nat -> py.getitem l k = inr (nth k l d).
Proof.
  intro Hk. unfold py.getitem.
  destruct (nth_error l k) as [a | ] eqn:E.
  - rewrite (nth_error_nth _ _ d E). reflexivity.
  - apply nth_error_None in E. lia.
Qed.

Lemma np_any_filter_seq (f : nat -> bool) (n : nat) :
  np_any (filter f (seq 0 n)) = false ->
  filter f (seq 0 n) = [] \/ filter f (seq 0 n) = [0%nat].
Proof.
  destruct n as [ | n]; [left; reflexivity | ].
  cbn [seq filter]. intro Hany.
  assert (Hrest : np_any (filter f (seq 1 n)) = false).
  { destruct (f 0%nat); [ | exact Hany].
    cbn [np_any existsb Nat.eqb negb orb] in Hany. exact Hany. }
  assert (E : filter f (seq 1 n) = []).
  { destruct (filter f (seq 1 n)) as [ | r rest] eqn:Er; [reflexivity | ].
    assert (Hin : In r (filter f (seq 1 n))) by (rewrite Er; left; reflexivity).
    apply filter_In in Hin as [Hin _]. apply in_seq in Hin.
    cbn [np_any existsb] in Hrest. destruct r as [ | r]; [lia | discriminate]. }
  rewrite E. destruct (f 0%nat); [right | left]; reflexivity.
Qed.

Lemma measured_indices_any (pauli : Pauli) :
  (let qubit_indices := masked_arange (logical_or (pauli_z pauli) (pauli_x pauli)) in
   if negb (np_any qubit_indices) then [0%nat] else qubit_indices)
  = measured_indices pauli.
Proof.
  cbv zeta. unfold measured_indices.
  destruct (np_any (masked_arange _)) eqn:Hany; cbn [negb].
  - destruct (masked_arange _); [discriminate | reflexivity].
  - unfold masked_arange in *. destruct (np_any_filter_seq _ _ Hany) as [E | E]; rewrite E;
      reflexivity.
Qed.

Lemma measured_indices_sites (pauli : Pauli) :
  List.length (pauli_z pauli) = List.length (pauli_x pauli) ->
  forall i, In i (masked_arange (logical_or (pauli_z pauli) (pauli_x pauli)))
            <-> ((i < List.length (pauli_x pauli))%nat /\ nonid_at pauli i = true).
Proof.
  intros Hlen i. unfold masked_arange. rewrite filter_In, in_seq.
  rewrite (logical_or_nth _ _ i Hlen). fold (nonid_at pauli i).
  unfold logical_or. rewrite length_map, length_combine, Hlen, Nat.min_id.
  split; intros [H1 H2]; (split; [lia | exact H2]).
Qed.

Lemma map_snd_combine_seq {A : Type} (l : list A) :
  forall a, map snd (combine (seq a (List.length l)) l) = l.
Proof.
  induction l as [ | x l IH]; intro a; cbn [List.length seq combine map snd]; [reflexivity | ].
  rewrite IH. reflexivity.
Qed.

(** The loop of [_measurement_circuit] over sites of the circuit and of the
    Pauli. *)
Lemma measurement_loop (creg : ClassicalRegister) (pauli : Pauli) :
  forall (items : list (nat * nat)) (c : QuantumCircuit),
    Forall (fun item => (snd item < List.length (pauli_x pauli))%nat /\
                        (snd item < List.length (pauli_z pauli))%nat /\
                        (snd item < num_qubits c)%nat) items ->
    py.for_each items
      (fun '(clbit, i) meas_circuit =>
         px <- py.getitem (pauli_x pauli) i ;;
         meas_circuit <-
           (if (px : bool)
            then
              pz <- py.getitem (pauli_z pauli) i ;;
              meas_circuit <-
                (if (pz : bool) then append_on meas_circuit i (SdgGate i) else ret meas_circuit) ;;
              append_on meas_circuit i (HGate i)
            else ret meas_circuit) ;;
         append_on meas_circuit i (Measure i (creg, clbit)))
      c
    = inr (mkCircuit (num_qubits c) (cregs c)
             (data c ++ flat_map (fun '(clbit, i) =>
                                    basis_change pauli i ++ [Measure i (creg, clbit)]) items)
             (metadata c)).
Proof.
  induction items as [ | [clbit i] items IH]; intros c Hall.
  - cbn [py.for_each flat_map]. rewrite app_nil_r. destruct c; reflexivity.
  - inversion Hall as [ | x l [Hx [Hz Hn]] Hrest]; subst. cbn [snd] in *.
    cbn [py.for_each flat_map].
    rewrite (getitem_nth _ _ false Hx). cbn [bind].
    change (basis_change pauli i)
      with (if nth i (pauli_x pauli) false
            then (if nth i (pauli_z pauli) false then [SdgGate i] else []) ++ [HGate i]
            else []).
    assert (Hq : forall c', num_qubits c' = num_qubits c -> (i <? num_qubits c')%nat = true)
      by (intros c' E; rewrite E; apply Nat.ltb_lt; exact Hn).
    destruct (nth i (pauli_x pauli) false).
    + rewrite (getitem_nth _ _ false Hz). cbn [bind].
      destruct (nth i (pauli_z pauli) false); unfold append_on; cbn [bind ret num_qubits];
        rewrite ?Hq by reflexivity; cbn [bind ret num_qubits cregs data metadata];
        rewrite ?Hq by reflexivity; cbn [bind ret num_qubits cregs data metadata];
        rewrite ?Hq by reflexivity; cbn [bind ret num_qubits cregs data metadata];
        rewrite IH by exact Hrest; cbn [num_qubits cregs data metadata app];
        rewrite <- !app_assoc; reflexivity.
    + unfold append_on; cbn [bind ret].
      rewrite ?Hq by reflexivity; cbn [bind ret num_qubits cregs data metadata].
      rewrite IH by exact Hrest. cbn [num_qubits cregs data metadata app].
      rewrite <- !app_assoc. reflexivity.
Qed.

Lemma measured_sites_program (creg : ClassicalRegister) (pauli : Pauli) :
  forall items : list (nat * nat),
    flat_map (fun instr => match instr with Measure q _ => [q] | _ => [] end)
      (flat_map (fun '(clbit, i) => basis_change pauli i ++ [Measure i (creg, clbit)]) items)
    = map snd items.
Proof.
  induction items as [ | [clbit i] items IH]; [reflexivity | ].
  cbn [flat_map map snd]. rewrite !flat_map_app, IH. cbn [flat_map app].
  unfold basis_change.
  destruct (nth i (pauli_x pauli) false), (nth i (pauli_z pauli) false); reflexivity.
Qed.


Lemma measured_sites_of_program (n : nat) (creg : ClassicalRegister) (pauli : Pauli)
  (indices : list nat) (md : CircuitMetadata) :
  measured_sites (mkCircuit n [creg] (measurement_program creg pauli indices) md) = indices.
Proof.
  unfold measured_sites, measurement_program. cbn [data].
  rewrite measured_sites_program. apply map_snd_combine_seq.
Qed.

Lemma measured_indices_in (pauli : Pauli) :
  List.length (pauli_z pauli) = List.length (pauli_x pauli) ->
  (0 < List.length (pauli_x pauli))%nat ->
  forall i, In i (measured_indices pauli) ->
    (i < List.length (pauli_x pauli))%nat /\
    (nonid_at pauli i = true \/
     (measured_indices pauli = [0%nat] /\
      forall j, (j < List.length (pauli_x pauli))%nat -> nonid_at pauli j = false)).
Proof.
  intros Hlen Hpos. pose proof (measured_indices_sites pauli Hlen) as Hsites.
  unfold measured_indices.
  destruct (masked_arange _) as [ | s sites] eqn:E.
  - intros i [Ei | []]. subst i. split; [exact Hpos | right]. split; [reflexivity | ].
    intros j Hj. destruct (nonid_at pauli j) eqn:Ej; [ | reflexivity].
    exfalso. apply (proj2 (Hsites j)); auto.
  - intros i Hi. apply Hsites in Hi as [Hi1 Hi2]. split; [exact Hi1 | left; exact Hi2].
Qed.

(** For a Pauli on at least one and at most [n_qubits] sites the measurement
    circuit is built: the program that measures the sites to measure. *)
Lemma measurement_circuit_returns (pauli_str : Pauli -> string) (n_qubits : nat)
  (pauli : Pauli) :
  List.length (pauli_z pauli) = List.length (pauli_x pauli) ->
  (0 < List.length (pauli_x pauli) <= n_qubits)%nat ->
  let indices := measured_indices pauli in
  let creg := mkCreg ("__c_" ++ pauli_str pauli) (List.length indices) in
  _measurement_circuit pauli_str n_qubits pauli
  = inr (mkCircuit n_qubits [creg] (measurement_program creg pauli indices)
           (UserMetadata []), indices).
Proof.
  intros Hlen [Hpos Hfit] indices creg.
  unfold _measurement_circuit. rewrite measured_indices_any. fold indices. fold creg.
  rewrite measurement_loop.
  - reflexivity.
  - apply Forall_forall. intros [clbit i] Hitem. cbn [snd num_qubits].
    apply in_combine_r in Hitem.
    apply (measured_indices_in pauli Hlen Hpos) in Hitem as [Hi _]. lia.
Qed.

(** X7: for a Pauli on at least one and at most [n_qubits] sites,
    [_measurement_circuit] returns: it measures the sites where the Pauli is
    not the identity (site 0 when there is none), each once, in increasing
    order, site number [j] into bit [j] of one register with one bit per
    site, after H for an X and after Sdg and H for a Y. *)
Theorem measurement_circuit_structure (pauli_str : Pauli -> string) (n_qubits : nat)
  (pauli : Pauli) :
  List.length (pauli_z pauli) = List.length (pauli_x pauli) ->
  (0 < List.length (pauli_x pauli) <= n_qubits)%nat ->
  let indices := measured_indices pauli in
  let creg := mkCreg ("__c_" ++ pauli_str pauli) (List.length indices) in
  let mc := mkCircuit n_qubits [creg] (measurement_program creg pauli indices)
              (UserMetadata []) in
  _measurement_circuit pauli_str n_qubits pauli = inr (mc, indices) /\
  measured_sites mc = indices /\
  NoDup indices /\
  (forall i, nonid_at pauli i = true -> (i < List.length (pauli_x pauli))%nat -> In i indices) /\
  (forall i, In i indices ->
     (i < List.length (pauli_x pauli))%nat /\
     (nonid_at pauli i = true \/
      (indices = [0%nat] /\
       forall j, (j < List.length (pauli_x pauli))%nat -> nonid_at pauli j = false))).
Proof.
  intros Hlen Hfit indices creg mc.
  pose proof (measured_indices_sites pauli Hlen) as Hsites.
  split; [ | split; [ | split; [ | split]]].
  - apply measurement_circuit_returns; assumption.
  - apply measured_sites_of_program.
  - subst indices. unfold measured_indices.
    destruct (masked_arange _) as [ | s sites] eqn:E.
    + constructor; [intros [] | constructor].
    + rewrite <- E. unfold masked_arange. apply NoDup_filter, seq_NoDup.
  - intros i Hi Hlt. subst indices. unfold measured_indices.
    assert (Hs : In i (masked_arange (logical_or (pauli_z pauli) (pauli_x pauli))))
      by (apply Hsites; auto).
    destruct (masked_arange _); [destruct Hs | exact Hs].
  - apply measured_indices_in; [exact Hlen | apply Hfit].
Qed.

Lemma measurement_circuit_structure_witness :
  let pauli := mkPauli [false; true; false] [true; true; false] 0 in
  let creg := mkCreg "__c_YX" 2 in
  let mc := mkCircuit 3 [creg]
              [HGate 0; Measure 0 (creg, 0%nat);
               SdgGate 1; HGate 1; Measure 1 (creg, 1%nat)] (UserMetadata []) in
  _measurement_circuit (fun _ => "YX"%string) 3 pauli = inr (mc, [0%nat; 1%nat]) /\
  measured_sites mc = [0%nat; 1%nat] /\
  NoDup [0%nat; 1%nat] /\
  (forall i, nonid_at pauli i = true -> (i < 3)%nat -> In i [0%nat; 1%nat]) /\
  (forall i, In i [0%nat; 1%nat] ->
     (i < 3)%nat /\
     (nonid_at pauli i = true \/
      ([0%nat; 1%nat] = [0%nat] /\ forall j, (j < 3)%nat -> nonid_at pauli j = false))).
Proof.
  apply (measurement_circuit_structure (fun _ => "YX"%string) 3
           (mkPauli [false; true; false] [true; true; false] 0)).
  - reflexivity.
  - cbn. lia.
Defined.

Lemma measurement_loop_fails (creg : ClassicalRegister) (pauli : Pauli) :
  forall (items : list (nat * nat)) (c : QuantumCircuit),
    Forall (fun item => (snd item < List.length (pauli_x pauli))%nat /\
                        (snd item < List.length (pauli_z pauli))%nat) items ->
    Exists (fun item => (num_qubits c <= snd item)%nat) items ->
    py.for_each items
      (fun '(clbit, i) meas_circuit =>
         px <- py.getitem (pauli_x pauli) i ;;
         meas_circuit <-
           (if (px : bool)
            then
              pz <- py.getitem (pauli_z pauli) i ;;
              meas_circuit <-
                (if (pz : bool) then append_on meas_circuit i (SdgGate i) else ret meas_circuit) ;;
              append_on meas_circuit i (HGate i)
            else ret meas_circuit) ;;
         append_on meas_circuit i (Measure i (creg, clbit)))
      c
    = inl CircuitError.
Proof.
  induction items as [ | [clbit i] items IH]; intros c Hall Hout.
  - inversion Hout.
  - inversion Hall as [ | x l [Hx Hz] Hrest]; subst. cbn [snd] in *.
    destruct (Nat.ltb_spec i (num_qubits c)) as [Hn | Hn].
    + assert (Hone : Forall (fun item => (snd item < List.length (pauli_x pauli))%nat /\
                                         (snd item < List.length (pauli_z pauli))%nat /\
                                         (snd item < num_qubits c)%nat) [(clbit, i)])
        by (constructor; [cbn [snd]; auto | constructor]).
      pose proof (measurement_loop creg pauli [(clbit, i)] c Hone) as L.
      cbn [py.for_each] in L. cbn [py.for_each].
      match type of L with
      | (x <- ?m ;; ret x) = _ => destruct m as [e | c1] eqn:E1; [discriminate | ]
      end.
      cbn [bind ret] in L. injection L as L. cbn [bind].
      apply IH; [exact Hrest | ].
      rewrite L. cbn [num_qubits].
      inversion Hout as [x l Hx0 | x l Hl]; subst; [cbn [snd] in Hx0; lia | exact Hl].
    + cbn [py.for_each].
      rewrite (getitem_nth _ _ false Hx). cbn [bind].
      assert (Hq : (i <? num_qubits c)%nat = false) by (apply Nat.ltb_ge; exact Hn).
      destruct (nth i (pauli_x pauli) false).
      * rewrite (getitem_nth _ _ false Hz). cbn [bind].
        destruct (nth i (pauli_z pauli) false); unfold append_on; cbn [bind ret];
          rewrite Hq; reflexivity.
      * unfold append_on. cbn [bind ret]. rewrite Hq. reflexivity.
Qed.

(** X8: when the Pauli is not the identity on a site that the circuit does
    not have, [_measurement_circuit] raises CircuitError. *)
Theorem measurement_circuit_needs_the_site (pauli_str : Pauli -> string) (n_qubits : nat)
  (pauli : Pauli) (i : nat) :
  List.length (pauli_z pauli) = List.length (pauli_x pauli) ->
  (i < List.length (pauli_x pauli))%nat ->
  nonid_at pauli i = true ->
  (n_qubits <= i)%nat ->
  _measurement_circuit pauli_str n_qubits pauli = inl CircuitError.
Proof.
  intros Hlen Hi Hnon Hout.
  pose proof (measured_indices_sites pauli Hlen) as Hsites.
  assert (Hin : In i (masked_arange (logical_or (pauli_z pauli) (pauli_x pauli))))
    by (apply Hsites; auto).
  assert (E : measured_indices pauli
              = masked_arange (logical_or (pauli_z pauli) (pauli_x pauli))).
  { unfold measured_indices. destruct (masked_arange _); [destruct Hin | reflexivity]. }
  unfold _measurement_circuit. rewrite measured_indices_any, E.
  rewrite measurement_loop_fails; [reflexivity | | ].
  - apply Forall_forall. intros [clbit j] Hitem. cbn [snd].
    apply in_combine_r in Hitem. apply Hsites in Hitem as [Hj _]. lia.
  - apply Exists_exists.
    apply In_nth_error in Hin as [k Hk].
    exists (k, i). split; [ | cbn [snd num_qubits]; exact Hout].
    apply combine_seq_nth. split; [lia | ]. rewrite Nat.sub_0_r. exact Hk.
Qed.

Lemma measurement_circuit_needs_the_site_witness :
  _measurement_circuit (fun _ => "ZI"%string) 1 (mkPauli [false; true] [false; false] 0)
  = inl CircuitError.
Proof.
  apply (measurement_circuit_needs_the_site (fun _ => "ZI"%string) 1
           (mkPauli [false; true] [false; false] 0) 1); [reflexivity | cbn; lia | reflexivity | lia].
Defined.
Lemma logical_or_select (z x : list bool) (indices : list nat) :
  logical_or (select_columns z indices) (select_columns x indices)
  = map (fun i => nth i z false || nth i x false) indices.
Proof.
  unfold logical_or, select_columns.
  induction indices as [ | i indices IH]; [reflexivity | ].
  cbn [map combine fst snd]. rewrite IH. reflexivity.
Qed.

Lemma nth_map_default {A : Type} (f : A -> bool) (l : list A) (d : A) (j : nat) :
  nth j (map f l) false = (j <? List.length l)%nat && f (nth j l d).
Proof.
  revert j; induction l as [ | a l IH]; intros [ | j]; cbn [map nth List.length];
    try reflexivity.
  rewrite IH. reflexivity.
Qed.

Lemma measurement_circuit_indices (pauli_str : Pauli -> string) (n_qubits : nat)
  (pauli : Pauli) (mc : QuantumCircuit) (indices : list nat) :
  _measurement_circuit pauli_str n_qubits pauli = inr (mc, indices) ->
  indices = measured_indices pauli.
Proof.
  unfold _measurement_circuit. rewrite measured_indices_any.
  destruct (py.for_each _ _ _) as [e | c]; cbn [bind ret]; [discriminate | ].
  intro H. injection H as _ <-. reflexivity.
Qed.

(** X9: the Paulis that a measurement circuit keeps in its metadata are the
    observables on the measured sites: for the Pauli number [k], bit [j] of
    the mask that the estimator computes tells whether that Pauli is not the
    identity on the site measured into bit [j]. *)
Theorem metadata_masks_follow_measured_sites (pauli_str : Pauli -> string)
  (circuit : QuantumCircuit) (basis : Pauli) (obs : PauliList) (param_index : list nat)
  (mc : QuantumCircuit) :
  measure_group pauli_str circuit basis obs param_index = inr mc ->
  let indices := measured_indices basis in
  metadata mc = MeasMetadata obs (restrict_to obs indices) param_index /\
  forall (k : nat) (p : Pauli),
    nth_error obs k = Some p ->
    exists m,
      nth_error (_paulis2inds (restrict_to obs indices)) k = Some m /\
      forall j : nat,
        Z.testbit m (Z.of_nat j)
        = (j <? List.length indices)%nat && nonid_at p (nth j indices 0%nat).
Proof.
  intros Hrun indices. unfold measure_group in Hrun.
  destruct (_measurement_circuit pauli_str (num_qubits circuit) basis) as [e | [mc0 idx]] eqn:Hm;
    cbn [bind ret] in Hrun; [discriminate | ].
  apply measurement_circuit_indices in Hm. subst idx. injection Hrun as <-.
  split; [reflexivity | ].
  intros k p Hk. eexists. rewrite paulis2inds_mask, nth_error_map.
  unfold restrict_to at 1. rewrite nth_error_map, Hk. cbn [option_map].
  split; [reflexivity | ]. intro j.
  unfold nonid_mask. cbn [pauli_z pauli_x]. rewrite mask_of_bits_testbit, logical_or_select.
  apply (nth_map_default (fun i => nth i (pauli_z p) false || nth i (pauli_x p) false)).
Qed.

Lemma metadata_masks_follow_measured_sites_witness :
  let basis := mkPauli [true; false; true] [false; false; false] 0 in
  let obs := [mkPauli [false; false; true] [false; false; false] 0] in
  exists mc,
    measure_group (fun _ => "ZIZ"%string) (mkCircuit 3 [] [] (UserMetadata [])) basis obs []
    = inr mc /\
    metadata mc = MeasMetadata obs (restrict_to obs [0%nat; 2%nat]) [] /\
    forall (k : nat) (p : Pauli),
      nth_error obs k = Some p ->
      exists m,
        nth_error (_paulis2inds (restrict_to obs [0%nat; 2%nat])) k = Some m /\
        forall j : nat,
          Z.testbit m (Z.of_nat j)
          = (j <? 2)%nat && nonid_at p (nth j [0%nat; 2%nat] 0%nat).
Proof.
  intros basis obs. eexists. split; [reflexivity | ].
  apply (metadata_masks_follow_measured_sites (fun _ => "ZIZ"%string)
           (mkCircuit 3 [] [] (UserMetadata [])) basis obs []).
  reflexivity.
Defined.

Lemma fold_logical_or_nth (n : nat) (rows : list (list bool)) :
  Forall (fun row => List.length row = n) rows ->
  forall (acc : list bool) (i : nat),
    List.length acc = n ->
    nth i (fold_left logical_or rows acc) false
    = nth i acc false || existsb (fun row => nth i row false) rows.
Proof.
  induction 1 as [ | row rows Hrow _ IH]; intros acc i Hacc; cbn [fold_left existsb].
  - rewrite orb_false_r. reflexivity.
  - rewrite IH.
    + rewrite logical_or_nth by congruence. rewrite orb_assoc. reflexivity.
    + unfold logical_or. rewrite length_map, length_combine. lia.
Qed.

Lemma or_reduce_nth (n : nat) (rows : list (list bool)) (i : nat) :
  Forall (fun row => List.length row = n) rows ->
  nth i (or_reduce rows) false = existsb (fun row => nth i row false) rows.
Proof.
  intro Hall. destruct rows as [ | r rs]; [destruct i; reflexivity | ].
  apply Forall_cons_iff in Hall as [Hr Hrs]. cbn [or_reduce existsb].
  apply (fold_logical_or_nth n); auto.
Qed.

Lemma or_reduce_length (n : nat) (rows : list (list bool)) :
  rows <> [] ->
  Forall (fun row => List.length row = n) rows ->
  List.length (or_reduce rows) = n.
Proof.
  intros Hne Hall. destruct rows as [ | r rs]; [contradiction | ].
  apply Forall_cons_iff in Hall as [Hr Hrs]. cbn [or_reduce]. clear Hne.
  revert r Hr. induction Hrs as [ | row rows Hrow _ IH]; intros r Hr; cbn [fold_left].
  - exact Hr.
  - apply IH. unfold logical_or. rewrite length_map, length_combine. lia.
Qed.


(** ** Groups of Paulis *)

Lemma existsb_orb {A : Type} (f g : A -> bool) (l : list A) :
  existsb (fun a => f a || g a) l = existsb f l || existsb g l.
Proof.
  induction l as [ | a l IH]; cbn [existsb]; [reflexivity | ].
  rewrite IH. destruct (f a), (g a), (existsb f l), (existsb g l); reflexivity.
Qed.

Lemma existsb_of_map {A C : Type} (g : A -> C) (f : C -> bool) (l : list A) :
  existsb f (map g l) = existsb (fun a => f (g a)) l.
Proof. induction l as [ | a l IH]; cbn [map existsb]; congruence. Qed.

Lemma on_sites_rows (n : nat) (obs : PauliList) :
  Forall (on_sites n) obs ->
  Forall (fun row => List.length row = n) (map pauli_z obs) /\
  Forall (fun row => List.length row = n) (map pauli_x obs).
Proof.
  intro Hall. split; apply Forall_forall; intros row Hrow;
    apply in_map_iff in Hrow as [q [<- Hq]]; rewrite Forall_forall in Hall;
    apply (Hall q Hq).
Qed.

(** The basis of a group is not the identity exactly where some member is
    not. *)
Lemma group_basis_sites (n : nat) (obs : PauliList) :
  obs <> [] ->
  Forall (on_sites n) obs ->
  let basis := mkPauli (or_reduce (map pauli_z obs)) (or_reduce (map pauli_x obs)) 0 in
  on_sites n basis /\
  forall i, nonid_at basis i = existsb (fun p => nonid_at p i) obs.
Proof.
  intros Hne Hall basis. destruct (on_sites_rows n obs Hall) as [Hz Hx].
  assert (Hnz : map pauli_z obs <> []) by (destruct obs; [contradiction | discriminate]).
  assert (Hnx : map pauli_x obs <> []) by (destruct obs; [contradiction | discriminate]).
  split.
  - split; apply or_reduce_length; assumption.
  - intro i. unfold nonid_at, basis. cbn [pauli_z pauli_x].
    rewrite (or_reduce_nth n _ i Hz), (or_reduce_nth n _ i Hx), existsb_orb.
    rewrite !existsb_of_map. reflexivity.
Qed.

Lemma measured_indices_filter (n : nat) (basis : Pauli) (f : nat -> bool) :
  on_sites n basis ->
  (forall i, (i < n)%nat -> nonid_at basis i = f i) ->
  measured_indices basis
  = match filter f (seq 0 n) with
    | [] => [0%nat]
    | sites => sites
    end.
Proof.
  intros [Hz Hx] Hf. unfold measured_indices, masked_arange.
  assert (Hl : List.length (logical_or (pauli_z basis) (pauli_x basis)) = n).
  { unfold logical_or. rewrite length_map, length_combine. lia. }
  rewrite Hl.
  rewrite (filter_ext_in _ f); [reflexivity | ].
  intros i Hi. apply in_seq in Hi.
  rewrite logical_or_nth by congruence. apply Hf. lia.
Qed.

(** What one group of Paulis on [n] sites gets when it is measured in the
    basis [basis] that is not the identity exactly where a member is not:
    the circuit measures those sites, and site 0 when there is none. *)
Lemma measure_group_sites (pauli_str : Pauli -> string) (circuit : QuantumCircuit)
  (basis : Pauli) (obs : PauliList) (param_index : list nat) (n : nat) :
  (0 < n <= num_qubits circuit)%nat ->
  on_sites n basis ->
  (forall i, (i < n)%nat -> nonid_at basis i = existsb (fun p => nonid_at p i) obs) ->
  exists mc,
    measure_group pauli_str circuit basis obs param_index = inr mc /\
    (exists meas, metadata mc = MeasMetadata obs meas param_index) /\
    measured_sites mc
    = match group_sites n obs with
      | [] => [0%nat]
      | sites => sites
      end.
Proof.
  intros Hn Hon Hsites. pose proof Hon as [Hz Hx].
  unfold measure_group.
  rewrite measurement_circuit_returns by (rewrite ?Hz, ?Hx; lia || reflexivity).
  cbn [bind ret]. eexists. split; [reflexivity | ]. split; [eexists; reflexivity | ].
  unfold set_metadata. cbn [num_qubits cregs data].
  rewrite measured_sites_of_program.
  apply (measured_indices_filter n); assumption.
Qed.

Lemma group_sites_of_identities (n : nat) (obs : PauliList) :
  (forall p, In p obs -> identity_on n p) -> group_sites n obs = [].
Proof.
  intro Hid. unfold group_sites.
  induction (seq 0 n) as [ | i l IH] eqn:E in Hid |- *.
  - reflexivity.
  - assert (Hin : forall j, In j (i :: l) -> (j < n)%nat)
      by (intros j Hj; rewrite <- E in Hj; apply in_seq in Hj; lia).
    clear E. revert Hin. generalize (i :: l). clear i l IH.
    induction l as [ | j l IH]; intro Hin; cbn [filter]; [reflexivity | ].
    replace (existsb (fun p => nonid_at p j) obs) with false.
    + apply IH. intros k Hk. apply Hin. right. exact Hk.
    + symmetry. apply not_true_is_false. intro Hex.
      apply existsb_exists in Hex as [p [Hp Hnon]].
      rewrite (Hid p Hp j) in Hnon; [discriminate | ]. apply Hin. left. reflexivity.
Qed.

Lemma group_sites_nonempty (n : nat) (obs : PauliList) (p : Pauli) (i : nat) :
  In p obs -> (i < n)%nat -> nonid_at p i = true -> In i (group_sites n obs).
Proof.
  intros Hp Hi Hnon. unfold group_sites. apply filter_In. split.
  - apply in_seq. lia.
  - apply existsb_exists. exists p. split; assumption.
Qed.

Lemma map_result_related {A C : Type} (Rel : A -> C -> Prop) (f : A -> result C)
  (l : list A) :
  (forall a, In a l -> exists c, f a = inr c /\ Rel a c) ->
  exists cs, map_result f l = inr cs /\ Forall2 Rel l cs.
Proof.
  induction l as [ | a l IH]; intro H; cbn [map_result].
  - exists []. split; [reflexivity | constructor].
  - destruct (H a (or_introl eq_refl)) as [c [Hc Hr]]. rewrite Hc. cbn [bind].
    destruct IH as [cs [Hcs Hall]]; [intros; apply H; right; assumption | ].
    rewrite Hcs. exists (c :: cs). split; [reflexivity | constructor; assumption].
Qed.

Lemma Forall2_nth_error {A C : Type} (Rel : A -> C -> Prop) (l : list A) (l' : list C) :
  Forall2 Rel l l' ->
  forall k a, nth_error l k = Some a -> exists c, nth_error l' k = Some c /\ Rel a c.
Proof.
  induction 1 as [ | a0 c0 l l' H0 _ IH]; intros [ | k] a Hk; cbn [nth_error] in *;
    try discriminate.
  - injection Hk as <-. eauto.
  - apply IH, Hk.
Qed.

(** C8, as the code has it: every group of Paulis that is measured (a
    commuting group, or each Pauli on its own without grouping) gets one
    measurement circuit.  When every member of the group is the identity, in
    particular for an all-identity operator on its own, the circuit measures
    exactly one site, site 0.  When some member is not the identity, the
    circuit measures exactly the sites where some member is not the
    identity: an all-identity operator in such a group has site 0 measured
    only if another member needs it. *)
Theorem lone_identity_measures_site_zero (options : Options) (pauli_str : Pauli -> string)
  (group_commuting : PauliList -> list PauliList) (circuit : QuantumCircuit)
  (observable : PauliList) (param_index : list nat) (n : nat) :
  (0 < n <= num_qubits circuit)%nat ->
  Forall (fun obs => obs <> [] /\ Forall (on_sites n) obs)
    (measured_groups options group_commuting observable) ->
  exists mcs,
    build_measurement_circuits options pauli_str group_commuting circuit observable
      param_index = inr mcs /\
    List.length mcs = List.length (measured_groups options group_commuting observable) /\
    forall k obs mc,
      nth_error (measured_groups options group_commuting observable) k = Some obs ->
      nth_error mcs k = Some mc ->
      (exists meas, metadata mc = MeasMetadata obs meas param_index) /\
      ((forall p, In p obs -> identity_on n p) -> measured_sites mc = [0%nat]) /\
      ((exists p i, In p obs /\ (i < n)%nat /\ nonid_at p i = true) ->
       measured_sites mc = group_sites n obs).
Proof.
  intros Hn Hgroups.
  set (Rel := fun (obs : PauliList) (mc : QuantumCircuit) =>
                (exists meas, metadata mc = MeasMetadata obs meas param_index) /\
                measured_sites mc
                = match group_sites n obs with
                  | [] => [0%nat]
                  | sites => sites
                  end).
  assert (Hbuild : exists mcs,
             build_measurement_circuits options pauli_str group_commuting circuit observable
               param_index = inr mcs /\
             Forall2 Rel (measured_groups options group_commuting observable) mcs).
  { unfold build_measurement_circuits, measured_groups in *.
    destruct (abelian_grouping options).
    - apply map_result_related. intros obs Hobs.
      rewrite Forall_forall in Hgroups. destruct (Hgroups obs Hobs) as [Hne Hall].
      destruct (group_basis_sites n obs Hne Hall) as [Hon Hs].
      destruct (measure_group_sites pauli_str circuit _ obs param_index n Hn Hon)
        as [mc [Hmc Hrel]]; [intros; apply Hs | ].
      exists mc. split; [exact Hmc | exact Hrel].
    - destruct (map_result_related (fun p mc => Rel [p] mc)
                  (fun basis => measure_group pauli_str circuit basis [basis] param_index)
                  observable) as [mcs [Hmcs Hall]].
      + intros p Hp. rewrite Forall_forall in Hgroups.
        destruct (Hgroups [p] (in_map _ _ _ Hp)) as [_ Hon].
        apply Forall_inv in Hon.
        destruct (measure_group_sites pauli_str circuit p [p] param_index n Hn Hon)
          as [mc [Hmc Hrel]].
        * intros i _. cbn [existsb]. rewrite orb_false_r. reflexivity.
        * exists mc. split; [exact Hmc | exact Hrel].
      + exists mcs. split; [exact Hmcs | ].
        clear -Hall. induction Hall; cbn [map]; constructor; assumption. }
  destruct Hbuild as [mcs [Hmcs Hall]].
  exists mcs. split; [exact Hmcs | ]. split; [symmetry; apply (Forall2_length Hall) | ].
  intros k obs mc Hobs Hmc.
  destruct (Forall2_nth_error _ _ _ Hall k obs Hobs) as [mc' [Hmc' [Hmeta Hsites]]].
  rewrite Hmc in Hmc'. injection Hmc' as <-.
  split; [exact Hmeta | split].
  - intro Hid. rewrite Hsites, (group_sites_of_identities n obs Hid). reflexivity.
  - intros [p [i [Hp [Hi Hnon]]]]. rewrite Hsites.
    pose proof (group_sites_nonempty n obs p i Hp Hi Hnon) as Hin.
    destruct (group_sites n obs); [destruct Hin | reflexivity].
Qed.

Lemma lone_identity_measures_site_zero_witness :
  let options := mkOptions 1%float false None in
  let ii := mkPauli [false; false] [false; false] 0 in
  let zi := mkPauli [false; true] [false; false] 0 in
  exists mcs,
    build_measurement_circuits options (fun _ => "P"%string) (fun l => [l])
      (mkCircuit 2 [] [] (UserMetadata [])) [ii; zi] [] = inr mcs /\
    List.length mcs = 2%nat /\
    forall k obs mc,
      nth_error [[ii]; [zi]] k = Some obs ->
      nth_error mcs k = Some mc ->
      (exists meas, metadata mc = MeasMetadata obs meas []) /\
      ((forall p, In p obs -> identity_on 2 p) -> measured_sites mc = [0%nat]) /\
      ((exists p i, In p obs /\ (i < 2)%nat /\ nonid_at p i = true) ->
       measured_sites mc = group_sites 2 obs).
Proof.
  apply (lone_identity_measures_site_zero (mkOptions 1%float false None)
           (fun _ => "P"%string) (fun l => [l]) (mkCircuit 2 [] [] (UserMetadata []))
           [mkPauli [false; false] [false; false] 0; mkPauli [false; true] [false; false] 0]
           [] 2).
  - cbn. lia.
  - repeat constructor; discriminate.
Defined.

(** C8, as stated, fails: with grouping, the all-identity operator [II] in
    one group with [ZI] (the two commute qubit-wise) is measured by the
    circuit of the group, which measures site 1 only, not site 0. *)
Lemma grouped_identity_skips_site_zero :
  let options := mkOptions 1%float true None in
  let ii := mkPauli [false; false] [false; false] 0 in
  let zi := mkPauli [false; true] [false; false] 0 in
  identity_on 2 ii /\
  exists mc meas,
    build_measurement_circuits options (fun _ => "ZI"%string) (fun l => [l])
      (mkCircuit 2 [] [] (UserMetadata [])) [ii; zi] [] = inr [mc] /\
    metadata mc = MeasMetadata [ii; zi] meas [] /\
    measured_sites mc = [1%nat] /\
    ~ In 0%nat (measured_sites mc).
Proof.
  cbv zeta. split.
  - intros [ | [ | i]] Hi; [reflexivity | reflexivity | lia].
  - eexists _, _. split; [reflexivity | ]. split; [reflexivity | ].
    split; [reflexivity | ]. intros [H | []]. discriminate.
Qed.

(** X10: grouping loses no site: for a group of Paulis on [n] sites of a
    circuit with at least [n] qubits, the measurement circuit built for the
    basis of the group (the OR of the rows of its members) measures every
    site on which some member is not the identity. *)
Theorem group_measures_every_member_site (pauli_str : Pauli -> string)
  (circuit : QuantumCircuit) (obs : PauliList) (param_index : list nat) (n : nat)
  (p : Pauli) (i : nat) :
  (n <= num_qubits circuit)%nat ->
  Forall (on_sites n) obs ->
  In p obs ->
  (i < n)%nat ->
  nonid_at p i = true ->
  exists mc indices,
    _measurement_circuit pauli_str (num_qubits circuit)
      (mkPauli (or_reduce (map pauli_z obs)) (or_reduce (map pauli_x obs)) 0)
    = inr (mc, indices) /\
    In i indices /\
    measure_group pauli_str circuit
      (mkPauli (or_reduce (map pauli_z obs)) (or_reduce (map pauli_x obs)) 0)
      obs param_index
    = inr (set_metadata mc (MeasMetadata obs (restrict_to obs indices) param_index)) /\
    In i (measured_sites
            (set_metadata mc (MeasMetadata obs (restrict_to obs indices) param_index))).
Proof.
  intros Hfit Hall Hp Hi Hnon.
  assert (Hne : obs <> []) by (intro E; subst obs; destruct Hp).
  destruct (group_basis_sites n obs Hne Hall) as [[Hz Hx] Hs].
  set (basis := mkPauli (or_reduce (map pauli_z obs)) (or_reduce (map pauli_x obs)) 0) in *.
  assert (Hin : In i (measured_indices basis)).
  { rewrite (measured_indices_filter n basis (fun i => existsb (fun q => nonid_at q i) obs))
      by (try split; auto).
    pose proof (group_sites_nonempty n obs p i Hp Hi Hnon) as Hg. unfold group_sites in Hg.
    destruct (filter _ _); [destruct Hg | exact Hg]. }
  unfold measure_group.
  rewrite measurement_circuit_returns by (rewrite ?Hz, ?Hx; lia || reflexivity).
  cbn [bind ret]. eexists _, _. split; [reflexivity | ]. split; [exact Hin | ].
  split; [reflexivity | ].
  unfold set_metadata. cbn [num_qubits cregs data].
  rewrite measured_sites_of_program. exact Hin.
Qed.

Lemma group_measures_every_member_site_witness :
  let obs := [mkPauli [true; false; false] [false; false; false] 0;
              mkPauli [false; false; true] [false; false; false] 0] in
  let circuit := mkCircuit 3 [] [] (UserMetadata []) in
  exists mc indices,
    _measurement_circuit (fun _ => "ZIZ"%string) 3
      (mkPauli (or_reduce (map pauli_z obs)) (or_reduce (map pauli_x obs)) 0)
    = inr (mc, indices) /\
    In 2%nat indices /\
    measure_group (fun _ => "ZIZ"%string) circuit
      (mkPauli (or_reduce (map pauli_z obs)) (or_reduce (map pauli_x obs)) 0) obs []
    = inr (set_metadata mc (MeasMetadata obs (restrict_to obs indices) [])) /\
    In 2%nat (measured_sites
                (set_metadata mc (MeasMetadata obs (restrict_to obs indices) []))).
Proof.
  apply (group_measures_every_member_site (fun _ => "ZIZ"%string)
           (mkCircuit 3 [] [] (UserMetadata []))
           [mkPauli [true; false; false] [false; false; false] 0;
            mkPauli [false; false; true] [false; false; false] 0]
           [] 3 (mkPauli [false; false; true] [false; false; false] 0) 2).
  - cbn. lia.
  - repeat constructor.
  - right. left. reflexivity.
  - lia.
  - reflexivity.
Defined.

(** ** Combination with the circuit of the caller *)

Lemma register_check (name : string) (regs : list ClassicalRegister) :
  py.for_each regs
    (fun creg (_ : unit) =>
       if String.eqb name (creg_name creg) then raise QiskitError else ret tt) tt
  = if existsb (fun creg => String.eqb name (creg_name creg)) regs
    then raise QiskitError
    else ret tt.
Proof.
  induction regs as [ | creg regs IH]; cbn [py.for_each existsb]; [reflexivity | ].
  destruct (String.eqb name (creg_name creg)); cbn [bind orb]; [reflexivity | exact IH].
Qed.

Lemma combine_with_spec (circuit meas_circuit : QuantumCircuit) :
  cregs meas_circuit <> [] ->
  (num_qubits meas_circuit <= num_qubits circuit)%nat ->
  combine_with circuit meas_circuit
  = if collides circuit meas_circuit
    then raise QiskitError
    else ret (composed_onto circuit meas_circuit).
Proof.
  intros Hregs Hq. unfold combine_with, collides, composed_onto, has_creg_named.
  destruct (cregs meas_circuit) as [ | clbits rest]; [contradiction | ].
  cbn [py.getitem nth_error bind ret firstn]. rewrite register_check.
  destruct (existsb _ (cregs circuit)); cbn [bind raise ret]; [reflexivity | ].
  unfold compose, add_register. cbn [num_qubits cregs data metadata].
  destruct (Nat.leb_spec (num_qubits meas_circuit) (num_qubits circuit)) as [_ | N]; [ | lia].
  reflexivity.
Qed.

Lemma combine_all (circuit : QuantumCircuit) (meas_circuits : list QuantumCircuit) :
  Forall (fun mc => cregs mc <> [] /\ (num_qubits mc <= num_qubits circuit)%nat)
    meas_circuits ->
  map_result (combine_with circuit) meas_circuits
  = if existsb (collides circuit) meas_circuits
    then raise QiskitError
    else ret (map (composed_onto circuit) meas_circuits).
Proof.
  induction 1 as [ | mc l [Hregs Hq] _ IH]; cbn [map_result existsb map]; [reflexivity | ].
  rewrite (combine_with_spec _ _ Hregs Hq).
  destruct (collides circuit mc); cbn [bind raise ret orb]; [reflexivity | ].
  rewrite IH. destruct (existsb (collides circuit) l); reflexivity.
Qed.

Lemma for_each_invariant {A S : Type} (P : S -> Prop) (body : A -> S -> result S) :
  (forall x s s', P s -> body x s = inr s' -> P s') ->
  forall xs s s', P s -> py.for_each xs body s = inr s' -> P s'.
Proof.
  intro Hbody. induction xs as [ | x xs IH]; intros s s' Hs Hrun; cbn [py.for_each] in Hrun.
  - injection Hrun as <-. exact Hs.
  - destruct (body x s) as [e | s1] eqn:Hx; cbn [bind] in Hrun; [discriminate | ].
    eapply IH; [ | exact Hrun]. eapply Hbody; eauto.
Qed.

Lemma map_result_inr {A B : Type} (f : A -> result B) (l : list A) (l' : list B) :
  map_result f l = inr l' -> Forall2 (fun a b => f a = inr b) l l'.
Proof.
  revert l'; induction l as [ | a l IH]; intros l' H; cbn [map_result] in H.
  - injection H as <-. constructor.
  - destruct (f a) as [e | b] eqn:Ha; cbn [bind] in H; [discriminate | ].
    destruct (map_result f l) as [e | bs]; cbn [bind ret] in H; [discriminate | ].
    injection H as <-. constructor; auto.
Qed.

Lemma append_on_keeps (c c' : QuantumCircuit) (i : nat) (instr : Instruction) :
  append_on c i instr = inr c' ->
  cregs c' = cregs c /\ num_qubits c' = num_qubits c.
Proof.
  unfold append_on. destruct (i <? num_qubits c)%nat; [ | discriminate].
  intro H. injection H as <-. split; reflexivity.
Qed.

(** The register of a measurement circuit carries the synthesized name. *)
Lemma measurement_circuit_register (pauli_str : Pauli -> string) (n_qubits : nat)
  (pauli : Pauli) (mc : QuantumCircuit) (indices : list nat) :
  _measurement_circuit pauli_str n_qubits pauli = inr (mc, indices) ->
  cregs mc = [mkCreg ("__c_" ++ pauli_str pauli) (List.length indices)] /\
  num_qubits mc = n_qubits.
Proof.
  unfold _measurement_circuit.
  set (indices0 := if negb (np_any _) then [0%nat] else _).
  set (creg := mkCreg _ (List.length indices0)).
  destruct (py.for_each _ _ _) as [e | c] eqn:Hloop; cbn [bind ret]; [discriminate | ].
  intro H. injection H as <- <-.
  apply (for_each_invariant (fun c => cregs c = [creg] /\ num_qubits c = n_qubits))
    in Hloop; [exact Hloop | | split; reflexivity].
  intros [clbit i] s s' [Hc Hn] Hbody.
  destruct (py.getitem (pauli_x pauli) i) as [e | px]; cbn [bind] in Hbody; [discriminate | ].
  destruct px.
  - destruct (py.getitem (pauli_z pauli) i) as [e | pz]; cbn [bind] in Hbody; [discriminate | ].
    destruct pz.
    + destruct (append_on s i (SdgGate i)) as [e | s1] eqn:H1; cbn [bind] in Hbody; [discriminate | ].
      destruct (append_on s1 i (HGate i)) as [e | s2] eqn:H2; cbn [bind] in Hbody; [discriminate | ].
      apply append_on_keeps in H1 as [], H2 as [], Hbody as []. split; congruence.
    + cbn [bind ret] in Hbody.
      destruct (append_on s i (HGate i)) as [e | s2] eqn:H2; cbn [bind] in Hbody; [discriminate | ].
      apply append_on_keeps in H2 as [], Hbody as []. split; congruence.
  - cbn [bind ret] in Hbody. apply append_on_keeps in Hbody as []. split; congruence.
Qed.

Lemma measure_group_register (pauli_str : Pauli -> string) (circuit : QuantumCircuit)
  (basis : Pauli) (obs : PauliList) (param_index : list nat) (mc : QuantumCircuit) :
  measure_group pauli_str circuit basis obs param_index = inr mc ->
  (exists size, cregs mc = [mkCreg ("__c_" ++ pauli_str basis) size]) /\
  num_qubits mc = num_qubits circuit.
Proof.
  unfold measure_group.
  destruct (_measurement_circuit _ _ _) as [e | [c indices]] eqn:Hm; cbn [bind ret];
    [discriminate | ].
  intro H. injection H as <-.
  apply measurement_circuit_register in Hm as [Hc Hn]. cbn [set_metadata cregs num_qubits].
  split; [eauto | exact Hn].
Qed.

Lemma build_registers (options : Options) (pauli_str : Pauli -> string)
  (group_commuting : PauliList -> list PauliList) (circuit : QuantumCircuit)
  (observable : PauliList) (param_index : list nat) (mcs : list QuantumCircuit) :
  build_measurement_circuits options pauli_str group_commuting circuit observable param_index
  = inr mcs ->
  Forall (fun mc =>
            (exists basis size, cregs mc = [mkCreg ("__c_" ++ pauli_str basis) size]) /\
            num_qubits mc = num_qubits circuit) mcs.
Proof.
  unfold build_measurement_circuits. intro H.
  destruct (abelian_grouping options); apply map_result_inr in H;
    induction H as [ | a mc l l' Ha _ IH]; constructor; auto;
    apply measure_group_register in Ha as [[size Hc] Hn]; split; eauto.
Qed.

Lemma collides_by_registers (circuit : QuantumCircuit) (l l' : list QuantumCircuit) :
  map cregs l = map cregs l' ->
  existsb (collides circuit) l = existsb (collides circuit) l'.
Proof.
  revert l'; induction l as [ | a l IH]; intros [ | a' l'] H; try discriminate; [reflexivity | ].
  cbn [map] in H. injection H as Ha Hl.
  cbn [existsb]. rewrite (IH _ Hl). unfold collides. rewrite Ha. reflexivity.
Qed.

(** C9: the name synthesized for the register of measurement results is
    [__c_] followed by the basis; when it is the name of a register of the
    caller's circuit the construction raises QiskitError (once: nothing is
    tried again), and otherwise every measurement circuit is composed onto a
    copy of the caller's circuit. *)
Theorem register_conflict_is_fatal (options : Options) (pauli_str : Pauli -> string)
  (group_commuting : PauliList -> list PauliList)
  (passmanager_run : list QuantumCircuit -> list QuantumCircuit)
  (circuit : QuantumCircuit) (observable : PauliList) (param_index : list nat)
  (mcs : list QuantumCircuit) :
  build_measurement_circuits options pauli_str group_commuting circuit observable param_index
  = inr mcs ->
  map cregs (passmanager_run mcs) = map cregs mcs ->
  map num_qubits (passmanager_run mcs) = map num_qubits mcs ->
  Forall (fun mc => exists basis size, cregs mc = [mkCreg ("__c_" ++ pauli_str basis) size])
    mcs /\
  _create_measurement_circuits options pauli_str group_commuting passmanager_run
    circuit observable param_index
  = if existsb (collides circuit) mcs
    then inl QiskitError
    else inr (map (composed_onto circuit) (passmanager_run mcs)).
Proof.
  intros Hbuild Hregs Hqubits.
  pose proof (build_registers _ _ _ _ _ _ _ Hbuild) as Hmcs.
  split.
  - eapply Forall_impl; [ | exact Hmcs]. intros mc [Hc _]. exact Hc.
  - unfold _create_measurement_circuits. rewrite Hbuild. cbn [bind].
    rewrite combine_all, (collides_by_registers _ _ _ Hregs); [reflexivity | ].
    apply Forall_and.
    + apply (Forall_map cregs (fun regs => regs <> [])). rewrite Hregs. apply Forall_map.
      eapply Forall_impl; [ | exact Hmcs]. intros mc [[basis [size Hc]] _].
      rewrite Hc. discriminate.
    + apply (Forall_map num_qubits (fun n => (n <= num_qubits circuit)%nat)).
      rewrite Hqubits. apply Forall_map.
      eapply Forall_impl; [ | exact Hmcs]. intros mc [_ Hn]. rewrite Hn. apply Nat.le_refl.
Qed.

Lemma register_conflict_is_fatal_witness :
  let options := mkOptions 1%float false None in
  let pauli_str := fun _ : Pauli => "Z"%string in
  let circuit := mkCircuit 1 [mkCreg "__c_Z" 1] [] (UserMetadata []) in
  let zed := mkPauli [true] [false] 0 in
  let creg := mkCreg "__c_Z" 1 in
  let mcs := [mkCircuit 1 [creg] [Measure 0 (creg, 0%nat)] (MeasMetadata [zed] [zed] [])] in
  Forall (fun mc => exists basis size, cregs mc = [mkCreg ("__c_" ++ pauli_str basis) size])
    mcs /\
  _create_measurement_circuits options pauli_str (fun _ => []) (fun l => l)
    circuit [zed] []
  = if existsb (collides circuit) mcs
    then inl QiskitError
    else inr (map (composed_onto circuit) mcs).
Proof.
  apply (register_conflict_is_fatal (mkOptions 1%float false None)
           (fun _ : Pauli => "Z"%string) (fun _ => []) (fun l => l)
           (mkCircuit 1 [mkCreg "__c_Z" 1] [] (UserMetadata [])) [mkPauli [true] [false] 0] []);
    reflexivity.
Defined.

(** ** Dicts *)

Section DictFacts.

Variables K V : Type.
Variable eqb : K -> K -> bool.
Hypothesis eqb_eq : forall a b, eqb a b = true <-> a = b.

Lemma eqb_refl_true (k : K) : eqb k k = true.
Proof. apply eqb_eq. reflexivity. Qed.

Lemma dict_get_set (d : list (K * V)) (k k' : K) (v : V) :
  dict_get eqb (dict_set eqb d k v) k' = if eqb k k' then ret v else dict_get eqb d k'.
Proof.
  induction d as [ | [k0 v0] d IH]; cbn [dict_set dict_get].
  - destruct (eqb k k'); reflexivity.
  - destruct (eqb k0 k) eqn:E0; cbn [dict_get].
    + apply eqb_eq in E0. subst k0. destruct (eqb k k'); reflexivity.
    + destruct (eqb k0 k') eqn:E1; [ | exact IH].
      apply eqb_eq in E1. subst k'.
      destruct (eqb k k0) eqn:E2; [ | reflexivity].
      apply eqb_eq in E2. subst k0. rewrite eqb_refl_true in E0. discriminate.
Qed.

Lemma dict_get_In (d : list (K * V)) (k : K) (v : V) :
  dict_get eqb d k = inr v -> In (k, v) d.
Proof.
  induction d as [ | [k0 v0] d IH]; cbn [dict_get]; [discriminate | ].
  destruct (eqb k0 k) eqn:E0.
  - apply eqb_eq in E0. subst k0. intro H. injection H as <-. left. reflexivity.
  - intro H. right. auto.
Qed.

Lemma In_dict_get (d : list (K * V)) (k : K) (v : V) :
  NoDup (map fst d) -> In (k, v) d -> dict_get eqb d k = inr v.
Proof.
  induction d as [ | [k0 v0] d IH]; cbn [map fst dict_get]; intros Hnd Hin; [contradiction | ].
  inversion Hnd as [ | ? ? Hnot Hnd']; subst.
  destruct Hin as [E | Hin].
  - injection E as -> ->. rewrite eqb_refl_true. reflexivity.
  - destruct (eqb k0 k) eqn:E0; [ | auto].
    apply eqb_eq in E0. subst k0. exfalso. apply Hnot.
    apply (in_map fst) in Hin. exact Hin.
Qed.

Lemma dict_set_keys (d : list (K * V)) (k : K) (v : V) :
  map fst (dict_set eqb d k v) = map fst d \/
  (~ In k (map fst d) /\ map fst (dict_set eqb d k v) = map fst d ++ [k]).
Proof.
  induction d as [ | [k0 v0] d IH]; cbn [dict_set map fst].
  - right. split; [intros [] | reflexivity].
  - destruct (eqb k0 k) eqn:E0; cbn [map fst]; [left; reflexivity | ].
    destruct IH as [IH | [Hnot IH]]; [left | right]; rewrite IH; [reflexivity | ].
    split; [ | reflexivity].
    intros [E | Hin]; [ | contradiction].
    subst k0. rewrite eqb_refl_true in E0. discriminate.
Qed.

Lemma dict_set_NoDup (d : list (K * V)) (k : K) (v : V) :
  NoDup (map fst d) -> NoDup (map fst (dict_set eqb d k v)).
Proof.
  intro Hnd. destruct (dict_set_keys d k v) as [E | [Hnot E]]; rewrite E; [exact Hnd | ].
  apply NoDup_app; [exact Hnd | repeat constructor; intros [] | ].
  intros x Hx [<- | []]. contradiction.
Qed.

End DictFacts.


Lemma dict_set_keys_old {K V : Type} (eqb : K -> K -> bool) :
  (forall a b, eqb a b = true <-> a = b) ->
  forall (d : list (K * V)) (k : K) (v : V),
    In k (map fst d) -> map fst (dict_set eqb d k v) = map fst d.
Proof.
  intros eqb_eq d k v Hin.
  destruct (dict_set_keys _ _ eqb eqb_eq d k v) as [E | [Hnot _]]; [exact E | contradiction].
Qed.

Lemma dict_set_keys_new {K V : Type} (eqb : K -> K -> bool) :
  (forall a b, eqb a b = true <-> a = b) ->
  forall (d : list (K * V)) (k : K) (v : V),
    ~ In k (map fst d) -> map fst (dict_set eqb d k v) = map fst d ++ [k].
Proof.
  intros eqb_eq. induction d as [ | [k0 v0] d IH]; intros k v Hnot; cbn [dict_set map fst].
  - reflexivity.
  - cbn [map fst] in Hnot. destruct (eqb k0 k) eqn:E0.
    + apply eqb_eq in E0. subst k0. exfalso. apply Hnot. left. reflexivity.
    + cbn [map fst app]. rewrite IH; [reflexivity | ].
      intro Hin. apply Hnot. right. exact Hin.
Qed.

(** ** Shots and batches *)

(** When the shots of a pub are computed, they are the ceiling of the
    binary64 quotient [1.0 / precision**2]. *)
Lemma shots_of_binary64 (pub : EstimatorPub) (n : Z) :
  shots_of pub = inr n -> n = binary64_shots (pub_precision pub).
Proof.
  unfold shots_of, pyfloat.pow2, pyfloat.truediv, binary64_shots, ceiling.
  destruct (is_finite (pub_precision pub) && is_infinity (pub_precision pub * pub_precision pub));
    cbn [bind raise ret]; [discriminate | ].
  destruct (is_zero (pub_precision pub * pub_precision pub)); cbn [bind raise ret];
    [discriminate | ].
  intro H. rewrite H. reflexivity.
Qed.

Example shots_of_examples :
  shots_of (Demo.pub_of 0x1p-6%float) = inr 4096 /\
  shots_of (Demo.pub_of Demo.tenth) = inr 100 /\
  shots_of (Demo.pub_of 0x1p-4%float) = inr 256.
Proof. repeat split; vm_compute; reflexivity. Qed.

(** What Python raises for the precisions that no number of shots fits. *)
Example shots_of_failures :
  shots_of (Demo.pub_of 0%float) = inl ZeroDivisionError /\
  shots_of (Demo.pub_of nan) = inl ValueError /\
  shots_of (Demo.pub_of 0x1p600%float) = inl OverflowError /\
  shots_of (Demo.pub_of 0x1p-600%float) = inl ZeroDivisionError /\
  shots_of (Demo.pub_of 0x1p-520%float) = inl OverflowError /\
  shots_of (Demo.pub_of infinity) = inr 0.
Proof. repeat split; vm_compute; reflexivity. Qed.

Lemma batched_set (d : list (Z * list nat)) (shots0 : Z) (i0 : nat) (shots : Z) (i : nat) :
  batched (dict_set Z.eqb d shots0 (dict_get_default Z.eqb d shots0 [] ++ [i0])) shots i
  <-> batched d shots i \/ (i = i0 /\ shots = shots0).
Proof.
  unfold batched. rewrite (dict_get_set _ _ _ Z.eqb_eq).
  destruct (Z.eqb_spec shots0 shots) as [E | N].
  - subst shots0. unfold dict_get_default.
    destruct (dict_get Z.eqb d shots) as [e | l]; split.
    + intros [lst [H Hin]]. injection H as <-. cbn [app] in Hin.
      destruct Hin as [<- | []]. right. split; reflexivity.
    + intros [[lst [H _]] | [-> _]]; [discriminate | ].
      eexists. split; [reflexivity | ]. left. reflexivity.
    + intros [lst [H Hin]]. injection H as <-. apply in_app_or in Hin as [Hin | [<- | []]].
      * left. eauto.
      * right. split; reflexivity.
    + intros [[lst [H Hin]] | [-> _]]; (eexists; split; [reflexivity | ]); apply in_or_app.
      * injection H as <-. left. exact Hin.
      * right. left. reflexivity.
  - split.
    + intros H. left. exact H.
    + intros [H | [_ E]]; [exact H | ]. symmetry in E. contradiction.
Qed.

Lemma consolidate_loop (sh : nat -> Z) (items : list (nat * EstimatorPub)) :
  Forall (fun it => shots_of (snd it) = inr (sh (fst it))) items ->
  forall d, NoDup (map fst d) ->
  exists d',
    py.for_each items
      (fun '(i, pub) pub_dict =>
         shots <- shots_of pub ;;
         let lst := dict_get_default Z.eqb pub_dict shots [] in
         ret (dict_set Z.eqb pub_dict shots (lst ++ [i])))
      d = inr d' /\
    NoDup (map fst d') /\
    forall shots i,
      batched d' shots i <-> batched d shots i \/ (In i (map fst items) /\ shots = sh i).
Proof.
  induction 1 as [ | [i0 pub0] items H0 _ IH]; intros d Hnd; cbn [py.for_each].
  - exists d. repeat split; auto. intros [H | [[] _]]. exact H.
  - cbn [fst snd] in H0. rewrite H0. cbn [bind ret].
    destruct (IH _ (dict_set_NoDup _ _ _ Z.eqb_eq d (sh i0)
                      (dict_get_default Z.eqb d (sh i0) [] ++ [i0]) Hnd))
      as [d' [Hrun [Hnd' Hmem]]].
    exists d'. repeat split; auto.
    + intro H. apply Hmem in H as [H | [Hin ->]].
      * apply batched_set in H as [H | [-> ->]]; [left; exact H | ].
        right. split; [left; reflexivity | reflexivity].
      * right. split; [right; exact Hin | reflexivity].
    + intros [H | [[<- | Hin] ->]]; apply Hmem.
      * left. apply batched_set. left. exact H.
      * left. apply batched_set. right. split; reflexivity.
      * right. split; [exact Hin | reflexivity].
Qed.


(** ** The batches of pubs *)

Lemma dict_set_In_key {K V : Type} (eqb : K -> K -> bool) :
  (forall a b, eqb a b = true <-> a = b) ->
  forall (d : list (K * V)) (k k1 : K) (v v1 : V),
    In (k1, v1) (dict_set eqb d k v) -> (k1 = k /\ v1 = v) \/ In (k1, v1) d.
Proof.
  intros eqb_eq. induction d as [ | [k0 v0] d IH]; intros k k1 v v1; cbn [dict_set].
  - intros [E | []]. injection E as <- <-. left. split; reflexivity.
  - destruct (eqb k0 k) eqn:E0.
    + apply eqb_eq in E0. subst k0.
      intros [E | Hin]; [injection E as <- <-; left; split; reflexivity | right; right; exact Hin].
    + intros [E | Hin]; [right; left; exact E | ].
      destruct (IH _ _ _ _ Hin) as [E | Hd]; [left; exact E | right; right; exact Hd].
Qed.

Lemma dict_set_In_new {K V : Type} (eqb : K -> K -> bool) :
  (forall a b, eqb a b = true <-> a = b) ->
  forall (d : list (K * V)) (k : K) (v : V), In (k, v) (dict_set eqb d k v).
Proof.
  intros eqb_eq d k v. apply (dict_get_In _ _ eqb eqb_eq).
  rewrite (dict_get_set _ _ eqb eqb_eq), (eqb_refl_true _ eqb eqb_eq). reflexivity.
Qed.

Lemma dict_set_In_old {K V : Type} (eqb : K -> K -> bool) :
  (forall a b, eqb a b = true <-> a = b) ->
  forall (d : list (K * V)) (k k1 : K) (v v1 : V),
    NoDup (map fst d) -> k1 <> k -> In (k1, v1) d -> In (k1, v1) (dict_set eqb d k v).
Proof.
  intros eqb_eq d k k1 v v1 Hnd Hne Hin. apply (dict_get_In _ _ eqb eqb_eq).
  rewrite (dict_get_set _ _ eqb eqb_eq).
  destruct (eqb k k1) eqn:E; [apply eqb_eq in E; congruence | ].
  apply (In_dict_get _ _ eqb eqb_eq); assumption.
Qed.

Lemma increasing_snoc (l : list nat) (a : nat) :
  increasing l -> Forall (fun i => (i < a)%nat) l -> increasing (l ++ [a]).
Proof.
  unfold increasing. induction 1 as [ | x l Hs IH Hx]; intro Hall; cbn [app].
  - constructor; constructor.
  - apply Forall_cons_iff in Hall as [Hxa Hall].
    constructor; [apply IH, Hall | ].
    apply Forall_app. split; [exact Hx | constructor; [exact Hxa | constructor]].
Qed.

(** The loop of [consolidate] from index [length pre] on. *)
Lemma consolidate_order_loop (pubs : list EstimatorPub) :
  forall (rest pre : list EstimatorPub) (d d' : list (Z * list nat)),
    pubs = pre ++ rest ->
    NoDup (map fst d) ->
    (forall entry, In entry d ->
       batch_of pubs entry /\ Forall (fun i => (i < List.length pre)%nat) (snd entry)) ->
    (forall i, (i < List.length pre)%nat -> exists entry, In entry d /\ In i (snd entry)) ->
    py.for_each (combine (seq (List.length pre) (List.length rest)) rest)
      (fun '(i, pub) pub_dict =>
         shots <- shots_of pub ;;
         let lst := dict_get_default Z.eqb pub_dict shots [] in
         ret (dict_set Z.eqb pub_dict shots (lst ++ [i])))
      d
    = inr d' ->
    NoDup (map fst d') /\
    (forall entry, In entry d' -> batch_of pubs entry) /\
    (forall i, (i < List.length pubs)%nat -> exists entry, In entry d' /\ In i (snd entry)).
Proof.
  induction rest as [ | pub rest IH]; intros pre d d' Hpubs Hnd Hbatch Hcover Hrun.
  - cbn [List.length seq combine py.for_each] in Hrun. injection Hrun as <-.
    rewrite Hpubs, app_nil_r. split; [exact Hnd | ]. split; [ | exact Hcover].
    intros entry Hin. rewrite <- (app_nil_r pre), <- Hpubs. apply Hbatch, Hin.
  - cbn [List.length seq combine py.for_each] in Hrun.
    destruct (shots_of pub) as [e | shots] eqn:Hs; cbn [bind ret] in Hrun; [discriminate | ].
    set (a := List.length pre) in *.
    set (lst := dict_get_default Z.eqb d shots []) in *.
    assert (Hpub : nth_error pubs a = Some pub).
    { rewrite Hpubs. unfold a. rewrite nth_error_app2 by lia. rewrite Nat.sub_diag. reflexivity. }
    assert (Hlst : lst = [] \/ In (shots, lst) d).
    { subst lst. unfold dict_get_default.
      destruct (dict_get Z.eqb d shots) as [e | l] eqn:Hg; [left; reflexivity | right].
      apply (dict_get_In _ _ Z.eqb Z.eqb_eq). exact Hg. }
    assert (Hold : lst = [] \/ (batch_of pubs (shots, lst) /\
                                Forall (fun i => (i < a)%nat) lst)).
    { destruct Hlst as [E | Hin]; [left; exact E | right]. apply (Hbatch _ Hin). }
    assert (Hnew : batch_of pubs (shots, lst ++ [a]) /\
                   Forall (fun i => (i < S a)%nat) (lst ++ [a])).
    { destruct Hold as [E | [[Hne [Hinc Hmem]] Hlt]].
      - rewrite E. cbn [app]. split; [ | repeat constructor].
        split; [discriminate | ]. split; [repeat constructor | ].
        cbn [snd fst]. intros i [<- | []]. exists pub. split; assumption.
      - cbn [snd fst] in *. split.
        + split; [intro E; apply app_eq_nil in E as [_ E]; discriminate | ].
          split; [apply increasing_snoc; assumption | ].
          cbn [snd fst]. intros i Hi. apply in_app_or in Hi as [Hi | [<- | []]].
          * apply Hmem, Hi.
          * exists pub. split; assumption.
        + apply Forall_app. split.
          * eapply Forall_impl; [ | exact Hlt]. cbn beta. intros; lia.
          * repeat constructor. }
    apply (IH (pre ++ [pub]) (dict_set Z.eqb d shots (lst ++ [a])) d').
    + rewrite <- app_assoc. exact Hpubs.
    + apply (dict_set_NoDup _ _ Z.eqb Z.eqb_eq). exact Hnd.
    + intros [s l] Hin. rewrite length_app. cbn [List.length]. rewrite Nat.add_1_r. fold a.
      apply (dict_set_In_key Z.eqb Z.eqb_eq) in Hin as [[-> ->] | Hin]; [exact Hnew | ].
      destruct (Hbatch _ Hin) as [Hb Hlt]. split; [exact Hb | ].
      eapply Forall_impl; [ | exact Hlt]. cbn beta. intros; lia.
    + intros i Hi. rewrite length_app in Hi. cbn [List.length] in Hi. fold a in Hi.
      destruct (Nat.eq_dec i a) as [-> | Hne].
      * exists (shots, lst ++ [a]). split; [apply (dict_set_In_new Z.eqb Z.eqb_eq) | ].
        cbn [snd]. apply in_or_app. right. left. reflexivity.
      * destruct (Hcover i) as [[s l] [Hin Hil]]; [lia | ]. cbn [snd] in Hil.
        destruct (Z.eq_dec s shots) as [-> | Hs'].
        -- exists (shots, lst ++ [a]). split; [apply (dict_set_In_new Z.eqb Z.eqb_eq) | ].
           cbn [snd]. apply in_or_app. left.
           assert (E : lst = l).
           { subst lst. unfold dict_get_default.
             rewrite (In_dict_get _ _ Z.eqb Z.eqb_eq d shots l Hnd Hin). reflexivity. }
           rewrite E. exact Hil.
        -- exists (s, l). split; [ | exact Hil].
           apply (dict_set_In_old Z.eqb Z.eqb_eq); assumption.
    + rewrite length_app. cbn [List.length]. rewrite Nat.add_1_r. exact Hrun.
Qed.

Lemma consolidate_order (pubs : list EstimatorPub) (pub_dict : list (Z * list nat)) :
  consolidate pubs = inr pub_dict ->
  NoDup (map fst pub_dict) /\
  (forall entry, In entry pub_dict -> batch_of pubs entry) /\
  (forall i, (i < List.length pubs)%nat ->
     exists entry, In entry pub_dict /\ In i (snd entry)).
Proof.
  intro Hrun. unfold consolidate in Hrun.
  apply (consolidate_order_loop pubs pubs [] [] pub_dict); auto.
  - constructor.
  - intros entry [].
  - cbn [List.length]. intros i Hi. lia.
Qed.

(** X17: the batches of [_run] are a partition of the pubs by shots: every
    number of shots has one batch, every batch is not empty and lists, in
    increasing order, indices of pubs whose precision asks for the shots of
    the batch, and every pub is in a batch. *)
Theorem batches_partition_the_pubs (pubs : list EstimatorPub)
  (pub_dict : list (Z * list nat)) :
  consolidate pubs = inr pub_dict ->
  NoDup (map fst pub_dict) /\
  (forall entry, In entry pub_dict -> batch_of pubs entry) /\
  (forall i, (i < List.length pubs)%nat ->
     exists entry, In entry pub_dict /\ In i (snd entry)) /\
  (forall entry entry' i,
     In entry pub_dict -> In entry' pub_dict ->
     In i (snd entry) -> In i (snd entry') -> entry = entry').
Proof.
  intro Hrun. destruct (consolidate_order pubs pub_dict Hrun) as [Hnd [Hbatch Hcover]].
  split; [exact Hnd | ]. split; [exact Hbatch | ]. split; [exact Hcover | ].
  intros [s l] [s' l'] i Hin Hin' Hi Hi'.
  destruct (Hbatch _ Hin) as [_ [_ Hmem]]. destruct (Hbatch _ Hin') as [_ [_ Hmem']].
  destruct (Hmem i Hi) as [pub [Hp Hs]]. destruct (Hmem' i Hi') as [pub' [Hp' Hs']].
  cbn [fst snd] in *. assert (s = s') by congruence. subst s'.
  f_equal.
  pose proof (In_dict_get _ _ Z.eqb Z.eqb_eq pub_dict s l Hnd Hin) as G.
  pose proof (In_dict_get _ _ Z.eqb Z.eqb_eq pub_dict s l' Hnd Hin') as G'.
  congruence.
Qed.


Lemma batches_partition_the_pubs_witness :
  exists pub_dict,
    consolidate [Demo.pub_of Demo.tenth; Demo.pub_of 0x1p-6%float; Demo.pub_of Demo.tenth]
    = inr pub_dict /\
    NoDup (map fst pub_dict) /\
    (forall entry, In entry pub_dict ->
       batch_of [Demo.pub_of Demo.tenth; Demo.pub_of 0x1p-6%float; Demo.pub_of Demo.tenth] entry) /\
    (forall i, (i < 3)%nat -> exists entry, In entry pub_dict /\ In i (snd entry)) /\
    (forall entry entry' i,
       In entry pub_dict -> In entry' pub_dict ->
       In i (snd entry) -> In i (snd entry') -> entry = entry').
Proof.
  assert (E : consolidate [Demo.pub_of Demo.tenth; Demo.pub_of 0x1p-6%float; Demo.pub_of Demo.tenth]
              = inr [(100, [0%nat; 2%nat]); (4096, [1%nat])])
    by (vm_compute; reflexivity).
  eexists. split; [exact E | ].
  apply (batches_partition_the_pubs _ _ E).
Defined.

(** *** The order of the batches *)

Lemma first_occurrences_In (l : list Z) (x : Z) : In x (first_occurrences l) <-> In x l.
Proof.
  induction l as [ | y l IH]; cbn [first_occurrences]; [tauto | ].
  split.
  - intros [E | Hin]; [left; exact E | ]. apply filter_In in Hin as [Hin _].
    right. apply IH, Hin.
  - intros [E | Hin]; [left; exact E | ].
    destruct (Z.eq_dec x y) as [-> | Hne]; [left; reflexivity | right].
    apply filter_In. split; [apply IH, Hin | ].
    apply negb_true_iff, Z.eqb_neq, Hne.
Qed.

Lemma filter_snoc {A : Type} (f : A -> bool) (l : list A) (x : A) :
  filter f (l ++ [x]) = if f x then filter f l ++ [x] else filter f l.
Proof.
  rewrite filter_app. cbn [filter]. destruct (f x); [reflexivity | apply app_nil_r].
Qed.

Lemma first_occurrences_snoc (l : list Z) (x : Z) :
  first_occurrences (l ++ [x])
  = if existsb (Z.eqb x) l then first_occurrences l else first_occurrences l ++ [x].
Proof.
  induction l as [ | y l IH]; cbn [app first_occurrences existsb]; [reflexivity | ].
  rewrite IH. destruct (Z.eqb_spec x y) as [-> | Hne]; cbn [orb].
  - destruct (existsb (Z.eqb y) l); [reflexivity | ].
    rewrite filter_snoc, Z.eqb_refl. reflexivity.
  - destruct (existsb (Z.eqb x) l); [reflexivity | ].
    rewrite filter_snoc.
    destruct (Z.eqb_spec x y) as [E | _]; [contradiction | reflexivity].
Qed.

Lemma existsb_eqb_In (x : Z) (l : list Z) : existsb (Z.eqb x) l = true <-> In x l.
Proof.
  rewrite existsb_exists. split.
  - intros [y [Hin E]]. apply Z.eqb_eq in E. subst y. exact Hin.
  - intro Hin. exists x. split; [exact Hin | apply Z.eqb_refl].
Qed.

(** The loop of [consolidate]: the keys of [pub_dict] are the numbers of
    shots of the pubs seen so far, in the order of their first occurrence. *)
Lemma consolidate_keys_loop :
  forall (items : list (nat * EstimatorPub)) (seen : list Z) (d d' : list (Z * list nat)),
    map fst d = first_occurrences seen ->
    py.for_each items
      (fun '(i, pub) pub_dict =>
         shots <- shots_of pub ;;
         let lst := dict_get_default Z.eqb pub_dict shots [] in
         ret (dict_set Z.eqb pub_dict shots (lst ++ [i])))
      d
    = inr d' ->
    exists shots_list,
      Forall2 (fun item shots => shots_of (snd item) = inr shots) items shots_list /\
      map fst d' = first_occurrences (seen ++ shots_list).
Proof.
  induction items as [ | [i pub] items IH]; intros seen d d' Hkeys Hrun;
    cbn [py.for_each] in Hrun.
  - injection Hrun as <-. exists []. rewrite app_nil_r. split; [constructor | exact Hkeys].
  - destruct (shots_of pub) as [e | shots] eqn:Hs; cbn [bind ret] in Hrun; [discriminate | ].
    apply (IH (seen ++ [shots])) in Hrun as [shots_list [Hall Hk]].
    + exists (shots :: shots_list). split; [constructor; assumption | ].
      rewrite Hk, <- app_assoc. reflexivity.
    + rewrite first_occurrences_snoc.
      destruct (existsb (Z.eqb shots) seen) eqn:E.
      * rewrite (dict_set_keys_old Z.eqb Z.eqb_eq); [exact Hkeys | ].
        rewrite Hkeys. apply first_occurrences_In, existsb_eqb_In, E.
      * rewrite (dict_set_keys_new Z.eqb Z.eqb_eq); [rewrite Hkeys; reflexivity | ].
        rewrite Hkeys. intro Hin. apply (proj1 (first_occurrences_In seen shots)) in Hin.
        apply (proj2 (existsb_eqb_In shots seen)) in Hin. congruence.
Qed.

Lemma Forall2_combine_seq {A C : Type} (Q : A -> C -> Prop) (l : list A) (l' : list C) :
  forall n,
    Forall2 (fun item c => Q (snd item) c) (combine (seq n (List.length l)) l) l' ->
    Forall2 Q l l'.
Proof.
  revert l'. induction l as [ | a l IH]; intros l' n H; cbn [List.length seq combine] in H.
  - inversion H. constructor.
  - inversion H as [ | x c xs cs Hxc Hrest]; subst. constructor; [exact Hxc | ].
    apply (IH _ (S n)), Hrest.
Qed.

Lemma consolidate_keys (pubs : list EstimatorPub) (pub_dict : list (Z * list nat)) :
  consolidate pubs = inr pub_dict ->
  exists shots_list,
    Forall2 (fun pub shots => shots_of pub = inr shots) pubs shots_list /\
    map fst pub_dict = first_occurrences shots_list.
Proof.
  intro Hrun. unfold consolidate in Hrun.
  apply (consolidate_keys_loop _ []) in Hrun as [shots_list [Hall Hk]]; [ | reflexivity].
  exists shots_list. split; [ | exact Hk].
  eapply Forall2_combine_seq. exact Hall.
Qed.

(** ** Calls of the backend *)

Section Emits.

Variable B : Type.
Variable P : RunCall -> Prop.

Lemma emits_ret {A : Type} (a : A) : emits P (retM B a).
Proof. intro w. exists []. rewrite app_nil_r. split; [reflexivity | constructor]. Qed.

Lemma emits_lift {A : Type} (r : result A) : emits P (liftM B r).
Proof. intro w. exists []. rewrite app_nil_r. split; [reflexivity | constructor]. Qed.

Lemma emits_bind {A C : Type} (m : M B A) (k : A -> M B C) :
  emits P m ->
  (forall a w w', m w = (inr a, w') -> emits P (k a)) ->
  emits P (bindM B m k).
Proof.
  intros Hm Hk w. unfold bindM. destruct (Hm w) as [new1 [E1 F1]].
  destruct (m w) as [[e | a] w1] eqn:Hw; cbn [snd] in *.
  - exists new1. auto.
  - destruct (Hk a w w1 Hw w1) as [new2 [E2 F2]].
    exists (new1 ++ new2). rewrite E2, E1, app_assoc. split; [reflexivity | ].
    apply Forall_app. auto.
Qed.

Lemma emits_bind_lift {A C : Type} (r : result A) (k : A -> M B C) :
  (forall a, r = inr a -> emits P (k a)) ->
  emits P (bindM B (liftM B r) k).
Proof.
  intro Hk. apply emits_bind; [apply emits_lift | ].
  intros a w w' H. unfold liftM in H. injection H as H _. auto.
Qed.

Lemma emits_for_each {A S : Type} (xs : list A) (body : A -> S -> M B S) :
  (forall x, In x xs -> forall s, emits P (body x s)) ->
  forall s, emits P (for_eachM B xs body s).
Proof.
  induction xs as [ | x xs IH]; intros Hbody s; cbn [for_eachM].
  - apply emits_ret.
  - apply emits_bind; [apply Hbody; left; reflexivity | ].
    intros s' _ _ _. apply IH. intros y Hy. apply Hbody. right. exact Hy.
Qed.

Lemma emits_submit (backend_run : B -> RunCall -> result Job * B) (call : RunCall) :
  P call -> emits P (submit B backend_run call).
Proof.
  intros Hc w. unfold submit. destruct (backend_run (backend B w) call) as [job b].
  exists [call]. cbn [snd calls]. split; [reflexivity | repeat constructor; exact Hc].
Qed.

End Emits.

Lemma emits_weaken {B A : Type} (P Q : RunCall -> Prop) (m : M B A) :
  (forall call, P call -> Q call) -> emits P m -> emits Q m.
Proof.
  intros HPQ Hm w. destruct (Hm w) as [new [E F]]. exists new. split; [exact E | ].
  eapply Forall_impl; eauto.
Qed.

Lemma firstn_In {A : Type} (n : nat) (l : list A) (x : A) : In x (firstn n l) -> In x l.
Proof. intro H. rewrite <- (firstn_skipn n l). apply in_or_app. left. exact H. Qed.

Lemma skipn_In {A : Type} (n : nat) (l : list A) (x : A) : In x (skipn n l) -> In x l.
Proof. intro H. rewrite <- (firstn_skipn n l). apply in_or_app. right. exact H. Qed.

Lemma chunks_upto_incl {A : Type} (fuel n : nat) :
  forall (l batch : list A), In batch (chunks_upto fuel n l) -> incl batch l.
Proof.
  induction fuel as [ | fuel IH]; intros l batch Hin; cbn [chunks_upto] in Hin.
  - destruct l; contradiction.
  - destruct l as [ | a l]; [contradiction | ].
    destruct Hin as [<- | Hin].
    + intros x Hx. eapply firstn_In; exact Hx.
    + intros x Hx. apply (IH _ _ Hin) in Hx. eapply skipn_In; exact Hx.
Qed.

Lemma Forall2_In_r {A C : Type} (R : A -> C -> Prop) (l : list A) (l' : list C) (c : C) :
  Forall2 R l l' -> In c l' -> exists a, In a l /\ R a c.
Proof.
  induction 1 as [ | a c0 l l' Hac _ IH]; intros Hin; [contradiction | ].
  destruct Hin as [<- | Hin].
  - exists a. split; [left; reflexivity | exact Hac].
  - destruct (IH Hin) as [a' [Ha' Hr]]. exists a'. split; [right; exact Ha' | exact Hr].
Qed.


(** ** The batches of [_run_circuits] *)

Lemma chunks_upto_concat {A : Type} (n : nat) :
  forall (fuel : nat) (l : list A),
    (List.length l <= fuel)%nat -> List.concat (chunks_upto fuel (S n) l) = l.
Proof.
  induction fuel as [ | fuel IH]; intros l Hl.
  - destruct l; [reflexivity | cbn [List.length] in Hl; lia].
  - destruct l as [ | a l]; [reflexivity | ].
    cbn [chunks_upto List.concat]. rewrite IH.
    + apply firstn_skipn.
    + cbn [skipn List.length] in *. rewrite length_skipn. lia.
Qed.

Lemma chunks_upto_bounds {A : Type} (n : nat) :
  forall (fuel : nat) (l : list A),
    Forall (fun b => (0 < List.length b <= S n)%nat) (chunks_upto fuel (S n) l).
Proof.
  induction fuel as [ | fuel IH]; intro l; [constructor | ].
  destruct l as [ | a l]; [constructor | ].
  cbn [chunks_upto]. constructor; [ | apply IH].
  rewrite length_firstn. cbn [List.length]. lia.
Qed.

Lemma chunks_upto_full {A : Type} (n : nat) :
  forall (fuel : nat) (l : list A) (k : nat),
    (S k < List.length (chunks_upto fuel (S n) l))%nat ->
    List.length (nth k (chunks_upto fuel (S n) l) []) = S n.
Proof.
  induction fuel as [ | fuel IH]; intros l k Hk.
  - cbn [chunks_upto List.length] in Hk. lia.
  - destruct l as [ | a l]; [cbn [chunks_upto List.length] in Hk; lia | ].
    cbn [chunks_upto List.length] in Hk. cbn [chunks_upto].
    destruct k as [ | k].
    + cbn [nth]. rewrite length_firstn.
      destruct (chunks_upto fuel (S n) (skipn (S n) (a :: l))) as [ | c cs] eqn:E;
        [cbn [List.length] in Hk; lia | ].
      destruct (skipn (S n) (a :: l)) as [ | s rest] eqn:Es.
      * destruct fuel; discriminate.
      * assert (Hlen : List.length (skipn (S n) (a :: l)) = S (List.length rest))
          by (rewrite Es; reflexivity).
        rewrite length_skipn in Hlen. lia.
    + cbn [nth]. apply IH. lia.
Qed.

Lemma map_result_length {A C : Type} (f : A -> result C) (l : list A) (l' : list C) :
  map_result f l = inr l' -> List.length l' = List.length l.
Proof.
  intro H. apply map_result_inr in H. symmetry. eapply Forall2_length; exact H.
Qed.

Lemma map_result_inl {A C : Type} (f : A -> result C) (l : list A) (e : exn) :
  map_result f l = inl e -> exists a, In a l /\ f a = inl e.
Proof.
  induction l as [ | a l IH]; cbn [map_result]; [discriminate | ].
  destruct (f a) as [e1 | c] eqn:Ha; cbn [bind].
  - intro H. injection H as <-. exists a. split; [left; reflexivity | exact Ha].
  - destruct (map_result f l) as [e2 | cs]; cbn [bind ret]; [ | discriminate].
    intro H. injection H as <-. destruct (IH eq_refl) as [a' [Hin Ha']].
    exists a'. split; [right; exact Hin | exact Ha'].
Qed.


Lemma batches_of_concat (max_circuits : option nat) (circuits : list QuantumCircuit) :
  List.concat (batches_of max_circuits circuits) = map cleared circuits.
Proof.
  unfold batches_of. destruct max_circuits as [[ | n] | ]; cbn [List.concat];
    rewrite ?app_nil_r; try reflexivity.
  apply chunks_upto_concat. lia.
Qed.

Lemma batches_of_incl (max_circuits : option nat) (circuits batch : list QuantumCircuit) :
  In batch (batches_of max_circuits circuits) -> incl batch (map cleared circuits).
Proof.
  unfold batches_of. destruct max_circuits as [[ | n] | ]; intro Hb.
  - destruct Hb as [<- | []]. apply incl_refl.
  - eapply chunks_upto_incl. exact Hb.
  - destruct Hb as [<- | []]. apply incl_refl.
Qed.

Lemma submit_step {B : Type} (backend_run : B -> RunCall -> result Job * B)
  (shots : Z) (seed : option Z) (batch : list QuantumCircuit)
  (batches : list (list QuantumCircuit)) (jobs : list Job) (w : World B) :
  for_eachM B (batch :: batches)
    (fun batch jobs =>
       bindM B (submit B backend_run (mkCall batch shots seed))
         (fun job => retM B (jobs ++ [job])))
    jobs w
  = match backend_run (backend B w) (mkCall batch shots seed) with
    | (inl e, b) => (inl e, mkWorld B b (calls B w ++ [mkCall batch shots seed]))
    | (inr job, b) =>
        for_eachM B batches
          (fun batch jobs =>
             bindM B (submit B backend_run (mkCall batch shots seed))
               (fun job => retM B (jobs ++ [job])))
          (jobs ++ [job]) (mkWorld B b (calls B w ++ [mkCall batch shots seed]))
    end.
Proof.
  cbn [for_eachM]. unfold bindM at 1. unfold bindM at 1. unfold submit at 1.
  destruct (backend_run (backend B w) (mkCall batch shots seed)) as [[e | job] b];
    reflexivity.
Qed.

(** The loop that starts the jobs: it records one call per batch, in order,
    and keeps one job per batch, until a [backend.run] raises. *)
Lemma submit_loop {B : Type} (backend_run : B -> RunCall -> result Job * B)
  (shots : Z) (seed : option Z) :
  forall (batches : list (list QuantumCircuit)) (jobs : list Job) (w : World B),
    (exists new_jobs w',
       for_eachM B batches
         (fun batch jobs =>
            bindM B (submit B backend_run (mkCall batch shots seed))
              (fun job => retM B (jobs ++ [job])))
         jobs w
       = (inr (jobs ++ new_jobs), w') /\
       calls B w' = calls B w ++ map (fun batch => mkCall batch shots seed) batches /\
       List.length new_jobs = List.length batches /\
       Forall (fun job => exists b batch,
                            In batch batches /\
                            fst (backend_run b (mkCall batch shots seed)) = inr job) new_jobs)
    \/
    (exists e w' k batch b,
       for_eachM B batches
         (fun batch jobs =>
            bindM B (submit B backend_run (mkCall batch shots seed))
              (fun job => retM B (jobs ++ [job])))
         jobs w
       = (inl e, w') /\
       nth_error batches k = Some batch /\
       calls B w'
       = calls B w ++ map (fun batch => mkCall batch shots seed) (firstn (S k) batches) /\
       fst (backend_run b (mkCall batch shots seed)) = inl e).
Proof.
  induction batches as [ | batch batches IH]; intros jobs w.
  - left. exists [], w. cbn [for_eachM map]. rewrite !app_nil_r. repeat split. constructor.
  - rewrite submit_step.
    destruct (backend_run (backend B w) (mkCall batch shots seed)) as [[e | job] b] eqn:Hjob.
    + right. exists e, (mkWorld B b (calls B w ++ [mkCall batch shots seed])), 0%nat, batch,
        (backend B w).
      split; [reflexivity | ]. split; [reflexivity | ].
      split; [reflexivity | rewrite Hjob; reflexivity].
    + destruct (IH (jobs ++ [job]) (mkWorld B b (calls B w ++ [mkCall batch shots seed])))
        as [[new_jobs [w' [Hrun [Hcalls [Hlen Hall]]]]]
           | [e [w' [k [batch' [b' [Hrun [Hk [Hcalls Hfail]]]]]]]]].
      * left. exists (job :: new_jobs), w'. rewrite Hrun, <- app_assoc. cbn [app].
        split; [reflexivity | ]. split; [ | split].
        -- rewrite Hcalls. cbn [calls map]. rewrite <- app_assoc. reflexivity.
        -- cbn [List.length]. lia.
        -- constructor.
           ++ exists (backend B w), batch. split; [left; reflexivity | ].
              rewrite Hjob. reflexivity.
           ++ eapply Forall_impl; [ | exact Hall]. intros j [b0 [batch0 [Hin Hj]]].
              exists b0, batch0. split; [right; exact Hin | exact Hj].
      * right. exists e, w', (S k), batch', b'. rewrite Hrun.
        split; [reflexivity | ]. split; [exact Hk | ]. split; [ | exact Hfail].
        rewrite Hcalls. cbn [calls firstn map]. rewrite <- app_assoc. reflexivity.
Qed.

(** What [_run_circuits] does on a [BackendV2], by the three ways it can go:
    a [backend.run] raises, a [job.result()] raises, or it returns. *)
Lemma run_circuits_cases {B : Type} (max_circuits : option nat)
  (backend_run : B -> RunCall -> result Job * B)
  (circuits : list QuantumCircuit) (shots : Z) (seed : option Z) (w : World B) :
  let batches := batches_of max_circuits circuits in
  let call_of := fun batch => mkCall batch shots seed in
  (exists e w' k batch b,
     _run_circuits B true max_circuits backend_run circuits shots seed w = (inl e, w') /\
     nth_error batches k = Some batch /\
     calls B w' = calls B w ++ map call_of (firstn (S k) batches) /\
     fst (backend_run b (call_of batch)) = inl e)
  \/
  (exists jobs w',
     _run_circuits B true max_circuits backend_run circuits shots seed w
     = (match map_result job_result jobs with
        | inl e => inl e
        | inr results => inr (results, map metadata circuits)
        end, w') /\
     calls B w' = calls B w ++ map call_of batches /\
     List.length jobs = List.length batches /\
     Forall (fun job => exists b batch,
                          In batch batches /\
                          fst (backend_run b (call_of batch)) = inr job) jobs).
Proof.
  intros batches call_of. unfold _run_circuits. fold cleared.
  destruct (submit_loop backend_run shots seed batches [] w)
    as [[jobs [w' [Hrun [Hcalls [Hlen Hall]]]]]
       | [e [w' [k [batch [b [Hrun [Hk [Hcalls Hfail]]]]]]]]].
  - right. exists jobs, w'. cbn [app] in Hrun.
    split; [ | split; [exact Hcalls | split; [exact Hlen | exact Hall]]].
    subst batches. unfold batches_of in *.
    destruct max_circuits as [[ | n] | ].
    + cbn [for_eachM] in Hrun. unfold bindM at 1 in Hrun. unfold bindM at 1 in Hrun.
      unfold bindM at 1.
      destruct (submit B backend_run (mkCall (map cleared circuits) shots seed) w)
        as [[e | job] w1]; [discriminate | ].
      unfold retM in Hrun. injection Hrun as <- <-.
      cbn [map_result]. unfold bindM, liftM, retM.
      destruct (job_result job); reflexivity.
    + unfold bindM at 1. rewrite Hrun. unfold bindM, liftM, retM.
      destruct (map_result job_result jobs); reflexivity.
    + cbn [for_eachM] in Hrun. unfold bindM at 1 in Hrun. unfold bindM at 1 in Hrun.
      unfold bindM at 1.
      destruct (submit B backend_run (mkCall (map cleared circuits) shots seed) w)
        as [[e | job] w1]; [discriminate | ].
      unfold retM in Hrun. injection Hrun as <- <-.
      cbn [map_result]. unfold bindM, liftM, retM.
      destruct (job_result job); reflexivity.
  - left. exists e, w', k, batch, b.
    split; [ | split; [exact Hk | split; [exact Hcalls | exact Hfail]]].
    subst batches. unfold batches_of in *.
    destruct max_circuits as [[ | n] | ].
    + cbn [for_eachM] in Hrun. unfold bindM at 1 in Hrun. unfold bindM at 1 in Hrun.
      unfold bindM at 1.
      destruct (submit B backend_run (mkCall (map cleared circuits) shots seed) w)
        as [[e' | job] w1]; [ | discriminate].
      injection Hrun as <- <-. reflexivity.
    + unfold bindM at 1. rewrite Hrun. reflexivity.
    + cbn [for_eachM] in Hrun. unfold bindM at 1 in Hrun. unfold bindM at 1 in Hrun.
      unfold bindM at 1.
      destruct (submit B backend_run (mkCall (map cleared circuits) shots seed) w)
        as [[e' | job] w1]; [ | discriminate].
      injection Hrun as <- <-. reflexivity.
Qed.

(** When [_run_circuits] returns, the backend is a [BackendV2] and every
    batch has been sent, in order. *)
Lemma run_circuits_sent {B : Type} (is_backend_v2 : bool) (max_circuits : option nat)
  (backend_run : B -> RunCall -> result Job * B)
  (circuits : list QuantumCircuit) (shots : Z) (seed : option Z) (w w' : World B)
  (results : list Result) (metadata_list : list CircuitMetadata) :
  _run_circuits B is_backend_v2 max_circuits backend_run circuits shots seed w
  = (inr (results, metadata_list), w') ->
  is_backend_v2 = true /\
  metadata_list = map metadata circuits /\
  calls B w'
  = calls B w ++ map (fun batch => mkCall batch shots seed) (batches_of max_circuits circuits) /\
  exists jobs,
    map_result job_result jobs = inr results /\
    List.length jobs = List.length (batches_of max_circuits circuits).
Proof.
  destruct is_backend_v2; [ | discriminate].
  destruct (run_circuits_cases max_circuits backend_run circuits shots seed w)
    as [[e [w1 [k [batch [b [Hrun _]]]]]] | [jobs [w1 [Hrun [Hcalls [Hlen _]]]]]];
    rewrite Hrun; [discriminate | ].
  destruct (map_result job_result jobs) as [e | res] eqn:Hres; [discriminate | ].
  intro H. injection H as <- <- <-.
  split; [reflexivity | ]. split; [reflexivity | ]. split; [exact Hcalls | ].
  exists jobs. split; [exact Hres | exact Hlen].
Qed.

(** X11: [_run_circuits] raises RuntimeError without a call of the backend
    when the backend is no [BackendV2].  Otherwise it sends the circuits,
    without their metadata and in order, in batches of at most
    [max_circuits] circuits, all but the last one full and none empty, every
    batch with the same shots and seed; without a limit it sends one batch.
    The batches are sent one after the other until a [backend.run] raises,
    and the batches after that one are not sent.  When it returns, every
    batch has been sent, and what is returned has one result per batch and
    the metadata of the circuits. *)
Theorem run_circuits_batches {B : Type} (max_circuits : option nat)
  (backend_run : B -> RunCall -> result Job * B)
  (circuits : list QuantumCircuit) (shots : Z) (seed : option Z) (w : World B) :
  let batches := batches_of max_circuits circuits in
  let sent := map (fun batch => mkCall batch shots seed) batches in
  List.concat batches = map cleared circuits /\
  match max_circuits with
  | Some (S n) =>
      Forall (fun batch => (0 < List.length batch <= S n)%nat) batches /\
      forall k, (S k < List.length batches)%nat -> List.length (nth k batches []) = S n
  | _ => batches = [map cleared circuits]
  end /\
  _run_circuits B false max_circuits backend_run circuits shots seed w
  = (inl RuntimeError, w) /\
  (exists k,
     (k <= List.length batches)%nat /\
     calls B (snd (_run_circuits B true max_circuits backend_run circuits shots seed w))
     = calls B w ++ firstn k sent /\
     ((k < List.length batches)%nat ->
      exists e batch b,
        fst (_run_circuits B true max_circuits backend_run circuits shots seed w) = inl e /\
        nth_error batches (k - 1) = Some batch /\
        fst (backend_run b (mkCall batch shots seed)) = inl e)) /\
  forall results metadata_list,
    fst (_run_circuits B true max_circuits backend_run circuits shots seed w)
    = inr (results, metadata_list) ->
    calls B (snd (_run_circuits B true max_circuits backend_run circuits shots seed w))
    = calls B w ++ sent /\
    metadata_list = map metadata circuits /\
    List.length results = List.length batches.
Proof.
  intros batches sent.
  split; [apply batches_of_concat | ]. split; [ | split; [reflexivity | split]].
  - subst batches. unfold batches_of. destruct max_circuits as [[ | n] | ]; try reflexivity.
    split; [apply chunks_upto_bounds | apply chunks_upto_full].
  - destruct (run_circuits_cases max_circuits backend_run circuits shots seed w)
      as [[e [w1 [k [batch [b [Hrun [Hk [Hcalls Hfail]]]]]]]]
         | [jobs [w1 [Hrun [Hcalls [Hlen _]]]]]]; rewrite Hrun; cbn [fst snd].
    + exists (S k). fold batches in Hk, Hcalls.
      assert (Hlt : (k < List.length batches)%nat) by (apply nth_error_Some; congruence).
      split; [lia | ]. split.
      * rewrite Hcalls. subst sent. rewrite firstn_map. reflexivity.
      * intros _. exists e, batch, b. rewrite Nat.sub_succ, Nat.sub_0_r. auto.
    + exists (List.length batches). split; [lia | ]. split; [ | lia].
      rewrite Hcalls. fold batches. fold sent.
      rewrite <- (length_map (fun batch => mkCall batch shots seed) batches).
      fold sent. rewrite firstn_all. reflexivity.
  - intros results md H.
    destruct (_run_circuits B true max_circuits backend_run circuits shots seed w)
      as [r w1] eqn:Hrun. cbn [fst snd] in *. subst r.
    apply run_circuits_sent in Hrun as [_ [Hmd [Hcalls [jobs [Hres Hlen]]]]].
    split; [exact Hcalls | ]. split; [exact Hmd | ].
    rewrite (map_result_length _ _ _ Hres). exact Hlen.
Qed.

(** X12: an exception that [_run_circuits] raises is its RuntimeError for a
    backend that is no [BackendV2] (and then nothing was sent), or the
    exception of [backend.run] for one of the batches of the circuits, or the
    exception of [job.result()] of one of the jobs that it started. *)
Theorem run_circuits_error_is_of_a_job {B : Type} (is_backend_v2 : bool)
  (max_circuits : option nat) (backend_run : B -> RunCall -> result Job * B)
  (circuits : list QuantumCircuit) (shots : Z) (seed : option Z) (w : World B) (e : exn) :
  fst (_run_circuits B is_backend_v2 max_circuits backend_run circuits shots seed w)
  = inl e ->
  (is_backend_v2 = false /\ e = RuntimeError /\
   snd (_run_circuits B is_backend_v2 max_circuits backend_run circuits shots seed w) = w)
  \/
  (is_backend_v2 = true /\
   exists b batch,
     incl batch (map cleared circuits) /\
     (fst (backend_run b (mkCall batch shots seed)) = inl e \/
      exists job,
        fst (backend_run b (mkCall batch shots seed)) = inr job /\
        job_result job = inl e)).
Proof.
  destruct is_backend_v2.
  - intro H. right. split; [reflexivity | ].
    destruct (run_circuits_cases max_circuits backend_run circuits shots seed w)
      as [[e' [w1 [k [batch [b [Hrun [Hk [_ Hfail]]]]]]]]
         | [jobs [w1 [Hrun [_ [_ Hall]]]]]]; rewrite Hrun in H; cbn [fst] in H.
    + injection H as ->. exists b, batch. split; [ | left; exact Hfail].
      apply (batches_of_incl max_circuits). eapply nth_error_In. exact Hk.
    + destruct (map_result job_result jobs) as [e' | res] eqn:Hres; [ | discriminate].
      injection H as ->.
      apply map_result_inl in Hres as [job [Hin Hjob]].
      rewrite Forall_forall in Hall. destruct (Hall _ Hin) as [b [batch [Hb Hj]]].
      exists b, batch. split; [apply (batches_of_incl max_circuits), Hb | ].
      right. exists job. split; assumption.
  - intro H. left. cbn in H. injection H as <-. repeat split.
Qed.

Lemma run_circuits_error_is_of_a_job_witness :
  (true = false /\ QiskitError = RuntimeError /\
   snd (_run_circuits unit true (Some 2%nat)
          (fun (b : unit) (_ : RunCall) => (inr (mkJob (inl QiskitError)), b))
          [mkCircuit 1 [] [] (UserMetadata [])] 100 None (mkWorld unit tt []))
   = mkWorld unit tt [])
  \/
  (true = true /\
   exists b batch,
     incl batch (map cleared [mkCircuit 1 [] [] (UserMetadata [])]) /\
     (fst ((fun (b : unit) (_ : RunCall) => (@inr exn Job (mkJob (inl QiskitError)), b)) b
             (mkCall batch 100 None)) = inl QiskitError \/
      exists job,
        fst ((fun (b : unit) (_ : RunCall) => (@inr exn Job (mkJob (inl QiskitError)), b)) b
               (mkCall batch 100 None)) = inr job /\
        job_result job = inl QiskitError)).
Proof.
  apply (run_circuits_error_is_of_a_job true (Some 2%nat)
           (fun (b : unit) (_ : RunCall) => (@inr exn Job (mkJob (inl QiskitError)), b))
           [mkCircuit 1 [] [] (UserMetadata [])] 100 None (mkWorld unit tt []) QiskitError).
  reflexivity.
Defined.

(** Two batches on a backend that refuses the second one: the first batch
    was sent, its job is lost, and the exception is that of [backend.run]. *)
Example second_batch_refused :
  let backend_run := fun (n : nat) (_ : RunCall) =>
    (match n with
     | O => inr (mkJob (inr (mkResult (inr (ListCounts [])))))
     | S _ => inl QiskitError
     end, S n) in
  let c := mkCircuit 1 [] [] (UserMetadata []) in
  _run_circuits nat true (Some 1%nat) backend_run [c; c; c] 100 None (mkWorld nat 0%nat [])
  = (inl QiskitError, mkWorld nat 2%nat [mkCall [c] 100 None; mkCall [c] 100 None]).
Proof. reflexivity. Qed.

(** ** The results and the calls of a run *)

Lemma nth_error_update {A : Type} (l : list A) (k j : nat) (v : A) :
  nth_error (py.update l k v) j
  = if (j =? k)%nat then option_map (fun _ => v) (nth_error l k) else nth_error l j.
Proof.
  revert k j; induction l as [ | a l IH]; intros [ | k] [ | j];
    cbn [py.update nth_error option_map Nat.eqb]; try reflexivity.
  - destruct (j =? k)%nat; reflexivity.
  - apply IH.
Qed.

Lemma update_length {A : Type} (l : list A) (k : nat) (v : A) :
  List.length (py.update l k v) = List.length l.
Proof.
  revert k; induction l as [ | a l IH]; intros [ | k]; cbn [py.update List.length];
    try reflexivity.
  rewrite IH. reflexivity.
Qed.

Lemma Forall2_combine_fst {A C D : Type} (Q : A -> D -> Prop) :
  forall (l : list A) (l' : list C) (rs : list D),
    List.length l = List.length l' ->
    Forall2 (fun item r => Q (fst item) r) (combine l l') rs ->
    Forall2 Q l rs.
Proof.
  induction l as [ | a l IH]; intros [ | c l'] rs Hlen H; try discriminate;
    cbn [combine] in H.
  - inversion H. constructor.
  - inversion H as [ | x y xs ys Hxy Hrest]; subst. constructor; [exact Hxy | ].
    apply (IH l'); [cbn [List.length] in Hlen; lia | exact Hrest].
Qed.

Lemma postprocess_fields (pow_half : float64 -> float64)
  (hypot : float64 -> float64 -> float64) (pub : EstimatorPub)
  (expval_map : list (Key * (float64 * float64))) (data : _PreprocessedData) (shots : Z)
  (r : PubResult) :
  _postprocess_pub pow_half hypot pub expval_map data shots = inr r ->
  target_precision r = pub_precision pub /\
  result_shots r = shots /\
  circuit_metadata r = metadata (pub_circuit pub).
Proof.
  unfold _postprocess_pub.
  destruct (accumulate _ _ _ _ _) as [e | [evs variances]]; cbn [bind ret]; [discriminate | ].
  destruct (np.sqrt_int shots) as [e | root]; cbn [bind ret]; [discriminate | ].
  intro H. injection H as <-. repeat split.
Qed.

Lemma for_eachM_calls {B A S : Type} (P : RunCall -> Prop) (xs : list A)
  (body : A -> S -> M B S) (s : S) :
  (forall x, In x xs -> forall s, emits P (body x s)) ->
  emits P (for_eachM B xs body s).
Proof. intro H. apply emits_for_each. exact H. Qed.

Section ResultsOfRun.

Variable options : Options.
Variable pauli_str : Pauli -> string.
Variable to_label : Pauli -> string.
Variable paulis_of_labels : list string -> PauliList.
Variable group_commuting : PauliList -> list PauliList.
Variable passmanager_run : list QuantumCircuit -> list QuantumCircuit.
Variable bind_parameters : BindingsArray -> QuantumCircuit -> list nat -> QuantumCircuit.
Variable pow_half : float64 -> float64.
Variable hypot : float64 -> float64 -> float64.
Variable BackendState : Type.
Variable is_backend_v2 : bool.
Variable max_circuits : option nat.
Variable backend_run : BackendState -> RunCall -> result Job * BackendState.

Local Abbreviation preprocess :=
  (_preprocess_pub options pauli_str paulis_of_labels group_commuting passmanager_run
     bind_parameters).
Local Abbreviation run_circuits :=
  (_run_circuits BackendState is_backend_v2 max_circuits backend_run).
Local Abbreviation run_pubs :=
  (_run_pubs options pauli_str to_label paulis_of_labels group_commuting passmanager_run
     bind_parameters pow_half hypot BackendState is_backend_v2 max_circuits backend_run).
Local Abbreviation run_all :=
  (_run options pauli_str to_label paulis_of_labels group_commuting passmanager_run
     bind_parameters pow_half hypot BackendState is_backend_v2 max_circuits backend_run).
Local Abbreviation batch_body pubs :=
  (fun '(shots, lst) results =>
     bindM BackendState (liftM BackendState (map_result (py.getitem pubs) lst))
       (fun group =>
          bindM BackendState (run_pubs group shots)
            (fun pub_results =>
               liftM BackendState
                 (py.for_each (combine lst pub_results)
                    (fun '(i, pub_result) results =>
                       py.setitem results i (Some pub_result))
                    results)))).

(** *** The calls, whatever the outcome *)

Lemma run_circuits_emits (circs : list QuantumCircuit) (shots : Z) (seed : option Z) :
  emits (fun call =>
           call_shots call = shots /\ call_seed call = seed /\
           incl (call_circuits call) (map cleared circs))
    (run_circuits circs shots seed).
Proof.
  unfold _run_circuits. fold cleared.
  destruct is_backend_v2; [ | apply emits_lift].
  assert (Hone : emits (fun call =>
                          call_shots call = shots /\ call_seed call = seed /\
                          incl (call_circuits call) (map cleared circs))
                   (bindM BackendState
                      (submit BackendState backend_run (mkCall (map cleared circs) shots seed))
                      (fun job =>
                         bindM BackendState (liftM BackendState (job_result job))
                           (fun result =>
                              retM BackendState ([result], map metadata circs))))).
  { apply emits_bind.
    - apply emits_submit. cbn [call_shots call_seed call_circuits].
      repeat split. apply incl_refl.
    - intros job _ _ _. apply emits_bind_lift. intros; apply emits_ret. }
  destruct max_circuits as [[ | n] | ]; try exact Hone.
  apply emits_bind.
  - apply emits_for_each. intros batch Hbatch jobs.
    apply emits_bind; [ | intros; apply emits_ret].
    apply emits_submit. cbn [call_shots call_seed call_circuits]. repeat split.
    unfold chunks in Hbatch. eapply chunks_upto_incl; exact Hbatch.
  - intros jobs _ _ _. apply emits_bind_lift. intros; apply emits_ret.
Qed.

Lemma run_pubs_emits (pubs : list EstimatorPub) (shots : Z) :
  emits (fun call =>
           call_shots call = shots /\ call_seed call = seed_simulator options /\
           forall circ, In circ (call_circuits call) ->
             exists pub,
               In pub pubs /\
               circuit_of_pub options pauli_str paulis_of_labels group_commuting
                 passmanager_run bind_parameters pub circ)
    (run_pubs pubs shots).
Proof.
  unfold _run_pubs. apply emits_bind_lift. intros pdata Hpre.
  apply map_result_inr in Hpre.
  apply emits_bind.
  - eapply emits_weaken; [ | apply run_circuits_emits].
    intros call [Hs [Hseed Hincl]]. split; [exact Hs | ]. split; [exact Hseed | ].
    intros circ Hin. apply Hincl in Hin. apply in_map_iff in Hin as [c0 [<- Hc0]].
    apply in_flat_map in Hc0 as [data [Hdata Hc0]].
    destruct (Forall2_In_r _ _ _ _ Hpre Hdata) as [pub [Hpub Hp]].
    exists pub. split; [exact Hpub | ]. exists data, c0. auto.
  - intros [run_result metadata] _ _ _. apply emits_bind_lift. intros. apply emits_lift.
Qed.

(** Every circuit that [_run] sends to the backend is a circuit of one of the
    pubs, sent with the shots that the precision of that pub gives. *)
Lemma run_emits (pubs : list EstimatorPub) :
  emits (fun call =>
           call_seed call = seed_simulator options /\
           sent_with_required_shots options pauli_str paulis_of_labels group_commuting
             passmanager_run bind_parameters pubs call)
    (run_all pubs).
Proof.
  unfold _run. apply emits_bind_lift. intros pub_dict Hdict.
  destruct (consolidate_order pubs pub_dict Hdict) as [_ [Hbatch _]].
  apply emits_for_each. intros [shots lst] Hin results.
  apply emits_bind_lift. intros group Hgroup. apply map_result_inr in Hgroup.
  apply emits_bind; [ | intros; apply emits_lift].
  eapply emits_weaken; [ | apply run_pubs_emits].
  intros call [Hs [Hseed Hcircs]]. split; [exact Hseed | ]. intros circ Hcirc.
  destruct (Hcircs circ Hcirc) as [pub [Hpub Hof]].
  destruct (Forall2_In_r _ _ _ _ Hgroup Hpub) as [i [Hi Hget]].
  unfold py.getitem in Hget. destruct (nth_error pubs i) as [pub' | ] eqn:Hnth; [ | discriminate].
  injection Hget as ->.
  destruct (Hbatch _ Hin) as [_ [_ Hmem]]. cbn [fst snd] in Hmem.
  destruct (Hmem i Hi) as [pub2 [Hnth2 Hshots]].
  assert (pub2 = pub) by congruence. subst pub2.
  exists pub. split; [eapply nth_error_In; exact Hnth | ]. split; [exact Hof | ].
  rewrite Hs. apply shots_of_binary64, Hshots.
Qed.

(** *** The results *)

(** The last loop of [_run_pubs] adds one result per pub, in order. *)
Lemma results_loop (counts : list Counts) (metadata_list : list CircuitMetadata) (shots : Z) :
  forall (items : list (EstimatorPub * _PreprocessedData)) (acc : list PubResult)
         (start : nat) (res : list PubResult) (stop : nat),
    py.for_each items
      (fun '(pub, data) '(results, start) =>
         let stop := (start + List.length (circuits data))%nat in
         expval_map <- _calc_expval_map to_label (slice counts start stop)
                         (slice metadata_list start stop) ;;
         pub_result <- _postprocess_pub pow_half hypot pub expval_map data shots ;;
         ret (results ++ [pub_result], stop))
      (acc, start)
    = inr (res, stop) ->
    exists new,
      res = acc ++ new /\
      Forall2 (fun item r =>
                 target_precision r = pub_precision (fst item) /\
                 result_shots r = shots /\
                 circuit_metadata r = metadata (pub_circuit (fst item))) items new.
Proof.
  induction items as [ | [pub data] items IH]; intros acc start res stop Hrun;
    cbn [py.for_each] in Hrun.
  - injection Hrun as <- _. exists []. rewrite app_nil_r. split; [reflexivity | constructor].
  - destruct (_calc_expval_map _ _ _) as [e | expval_map]; cbn [bind] in Hrun;
      [discriminate | ].
    destruct (_postprocess_pub pow_half hypot pub expval_map data shots) as [e | r] eqn:Hpost;
      cbn [bind ret] in Hrun; [discriminate | ].
    apply IH in Hrun as [new [-> Hnew]].
    exists (r :: new). rewrite <- app_assoc. split; [reflexivity | ].
    constructor; [apply (postprocess_fields _ _ _ _ _ _ _ Hpost) | exact Hnew].
Qed.

(** [_run_pubs], when it returns: the pubs were preprocessed, every batch of
    their circuits was sent with the shots, and there is one result per pub,
    in the order of the pubs. *)
Lemma run_pubs_returns (pubs : list EstimatorPub) (shots : Z) (w w' : World BackendState)
  (results : list PubResult) :
  run_pubs pubs shots w = (inr results, w') ->
  Forall2 (fun pub r =>
             target_precision r = pub_precision pub /\
             result_shots r = shots /\
             circuit_metadata r = metadata (pub_circuit pub)) pubs results /\
  exists pdata,
    map_result preprocess pubs = inr pdata /\
    calls BackendState w'
    = calls BackendState w
      ++ map (fun batch => mkCall batch shots (seed_simulator options))
           (batches_of max_circuits (flat_map circuits pdata)).
Proof.
  unfold _run_pubs. unfold bindM at 1. unfold liftM at 1.
  destruct (map_result _ pubs) as [e | pdata] eqn:Hpre; [discriminate | ].
  unfold bindM at 1.
  destruct (run_circuits (flat_map circuits pdata) shots (seed_simulator options) w)
    as [[e | [run_result metadata_list]] w1] eqn:Hrun; [discriminate | ].
  apply run_circuits_sent in Hrun as [_ [_ [Hcalls _]]].
  unfold bindM, liftM.
  destruct (_prepare_counts run_result) as [e | counts]; [discriminate | ].
  destruct (py.for_each _ _ _) as [e | [res stop]] eqn:Hloop; cbn [bind ret];
    [discriminate | ].
  intro H. injection H as <- <-.
  apply results_loop in Hloop as [new [-> Hnew]]. cbn [app]. split.
  - apply (Forall2_combine_fst _ pubs pdata); [ | exact Hnew].
    apply map_result_inr in Hpre. eapply Forall2_length; exact Hpre.
  - exists pdata. split; [reflexivity | exact Hcalls].
Qed.

(** The loop that stores the results of one batch. *)
Lemma store_loop (pubs : list EstimatorPub) :
  forall (pairs : list (nat * PubResult)) (results results' : list (option PubResult)),
    Forall (fun pair => exists pub, nth_error pubs (fst pair) = Some pub /\
                                    result_of pub (snd pair)) pairs ->
    List.length results = List.length pubs ->
    (forall i r pub, nth_error results i = Some (Some r) ->
                     nth_error pubs i = Some pub -> result_of pub r) ->
    py.for_each pairs
      (fun '(i, pub_result) results => py.setitem results i (Some pub_result))
      results
    = inr results' ->
    List.length results' = List.length pubs /\
    (forall i r pub, nth_error results' i = Some (Some r) ->
                     nth_error pubs i = Some pub -> result_of pub r) /\
    (forall i, (exists r, nth_error results i = Some (Some r)) \/ In i (map fst pairs) ->
               exists r, nth_error results' i = Some (Some r)).
Proof.
  induction pairs as [ | [k r0] pairs IH]; intros results results' Hq Hlen Hgood Hrun;
    cbn [py.for_each] in Hrun.
  - injection Hrun as <-. split; [exact Hlen | ]. split; [exact Hgood | ].
    intros i [H | []]. exact H.
  - apply Forall_cons_iff in Hq as [[pub0 [Hp0 Hr0]] Hq]. cbn [fst snd] in *.
    unfold py.setitem in Hrun.
    destruct (nth_error results k) as [old | ] eqn:Hk; cbn [bind ret] in Hrun;
      [ | discriminate].
    apply IH in Hrun as [Hlen' [Hgood' Hcov']]; [ | exact Hq | | ].
    + split; [exact Hlen' | ]. split; [exact Hgood' | ].
      intros i Hi. apply Hcov'.
      destruct (Nat.eq_dec i k) as [-> | Hne].
      * left. exists r0. rewrite nth_error_update, Nat.eqb_refl, Hk. reflexivity.
      * destruct Hi as [[r Hr] | [E | Hin]].
        -- left. exists r. rewrite nth_error_update.
           destruct (Nat.eqb_spec i k); [contradiction | exact Hr].
        -- cbn [fst] in E. congruence.
        -- right. exact Hin.
    + rewrite update_length. exact Hlen.
    + intros i r pub Hi Hpub. rewrite nth_error_update in Hi.
      destruct (Nat.eqb_spec i k) as [-> | Hne].
      * rewrite Hk in Hi. cbn [option_map] in Hi. injection Hi as <-.
        assert (pub = pub0) by congruence. subst pub0. exact Hr0.
      * eapply Hgood; eassumption.
Qed.

Lemma Forall2_combine {A C : Type} (Q : A -> C -> Prop) (l : list A) (l' : list C) :
  Forall2 Q l l' -> Forall (fun pair => Q (fst pair) (snd pair)) (combine l l').
Proof.
  induction 1 as [ | a c l l' Hac _ IH]; cbn [combine]; constructor; assumption.
Qed.

Lemma Forall2_map_fst_combine {A C : Type} (Q : A -> C -> Prop) (l : list A) (l' : list C) :
  Forall2 Q l l' -> map fst (combine l l') = l.
Proof.
  induction 1 as [ | a c l l' Hac _ IH]; cbn [combine map fst]; congruence.
Qed.

Lemma Forall2_compose {A C D : Type} (P : A -> C -> Prop) (Q : C -> D -> Prop)
  (l : list A) (m : list C) (n : list D) :
  Forall2 P l m -> Forall2 Q m n -> Forall2 (fun a d => exists c, P a c /\ Q c d) l n.
Proof.
  intro H. revert n. induction H as [ | a c l m Hac _ IH]; intros n Hn.
  - inversion Hn. constructor.
  - inversion Hn as [ | x d xs ds Hcd Hrest]; subst.
    constructor; [exists c; auto | apply IH, Hrest].
Qed.

Lemma Forall2_In_l {A C : Type} (Rel : A -> C -> Prop) (l : list A) (l' : list C) (a : A) :
  Forall2 Rel l l' -> In a l -> exists c, In c l' /\ Rel a c.
Proof.
  induction 1 as [ | a0 c0 l l' Hac _ IH]; intros Hin; [contradiction | ].
  destruct Hin as [<- | Hin].
  - exists c0. split; [left; reflexivity | exact Hac].
  - destruct (IH Hin) as [c [Hc Hr]]. exists c. split; [right; exact Hc | exact Hr].
Qed.

Lemma in_concat_batch {A : Type} (batches : list (list A)) (x : A) :
  In x (List.concat batches) -> exists batch, In batch batches /\ In x batch.
Proof.
  intro H. apply in_concat in H as [batch [Hb Hx]]. exists batch. auto.
Qed.

(** The loop of [_run] over the batches. *)
Lemma run_loop (pubs : list EstimatorPub) :
  forall (todo : list (Z * list nat)) (results results' : list (option PubResult))
         (w w' : World BackendState),
    (forall entry, In entry todo -> batch_of pubs entry) ->
    List.length results = List.length pubs ->
    (forall i r pub, nth_error results i = Some (Some r) ->
                     nth_error pubs i = Some pub -> result_of pub r) ->
    for_eachM BackendState todo (batch_body pubs) results w = (inr results', w') ->
    List.length results' = List.length pubs /\
    (forall i r pub, nth_error results' i = Some (Some r) ->
                     nth_error pubs i = Some pub -> result_of pub r) /\
    (forall i, (exists r, nth_error results i = Some (Some r)) \/
               (exists entry, In entry todo /\ In i (snd entry)) ->
               exists r, nth_error results' i = Some (Some r)) /\
    exists new,
      calls BackendState w' = calls BackendState w ++ new /\
      (max_circuits = None ->
       map call_shots new = map fst todo) /\
      forall entry i pub data circ,
        In entry todo -> In i (snd entry) -> nth_error pubs i = Some pub ->
        preprocess pub = inr data -> In circ (circuits data) ->
        exists call,
          In call new /\ In (cleared circ) (call_circuits call) /\
          call_shots call = fst entry.
Proof.
  induction todo as [ | [shots lst] todo IH]; intros results results' w w' Hbatch Hlen Hgood Hrun;
    cbn [for_eachM] in Hrun.
  - unfold retM in Hrun. injection Hrun as <- <-. split; [exact Hlen | ].
    split; [exact Hgood | ]. split.
    + intros i [H | [entry [[] _]]]. exact H.
    + exists []. rewrite app_nil_r. split; [reflexivity | ]. split; [reflexivity | ].
      intros entry i pub data circ [].
  - unfold bindM at 1 in Hrun. unfold bindM at 1 in Hrun. unfold liftM at 1 in Hrun.
    destruct (map_result (py.getitem pubs) lst) as [e | group] eqn:Hgroup; [discriminate | ].
    unfold bindM at 1 in Hrun.
    destruct (run_pubs group shots w) as [[e | pub_results] w1] eqn:Hpubs; [discriminate | ].
    unfold liftM at 1 in Hrun.
    destruct (py.for_each (combine lst pub_results) _ results) as [e | results1] eqn:Hstore;
      [discriminate | ].
    apply map_result_inr in Hgroup.
    apply run_pubs_returns in Hpubs as [Hpubs [pdata [Hpre Hcalls1]]].
    pose proof (Forall2_compose _ _ _ _ _ Hgroup Hpubs) as Hboth.
    destruct (Hbatch (shots, lst) (or_introl eq_refl)) as [_ [_ Hmem]]. cbn [fst snd] in Hmem.
    assert (Hpairs : Forall (fun pair => exists pub, nth_error pubs (fst pair) = Some pub /\
                                                     result_of pub (snd pair))
                       (combine lst pub_results)).
    { apply Forall_forall. intros [i r] Hin. cbn [fst snd].
      pose proof (Forall2_combine _ _ _ Hboth) as Hc. rewrite Forall_forall in Hc.
      destruct (Hc _ Hin) as [pub [Hget [Hprec [Hshots Hmeta]]]]. cbn [fst snd] in *.
      unfold py.getitem in Hget.
      destruct (nth_error pubs i) as [pub' | ] eqn:Hnth; [ | discriminate].
      injection Hget as ->. exists pub. split; [reflexivity | ].
      destruct (Hmem i (in_combine_l _ _ _ _ Hin)) as [pub2 [Hnth2 Hs2]].
      assert (pub2 = pub) by congruence. subst pub2.
      unfold result_of. rewrite Hshots. auto. }
    destruct (store_loop pubs _ _ _ Hpairs Hlen Hgood Hstore) as [Hlen1 [Hgood1 Hcov1]].
    apply IH in Hrun as [Hlen' [Hgood' [Hcov' [new [Hnew [Hshots Hsent]]]]]]; auto.
    + split; [exact Hlen' | ]. split; [exact Hgood' | ]. split.
      * intros i Hi. apply Hcov'.
        destruct Hi as [Hi | [entry [[<- | Hin] Hi]]].
        -- left. apply Hcov1. left. exact Hi.
        -- left. apply Hcov1. right. cbn [snd] in Hi.
           rewrite (Forall2_map_fst_combine _ _ _ Hboth). exact Hi.
        -- right. exists entry. auto.
      * exists (map (fun batch => mkCall batch shots (seed_simulator options))
                  (batches_of max_circuits (flat_map circuits pdata)) ++ new).
        split; [rewrite Hnew, Hcalls1, <- app_assoc; reflexivity | ]. split.
        -- intro Hmax. rewrite Hmax. cbn [batches_of map app fst call_shots].
           rewrite (Hshots Hmax). reflexivity.
        -- intros entry i pub data circ [<- | Hin] Hi Hpub Hdata Hcirc.
           ++ cbn [fst snd] in *.
              destruct (Forall2_In_l _ _ _ _ Hgroup Hi) as [pub' [Hpub' Hget]].
              unfold py.getitem in Hget. rewrite Hpub in Hget. injection Hget as <-.
              apply map_result_inr in Hpre.
              destruct (Forall2_In_l _ _ _ _ Hpre Hpub') as [data' [Hdata' Hpd]].
              rewrite Hdata in Hpd. injection Hpd as <-.
              assert (Hc : In (cleared circ)
                             (List.concat (batches_of max_circuits (flat_map circuits pdata)))).
              { rewrite batches_of_concat. apply in_map. apply in_flat_map.
                exists data. auto. }
              apply in_concat_batch in Hc as [batch [Hb Hc]].
              exists (mkCall batch shots (seed_simulator options)).
              split; [ | auto]. apply in_or_app. left.
              apply (in_map (fun batch => mkCall batch shots (seed_simulator options))), Hb.
           ++ destruct (Hsent entry i pub data circ Hin Hi Hpub Hdata Hcirc)
                as [call [Hcall Hrest]].
              exists call. split; [apply in_or_app; right; exact Hcall | exact Hrest].
    + intros entry Hin. apply Hbatch. right. exact Hin.
Qed.

(** [_run], when it returns: one result per pub, and every circuit of every
    pub sent with the shots of the pub. *)
Lemma run_returns (pubs : list EstimatorPub) (w w' : World BackendState)
  (results : list (option PubResult)) :
  run_all pubs w = (inr results, w') ->
  List.length results = List.length pubs /\
  (forall i pub,
     nth_error pubs i = Some pub ->
     exists r, nth_error results i = Some (Some r) /\ result_of pub r) /\
  exists pub_dict new,
    consolidate pubs = inr pub_dict /\
    calls BackendState w' = calls BackendState w ++ new /\
    (max_circuits = None -> map call_shots new = map fst pub_dict) /\
    forall i pub data circ,
      nth_error pubs i = Some pub ->
      preprocess pub = inr data -> In circ (circuits data) ->
      exists call,
        In call new /\ In (cleared circ) (call_circuits call) /\
        shots_of pub = inr (call_shots call).
Proof.
  intro Hrun. unfold _run in Hrun. unfold bindM at 1 in Hrun. unfold liftM at 1 in Hrun.
  destruct (consolidate pubs) as [e | pub_dict] eqn:Hdict; [discriminate | ].
  destruct (consolidate_order pubs pub_dict Hdict) as [_ [Hbatch Hcover]].
  apply run_loop in Hrun as [Hlen [Hgood [Hcov [new [Hnew [Hshots Hsent]]]]]].
  - split; [exact Hlen | ]. split.
    + intros i pub Hpub.
      destruct (Hcov i) as [r Hr].
      * right. apply Hcover. apply nth_error_Some. congruence.
      * exists r. split; [exact Hr | ]. eapply Hgood; eassumption.
    + exists pub_dict, new. split; [reflexivity | ]. split; [exact Hnew | ].
      split; [exact Hshots | ].
      intros i pub data circ Hpub Hdata Hcirc.
      destruct (Hcover i) as [entry [Hin Hi]]; [apply nth_error_Some; congruence | ].
      destruct (Hsent entry i pub data circ Hin Hi Hpub Hdata Hcirc)
        as [call [Hcall [Hc Hs]]].
      exists call. split; [exact Hcall | ]. split; [exact Hc | ].
      destruct (Hbatch entry Hin) as [_ [_ Hmem]]. destruct (Hmem i Hi) as [pub2 [Hp2 Hs2]].
      assert (pub2 = pub) by congruence. subst pub2. rewrite Hs. exact Hs2.
  - exact Hbatch.
  - apply repeat_length.
  - intros i r pub Hi _. exfalso.
    apply nth_error_In in Hi. apply repeat_spec in Hi. discriminate.
Qed.

(** X18: when [_run] returns, it returns one result per pub, in the order of
    the pubs and none missing: the result at index [i] carries the precision
    of pub [i], the metadata of its circuit, and the shots that its
    precision asks for. *)
Theorem run_results_follow_the_pubs (pubs : list EstimatorPub) (w w' : World BackendState)
  (results : list (option PubResult)) :
  run_all pubs w = (inr results, w') ->
  List.length results = List.length pubs /\
  forall i pub,
    nth_error pubs i = Some pub ->
    exists r, nth_error results i = Some (Some r) /\ result_of pub r.
Proof.
  intro Hrun. destruct (run_returns pubs w w' results Hrun) as [Hlen [Hres _]].
  split; assumption.
Qed.


(** X23: on a backend without a limit on the circuits of a job, a run that
    returns has called the backend once per batch of pubs, in the order in
    which their numbers of shots first occur among the pubs, each call with
    the shots of its batch and with the seed of the options. *)
Theorem one_call_per_batch_of_pubs (pubs : list EstimatorPub) (w w' : World BackendState)
  (results : list (option PubResult)) :
  max_circuits = None ->
  run_all pubs w = (inr results, w') ->
  exists shots_list new,
    Forall2 (fun pub shots => shots_of pub = inr shots) pubs shots_list /\
    calls BackendState w' = calls BackendState w ++ new /\
    map call_shots new = first_occurrences shots_list /\
    Forall (fun call => call_seed call = seed_simulator options) new.
Proof.
  intros Hmax Hrun.
  destruct (run_returns pubs w w' results Hrun)
    as [_ [_ [pub_dict [new [Hdict [Hnew [Hshots _]]]]]]].
  destruct (consolidate_keys pubs pub_dict Hdict) as [shots_list [Hall Hkeys]].
  exists shots_list, new. split; [exact Hall | ]. split; [exact Hnew | ].
  split; [rewrite (Hshots Hmax); exact Hkeys | ].
  destruct (run_emits pubs w) as [new' [Hnew' Hseed]].
  rewrite Hrun in Hnew'. cbn [snd] in Hnew'. rewrite Hnew in Hnew'.
  apply app_inv_head in Hnew'. subst new'.
  eapply Forall_impl; [ | exact Hseed]. intros call [H _]. exact H.
Qed.

(** *** Validation *)

Lemma validate_spec (pubs : list EstimatorPub) :
  _validate_pubs pubs
  = if existsb (fun pub => np.less_equal (pub_precision pub) 0%float) pubs
    then inl ValueError
    else inr tt.
Proof.
  unfold _validate_pubs. generalize 0%nat.
  induction pubs as [ | pub pubs IH]; intro n; cbn [List.length seq combine py.for_each existsb].
  - reflexivity.
  - destruct (np.less_equal (pub_precision pub) 0%float); cbn [bind raise ret orb].
    + reflexivity.
    + apply IH.
Qed.

(** C5: when some pub has a precision that is not above zero, [run] raises
    the validation error and the world is as before: the backend has not been
    called and no pub has been executed. *)
Theorem invalid_precision_stops_run (PubLike : Type)
  (coerce : PubLike -> float64 -> result EstimatorPub) (pubs : list PubLike)
  (precision : option float64) (coerced_pubs : list EstimatorPub) (w : World BackendState) :
  map_result
    (fun pub => coerce pub (match precision with
                            | None => default_precision options
                            | Some p => p
                            end)) pubs = inr coerced_pubs ->
  Exists (fun pub => np.less_equal (pub_precision pub) 0%float = true) coerced_pubs ->
  run options pauli_str to_label paulis_of_labels group_commuting passmanager_run
    bind_parameters pow_half hypot BackendState is_backend_v2 max_circuits backend_run
    PubLike coerce pubs precision w
  = (inl ValueError, w).
Proof.
  intros Hcoerce Hbad. unfold run, bindM, liftM. rewrite Hcoerce, validate_spec.
  replace (existsb _ coerced_pubs) with true; [reflexivity | ].
  symmetry. apply existsb_exists. apply Exists_exists in Hbad. exact Hbad.
Qed.

End ResultsOfRun.

(** *** Precisions that pass the validation *)

Lemma is_nan_nan (p : float64) : is_nan p = true -> p = nan.
Proof.
  unfold is_nan. rewrite eqb_spec. intro H.
  rewrite <- (SF2Prim_Prim2SF p).
  destruct (Prim2SF p) as [s | s | | s m e]; try reflexivity; exfalso;
    unfold SFeqb, SFcompare in H.
  - discriminate.
  - destruct s; discriminate.
  - rewrite Z.compare_refl, Pos.compare_cont_refl in H. destruct s; discriminate.
Qed.

Lemma less_equal_zero (precision : float64) :
  np.less_equal precision 0%float = false <-> accepted_precision precision.
Proof.
  unfold np.less_equal, accepted_precision, is_nan.
  rewrite leb_spec, ltb_spec, eqb_spec.
  change (Prim2SF 0%float) with (S754_zero false).
  destruct (Prim2SF precision) as [s | s | | s m e];
    unfold SFleb, SFltb, SFeqb, SFcompare.
  - split; [discriminate | intros [H | H]; discriminate].
  - destruct s; split; try discriminate; try (intros [H | H]; discriminate); auto.
  - split; auto.
  - rewrite Z.compare_refl, Pos.compare_cont_refl.
    destruct s; split; try discriminate; try (intros [H | H]; discriminate); auto.
Qed.

Lemma validate_passes (pubs : list EstimatorPub) :
  _validate_pubs pubs = inr tt <->
  Forall (fun pub => accepted_precision (pub_precision pub)) pubs.
Proof.
  rewrite validate_spec. induction pubs as [ | pub pubs IH]; cbn [existsb].
  - split; [constructor | reflexivity].
  - destruct (np.less_equal (pub_precision pub) 0%float) eqn:E; cbn [orb].
    + split; [discriminate | ]. intro H. apply Forall_cons_iff in H as [H _].
      apply less_equal_zero in H. congruence.
    + rewrite IH. split.
      * intro H. constructor; [apply less_equal_zero; exact E | exact H].
      * intro H. apply Forall_cons_iff in H as [_ H]. exact H.
Qed.

(** X14: the validation lets a list of pubs through exactly when every
    precision is a number above zero, plus infinity, or NaN; otherwise it
    raises ValueError. *)
Theorem validation_accepts_exactly (pubs : list EstimatorPub) :
  (_validate_pubs pubs = inr tt <->
   Forall (fun pub => accepted_precision (pub_precision pub)) pubs) /\
  (_validate_pubs pubs = inr tt \/ _validate_pubs pubs = inl ValueError).
Proof.
  split; [apply validate_passes | ].
  rewrite validate_spec. destruct (existsb _ pubs); [right | left]; reflexivity.
Qed.

Lemma shots_of_nan (pub : EstimatorPub) :
  is_nan (pub_precision pub) = true -> shots_of pub = inl ValueError.
Proof.
  intro Hp. apply is_nan_nan in Hp. unfold shots_of. rewrite Hp. reflexivity.
Qed.

Lemma consolidate_nan :
  forall (before : list EstimatorPub) (n : nat) (pub : EstimatorPub)
         (after : list EstimatorPub) (pub_dict : list (Z * list nat)),
    Forall (fun q => exists shots, shots_of q = inr shots) before ->
    is_nan (pub_precision pub) = true ->
    py.for_each (combine (seq n (List.length (before ++ pub :: after)))
                   (before ++ pub :: after))
      (fun '(i, pub) pub_dict =>
         shots <- shots_of pub ;;
         let lst := dict_get_default Z.eqb pub_dict shots [] in
         ret (dict_set Z.eqb pub_dict shots (lst ++ [i])))
      pub_dict
    = inl ValueError.
Proof.
  induction before as [ | q before IH]; intros n pub after pub_dict Hbefore Hnan;
    cbn [app List.length seq combine py.for_each].
  - rewrite (shots_of_nan pub Hnan). reflexivity.
  - apply Forall_cons_iff in Hbefore as [[shots Hs] Hbefore].
    rewrite Hs. cbn [bind ret]. apply IH; assumption.
Qed.

(** X15: a precision that is NaN passes the validation: [run] returns its
    job without raising; when the shots of the pubs before it can be
    computed, the job fails with the ValueError of [math.ceil], and no
    circuit has been sent to the backend. *)
Theorem nan_precision_fails_in_the_job (options : Options) (pauli_str to_label : Pauli -> string)
  (paulis_of_labels : list string -> PauliList) (group_commuting : PauliList -> list PauliList)
  (passmanager_run : list QuantumCircuit -> list QuantumCircuit)
  (bind_parameters : BindingsArray -> QuantumCircuit -> list nat -> QuantumCircuit)
  (pow_half : float64 -> float64) (hypot : float64 -> float64 -> float64)
  (BackendState : Type) (is_backend_v2 : bool) (max_circuits : option nat)
  (backend_run : BackendState -> RunCall -> result Job * BackendState)
  (PubLike : Type) (coerce : PubLike -> float64 -> result EstimatorPub)
  (pubs : list PubLike) (precision : option float64)
  (before : list EstimatorPub) (pub : EstimatorPub) (after : list EstimatorPub)
  (w : World BackendState) :
  map_result
    (fun pub => coerce pub (match precision with
                            | None => default_precision options
                            | Some p => p
                            end)) pubs = inr (before ++ pub :: after) ->
  Forall (fun q => accepted_precision (pub_precision q)) (before ++ pub :: after) ->
  Forall (fun q => exists shots, shots_of q = inr shots) before ->
  is_nan (pub_precision pub) = true ->
  run options pauli_str to_label paulis_of_labels group_commuting passmanager_run
    bind_parameters pow_half hypot BackendState is_backend_v2 max_circuits backend_run
    PubLike coerce pubs precision w
  = (inr (inl ValueError), w).
Proof.
  intros Hcoerce Hacc Hbefore Hnan. unfold run, bindM, liftM. rewrite Hcoerce.
  rewrite (proj2 (validate_passes _) Hacc).
  unfold _run, bindM, liftM, consolidate.
  rewrite consolidate_nan; [reflexivity | exact Hbefore | exact Hnan].
Qed.

Lemma nan_precision_fails_in_the_job_witness :
  run Demo.options Demo.pauli_str Demo.pauli_str Demo.paulis_of_labels Demo.group_commuting
    Demo.passmanager_run Demo.bind_parameters Demo.pow_half Demo.hypot unit true None
    Demo.backend_run EstimatorPub (fun pub _ => inr pub)
    [Demo.pub_of Demo.tenth; Demo.pub_of nan; Demo.pub_of 0x1p-6%float] None
    (mkWorld unit tt [])
  = (inr (inl ValueError), mkWorld unit tt []).
Proof.
  apply (nan_precision_fails_in_the_job Demo.options Demo.pauli_str Demo.pauli_str
           Demo.paulis_of_labels Demo.group_commuting Demo.passmanager_run
           Demo.bind_parameters Demo.pow_half Demo.hypot unit true None Demo.backend_run
           EstimatorPub (fun pub _ => inr pub)
           [Demo.pub_of Demo.tenth; Demo.pub_of nan; Demo.pub_of 0x1p-6%float] None
           [Demo.pub_of Demo.tenth] (Demo.pub_of nan) [Demo.pub_of 0x1p-6%float]).
  - reflexivity.
  - repeat constructor; right; reflexivity.
  - repeat constructor. exists 100. vm_compute. reflexivity.
  - reflexivity.
Defined.

(** A precision too large for its square comes before the NaN: the job
    fails with the OverflowError of [**]. *)
Example overflow_before_nan :
  run Demo.options Demo.pauli_str Demo.pauli_str Demo.paulis_of_labels Demo.group_commuting
    Demo.passmanager_run Demo.bind_parameters Demo.pow_half Demo.hypot unit true None
    Demo.backend_run EstimatorPub (fun pub _ => inr pub)
    [Demo.pub_of 0x1p600%float; Demo.pub_of nan] None (mkWorld unit tt [])
  = (inr (inl OverflowError), mkWorld unit tt []).
Proof. vm_compute. reflexivity. Qed.

(** ** The statements on the small estimator *)

(** Three pubs, the first and the last with the precision 0.1 and the second
    with 0.015625, on the backend that always measures 0: [_run] calls the
    backend twice, first with the six circuits of the pubs 0 and 2 and 100
    shots, then with the three circuits of pub 1 and 4096 shots. *)
Lemma demo_run :
  exists results w',
    _run Demo.options Demo.pauli_str Demo.pauli_str Demo.paulis_of_labels
      Demo.group_commuting Demo.passmanager_run Demo.bind_parameters Demo.pow_half
      Demo.hypot unit true None Demo.backend_run
      [Demo.pub_of Demo.tenth; Demo.pub_of 0x1p-6%float; Demo.pub_of Demo.tenth] Demo.world
    = (inr results, w') /\
    map call_shots (calls unit w') = [100; 4096] /\
    map (fun c => List.length (call_circuits c)) (calls unit w') = [6%nat; 3%nat] /\
    map (option_map result_shots) results = [Some 100; Some 4096; Some 100] /\
    map (option_map (fun r => shape (evs r))) results
    = [Some [3%nat]; Some [3%nat]; Some [3%nat]].
Proof.
  eexists _, _. split.
  - match goal with |- ?l = _ => let v := eval vm_compute in l in change l with v end.
    reflexivity.
  - repeat split; reflexivity.
Qed.



(** On the three precisions of the specification the exact ceiling and the
    one of binary64 agree. *)
Example exact_shots_examples :
  exact_shots 0x1p-6%float = Some 4096 /\ binary64_shots 0x1p-6%float = 4096 /\
  exact_shots Demo.tenth = Some 100 /\ binary64_shots Demo.tenth = 100 /\
  exact_shots 0x1p-4%float = Some 256 /\ binary64_shots 0x1p-4%float = 256.
Proof. repeat split; vm_compute; reflexivity. Qed.

Lemma invalid_precision_stops_run_witness :
  run Demo.options Demo.pauli_str Demo.pauli_str Demo.paulis_of_labels
    Demo.group_commuting Demo.passmanager_run Demo.bind_parameters Demo.pow_half Demo.hypot
    unit true None Demo.backend_run EstimatorPub (fun pub _ => inr pub)
    [Demo.pub_of Demo.tenth; Demo.pub_of 0%float] None Demo.world
  = (inl ValueError, Demo.world).
Proof.
  apply (invalid_precision_stops_run Demo.options Demo.pauli_str Demo.pauli_str
           Demo.paulis_of_labels Demo.group_commuting Demo.passmanager_run
           Demo.bind_parameters Demo.pow_half Demo.hypot unit true None Demo.backend_run
           EstimatorPub (fun pub _ => inr pub)
           [Demo.pub_of Demo.tenth; Demo.pub_of 0%float] None
           [Demo.pub_of Demo.tenth; Demo.pub_of 0%float] Demo.world).
  - reflexivity.
  - apply Exists_cons_tl, Exists_cons_hd. reflexivity.
Defined.

Lemma run_results_follow_the_pubs_witness :
  let pubs := [Demo.pub_of Demo.tenth; Demo.pub_of 0x1p-6%float; Demo.pub_of Demo.tenth] in
  exists results w',
    _run Demo.options Demo.pauli_str Demo.pauli_str Demo.paulis_of_labels
      Demo.group_commuting Demo.passmanager_run Demo.bind_parameters Demo.pow_half
      Demo.hypot unit true None Demo.backend_run pubs Demo.world
    = (inr results, w') /\
    List.length results = 3%nat /\
    forall i pub,
      nth_error pubs i = Some pub ->
      exists r, nth_error results i = Some (Some r) /\ result_of pub r.
Proof.
  intro pubs. destruct demo_run as [results [w' [E _]]].
  exists results, w'. split; [exact E | ].
  exact (run_results_follow_the_pubs Demo.options Demo.pauli_str Demo.pauli_str
           Demo.paulis_of_labels Demo.group_commuting Demo.passmanager_run
           Demo.bind_parameters Demo.pow_half Demo.hypot unit true None Demo.backend_run
           pubs Demo.world w' results E).
Defined.

Lemma one_call_per_batch_of_pubs_witness :
  let pubs := [Demo.pub_of Demo.tenth; Demo.pub_of 0x1p-6%float; Demo.pub_of Demo.tenth] in
  exists results w' shots_list new,
    _run Demo.options Demo.pauli_str Demo.pauli_str Demo.paulis_of_labels
      Demo.group_commuting Demo.passmanager_run Demo.bind_parameters Demo.pow_half
      Demo.hypot unit true None Demo.backend_run pubs Demo.world
    = (inr results, w') /\
    Forall2 (fun pub shots => shots_of pub = inr shots) pubs shots_list /\
    calls unit w' = calls unit Demo.world ++ new /\
    map call_shots new = first_occurrences shots_list /\
    Forall (fun call => call_seed call = seed_simulator Demo.options) new.
Proof.
  intro pubs. destruct demo_run as [results [w' [E _]]].
  destruct (one_call_per_batch_of_pubs Demo.options Demo.pauli_str Demo.pauli_str
              Demo.paulis_of_labels Demo.group_commuting Demo.passmanager_run
              Demo.bind_parameters Demo.pow_half Demo.hypot unit true None Demo.backend_run
              pubs Demo.world w' results eq_refl E) as [shots_list [new H]].
  exists results, w', shots_list, new. split; [exact E | exact H].
Defined.

(** ** Post-processing *)

(** ** Indices and offsets *)

Lemma ndindex_length (shp : list nat) : List.length (ndindex shp) = size_of shp.
Proof.
  induction shp as [ | n rest IH]; cbn [ndindex size_of fold_right]; [reflexivity | ].
  fold (size_of rest). generalize 0%nat. induction n as [ | n IHn]; intro a; cbn [seq flat_map].
  - reflexivity.
  - rewrite length_app, length_map, IH, IHn. reflexivity.
Qed.

Lemma map_seq_shift (a b n : nat) :
  map (fun o => (a + o)%nat) (seq b n) = seq (a + b) n.
Proof.
  revert b; induction n as [ | n IH]; intro b; cbn [seq map]; [reflexivity | ].
  rewrite IH. f_equal. f_equal. lia.
Qed.

(** The [k]-th index of a shape lies at offset [k]. *)
Lemma ravel_ndindex (shp : list nat) :
  map (ravel shp) (ndindex shp) = map Some (seq 0 (size_of shp)).
Proof.
  induction shp as [ | n rest IH]; cbn [ndindex size_of fold_right]; [reflexivity | ].
  fold (size_of rest).
  assert (G : forall m a, (a + m <= n)%nat ->
            map (ravel (n :: rest))
              (flat_map (fun i => map (cons i) (ndindex rest)) (seq a m))
            = map Some (seq (a * size_of rest) (m * size_of rest))).
  { induction m as [ | m IHm]; intros a Ha; cbn [seq flat_map]; [reflexivity | ].
    rewrite map_app, IHm by lia.
    replace (S m * size_of rest)%nat with (size_of rest + m * size_of rest)%nat by lia.
    rewrite seq_app, map_app. f_equal.
    - rewrite map_map. cbn [ravel].
      destruct (Nat.ltb_spec a n) as [_ | N]; [ | lia].
      rewrite <- (map_map (ravel rest) (option_map (fun o => (a * size_of rest + o)%nat))).
      rewrite IH, map_map. cbn [option_map].
      rewrite <- (map_map (fun o => (a * size_of rest + o)%nat) Some), map_seq_shift.
      rewrite Nat.add_0_r. reflexivity.
    - do 2 f_equal. lia. }
  rewrite (G n 0%nat) by lia. reflexivity.
Qed.

Lemma ravel_nth (shp : list nat) (k : nat) (index : list nat) :
  nth_error (ndindex shp) k = Some index -> ravel shp index = Some k.
Proof.
  intro H. pose proof (ravel_ndindex shp) as E.
  apply (f_equal (fun l => nth_error l k)) in E.
  rewrite !nth_error_map, H in E. cbn [option_map] in E.
  destruct (nth_error (seq 0 (size_of shp)) k) as [k' | ] eqn:Hk; [ | discriminate].
  cbn [option_map] in E. injection E as E. rewrite E. f_equal.
  assert (Hlt : (k < List.length (seq 0 (size_of shp)))%nat)
    by (apply nth_error_Some; congruence).
  rewrite length_seq in Hlt.
  rewrite nth_error_nth' with (d := 0%nat) in Hk by (rewrite length_seq; exact Hlt).
  rewrite seq_nth in Hk by exact Hlt. injection Hk as <-. reflexivity.
Qed.

(** ** The loops of the post-processing *)

Lemma array_get_middle {A : Type} (shp : list nat) (index : list nat)
  (pre post : list A) (e : A) :
  ravel shp index = Some (List.length pre) ->
  array_get (mkArray shp (pre ++ e :: post)) index = ret e.
Proof.
  intro H. unfold array_get. cbn [shape flat]. rewrite H. apply getitem_middle.
Qed.

Lemma array_set_middle {A : Type} (shp : list nat) (index : list nat)
  (pre post : list A) (e v : A) :
  ravel shp index = Some (List.length pre) ->
  array_set (mkArray shp (pre ++ e :: post)) index v = ret (mkArray shp (pre ++ v :: post)).
Proof.
  intro H. unfold array_set. cbn [shape flat]. rewrite H, setitem_middle. reflexivity.
Qed.

Lemma array_get_total {A : Type} (arr : ndarray A) (index : list nat) :
  well_formed arr -> In index (ndindex (shape arr)) -> exists v, array_get arr index = inr v.
Proof.
  intros Hwf Hin. apply In_nth_error in Hin as [k Hk].
  assert (Hlt : (k < List.length (ndindex (shape arr)))%nat)
    by (apply nth_error_Some; congruence).
  rewrite ndindex_length in Hlt.
  unfold array_get. rewrite (ravel_nth _ _ _ Hk). unfold py.getitem.
  destruct (nth_error (flat arr) k) as [v | ] eqn:Hv; [exists v; reflexivity | ].
  apply nth_error_None in Hv. unfold well_formed in Hwf. lia.
Qed.

Lemma dict_get_error {K V : Type} (eqb : K -> K -> bool) (d : list (K * V)) (k : K) (e : exn) :
  dict_get eqb d k = inl e -> e = KeyError.
Proof.
  induction d as [ | [k0 v0] d IH]; cbn [dict_get].
  - intro H. injection H as <-. reflexivity.
  - destruct (eqb k0 k); [discriminate | exact IH].
Qed.

Lemma map_result_fails {A C : Type} (f : A -> result C) (l : list A) (a : A) (e : exn) :
  In a l -> f a = inl e -> exists e', map_result f l = inl e'.
Proof.
  induction l as [ | b l IH]; intros Hin Ha; [destruct Hin | ].
  cbn [map_result]. destruct (f b) as [e0 | c] eqn:Hb; cbn [bind]; [eexists; reflexivity | ].
  destruct Hin as [-> | Hin]; [congruence | ].
  destruct (IH Hin Ha) as [e' He']. rewrite He'. eexists. reflexivity.
Qed.


Lemma map_result_all {A C : Type} (f : A -> result C) (l : list A) :
  (forall a, In a l -> exists c, f a = inr c) -> exists cs, map_result f l = inr cs.
Proof.
  induction l as [ | a l IH]; intro H; cbn [map_result]; [eexists; reflexivity | ].
  destruct (H a (or_introl eq_refl)) as [c Hc]. rewrite Hc. cbn [bind].
  destruct IH as [cs Hcs]; [intros; apply H; right; assumption | ].
  rewrite Hcs. eexists. reflexivity.
Qed.

Section PostProcessingFacts.

Variable pow_half : float64 -> float64.
Variable hypot : float64 -> float64 -> float64.

Lemma stored_product_cast (old expval : float64) (coeff : Coeff) :
  cast_to_float (add_product old (mul_coeff expval coeff))
  = np.add old (stored_product expval coeff).
Proof. destruct coeff; reflexivity. Qed.

(** The loop over the pairs of one operator sum touches the cell of its index
    only. *)
Lemma item_loop (expval_map : list (Key * (float64 * float64)))
  (shp index param_index : list nat) (pre_e post_e pre_v post_v : list float64) :
  ravel shp index = Some (List.length pre_e) ->
  List.length pre_v = List.length pre_e ->
  forall (obs : OperatorSum) (e v : float64),
    py.for_each obs (postprocess_item pow_half hypot expval_map index param_index)
      (mkArray shp (pre_e ++ e :: post_e), mkArray shp (pre_v ++ v :: post_v))
    = ('(e', v') <- accumulate_pairs pow_half hypot expval_map param_index obs (e, v) ;;
       ret (mkArray shp (pre_e ++ e' :: post_e), mkArray shp (pre_v ++ v' :: post_v))).
Proof.
  intros Hravel Hlen.
  induction obs as [ | [pauli coeff] obs IH]; intros e v;
    unfold accumulate_pairs; cbn [py.for_each]; [reflexivity | ].
  unfold postprocess_item at 1.
  destruct (dict_get key_eqb expval_map (param_index, pauli)) as [err | [expval variance]];
    cbn [bind ret]; [reflexivity | ].
  rewrite (array_get_middle shp index pre_e post_e e Hravel). cbn [bind ret].
  rewrite (array_set_middle shp index pre_e post_e e _ Hravel). cbn [bind ret].
  rewrite <- Hlen in Hravel.
  rewrite (array_get_middle shp index pre_v post_v v Hravel). cbn [bind ret].
  rewrite (array_set_middle shp index pre_v post_v v _ Hravel). cbn [bind ret].
  rewrite stored_product_cast. apply IH.
Qed.

Section IndexLoop.

Variable expval_map : list (Key * (float64 * float64)).
Variable bc_param_ind : ndarray (list nat).
Variable bc_obs : ndarray OperatorSum.
Variable shp : list nat.

Lemma index_loop (items : list (list nat)) :
  forall pre_e pre_v : list float64,
    List.length pre_v = List.length pre_e ->
    map (ravel shp) items = map Some (seq (List.length pre_e) (List.length items)) ->
    py.for_each items
      (fun index st =>
         param_index <- array_get bc_param_ind index ;;
         obs <- array_get bc_obs index ;;
         py.for_each obs (postprocess_item pow_half hypot expval_map index param_index) st)
      (mkArray shp (pre_e ++ repeat 0%float (List.length items)),
       mkArray shp (pre_v ++ repeat 0%float (List.length items)))
    = (cells <- map_result (cell_at pow_half hypot expval_map bc_param_ind bc_obs) items ;;
       ret (mkArray shp (pre_e ++ map fst cells), mkArray shp (pre_v ++ map snd cells))).
Proof.
  induction items as [ | index items IH]; intros pre_e pre_v Hlen Hravel;
    cbn [py.for_each map_result List.length repeat].
  - reflexivity.
  - cbn [List.length seq map] in Hravel. injection Hravel as Hindex Hrest.
    unfold cell_at at 1.
    destruct (array_get bc_param_ind index) as [err | param_index]; cbn [bind ret];
      [reflexivity | ].
    destruct (array_get bc_obs index) as [err | obs]; cbn [bind ret]; [reflexivity | ].
    rewrite (item_loop _ _ _ _ _ _ _ _ Hindex Hlen).
    destruct (accumulate_pairs pow_half hypot expval_map param_index obs _)
      as [err | [e' v']]; cbn [bind ret]; [reflexivity | ].
    specialize (IH (pre_e ++ [e']) (pre_v ++ [v'])).
    rewrite !length_app in IH. cbn [List.length] in IH. rewrite !Nat.add_1_r in IH.
    rewrite <- !app_assoc in IH. cbn [app] in IH.
    rewrite IH by (try exact Hrest; congruence).
    destruct (map_result _ items) as [err | cells]; cbn [bind ret map fst snd];
      [reflexivity | ].
    rewrite <- !app_assoc. reflexivity.
Qed.

End IndexLoop.

Lemma accumulate_by_index (expval_map : list (Key * (float64 * float64)))
  (bc_param_ind : ndarray (list nat)) (bc_obs : ndarray OperatorSum) :
  accumulate pow_half hypot expval_map bc_param_ind bc_obs
  = (cells <- map_result (cell_at pow_half hypot expval_map bc_param_ind bc_obs)
               (ndindex (shape bc_param_ind)) ;;
     ret (mkArray (shape bc_param_ind) (map fst cells),
          mkArray (shape bc_param_ind) (map snd cells))).
Proof.
  unfold accumulate, zeros_like. rewrite <- ndindex_length.
  apply (index_loop expval_map bc_param_ind bc_obs (shape bc_param_ind)
           (ndindex (shape bc_param_ind)) [] [] eq_refl).
  cbn [List.length]. rewrite ndindex_length. apply ravel_ndindex.
Qed.

Lemma sqrt_int_in_range (shots : Z) :
  - 2 ^ 63 <= shots < 2 ^ 64 -> np.sqrt_int shots = inr (np.sqrt (round_int shots)).
Proof.
  intros [Hlo Hhi]. unfold np.sqrt_int.
  apply Z.leb_le in Hlo. apply Z.ltb_lt in Hhi. rewrite Hlo, Hhi. reflexivity.
Qed.


(** For a number of shots that numpy takes the square root of (an int64 or
    a uint64), the code is the post-processing index by index. *)
Lemma postprocess_equation (pub : EstimatorPub)
  (expval_map : list (Key * (float64 * float64))) (data : _PreprocessedData) (shots : Z) :
  - 2 ^ 63 <= shots < 2 ^ 64 ->
  _postprocess_pub pow_half hypot pub expval_map data shots
  = postprocess_by_index pow_half hypot pub expval_map data shots.
Proof.
  intro Hshots. unfold _postprocess_pub, postprocess_by_index. rewrite accumulate_by_index.
  destruct (map_result _ _) as [err | cells]; cbn [bind ret shape flat]; [reflexivity | ].
  rewrite (sqrt_int_in_range shots Hshots). cbn [bind ret].
  rewrite map_map. reflexivity.
Qed.



(** *** Errors of the post-processing *)

Lemma accumulate_pairs_error (expval_map : list (Key * (float64 * float64)))
  (param_index : list nat) (obs : OperatorSum) :
  forall (start : float64 * float64) (e : exn),
    accumulate_pairs pow_half hypot expval_map param_index obs start = inl e -> e = KeyError.
Proof.
  unfold accumulate_pairs.
  induction obs as [ | [pauli coeff] obs IH]; intros [ev err] e; cbn [py.for_each].
  - discriminate.
  - destruct (dict_get key_eqb expval_map (param_index, pauli)) as [e0 | [expval variance]] eqn:Hg;
      cbn [bind ret].
    + intro H. injection H as <-. eapply dict_get_error; exact Hg.
    + apply IH.
Qed.

Lemma accumulate_pairs_missing (expval_map : list (Key * (float64 * float64)))
  (param_index : list nat) (obs : OperatorSum) (label : string) (coeff : Coeff) :
  In (label, coeff) obs ->
  dict_get key_eqb expval_map (param_index, label) = inl KeyError ->
  forall start,
    accumulate_pairs pow_half hypot expval_map param_index obs start = inl KeyError.
Proof.
  intros Hin Hmiss. unfold accumulate_pairs.
  induction obs as [ | [pauli c] obs IH]; intros [ev err]; [destruct Hin | ].
  cbn [py.for_each].
  destruct (dict_get key_eqb expval_map (param_index, pauli)) as [e0 | [expval variance]] eqn:Hg;
    cbn [bind ret].
  - f_equal. eapply dict_get_error; exact Hg.
  - destruct Hin as [E | Hin]; [injection E as -> ->; congruence | ].
    apply IH, Hin.
Qed.

(** X19: on arrays of one shape that hold what their shape says, all that
    the accumulation of [_postprocess_pub] can raise is KeyError, and it
    does raise it when a label of an operator sum has no entry for the
    binding index of its cell. *)
Theorem missing_entry_is_a_key_error (pub : EstimatorPub)
  (expval_map : list (Key * (float64 * float64))) (data : _PreprocessedData) (shots : Z)
  (index param_index : list nat) (obs : OperatorSum) (label : string) (coeff : Coeff) :
  well_formed (parameter_indices data) ->
  well_formed (observables data) ->
  shape (observables data) = shape (parameter_indices data) ->
  In index (ndindex (shape (parameter_indices data))) ->
  array_get (parameter_indices data) index = inr param_index ->
  array_get (observables data) index = inr obs ->
  In (label, coeff) obs ->
  dict_get key_eqb expval_map (param_index, label) = inl KeyError ->
  _postprocess_pub pow_half hypot pub expval_map data shots = inl KeyError.
Proof.
  intros Hwp Hwo Hshape Hin Hp Ho Hlabel Hmiss.
  unfold _postprocess_pub. rewrite accumulate_by_index.
  assert (Hcell : cell_at pow_half hypot expval_map (parameter_indices data)
                    (observables data) index
                  = inl KeyError).
  { unfold cell_at. rewrite Hp, Ho. cbn [bind].
    eapply accumulate_pairs_missing; eassumption. }
  destruct (map_result_fails _ _ _ _ Hin Hcell) as [e He]. rewrite He. cbn [bind].
  apply map_result_inl in He as [idx [Hidx Hfail]].
  unfold cell_at in Hfail.
  destruct (array_get_total _ idx Hwp Hidx) as [pi Hpi].
  destruct (array_get_total (observables data) idx Hwo) as [ob Hob];
    [rewrite Hshape; exact Hidx | ].
  rewrite Hpi, Hob in Hfail. cbn [bind] in Hfail.
  apply accumulate_pairs_error in Hfail. congruence.
Qed.

(** ** Complex coefficients *)

(** C2: the imaginary part of a complex coefficient is not retained.  The
    docstring of the class takes the coefficients [a_i] of an observable
    as complex numbers and states [E(O) = sum of a_i * E(P_i)].  For the
    operator sum [{"Z": 1j}] and expectation 1 that sum is [0 + 1j]; the
    value that [_postprocess_pub] returns is the float 0: the imaginary part
    is gone in the store into the array of floats. *)
Theorem imaginary_part_is_discarded :
  exists res,
    _postprocess_pub pow_half hypot imaginary_pub sure_outcome imaginary_data 4096 = inr res /\
    array_get (evs res) [] = inr 0%float /\
    flat (evs res) = [0%float] /\
    complex_accumulate sure_outcome [] [("Z"%string, CoeffComplex 0%float 1%float)]
    = inr (0%float, 1%float).
Proof.
  eexists. split; [rewrite postprocess_equation by (vm_compute; split; [discriminate | reflexivity]); reflexivity | ].
  split; [reflexivity | ]. split; reflexivity.
Qed.

End PostProcessingFacts.


Lemma missing_entry_is_a_key_error_witness :
  _postprocess_pub Demo.pow_half Demo.hypot single_z_pub [] single_z_data 1000
  = inl KeyError.
Proof.
  apply (missing_entry_is_a_key_error Demo.pow_half Demo.hypot single_z_pub [] single_z_data
           1000 [] [] [("Z"%string, CoeffFloat 1%float)] "Z"%string (CoeffFloat 1%float));
    try reflexivity; left; reflexivity.
Defined.

(** A number of shots beyond the unsigned 64-bit integers: numpy has no
    square root for it, and the post-processing raises TypeError after the
    accumulation. *)
Example huge_shots_type_error :
  _postprocess_pub Demo.pow_half Demo.hypot single_z_pub
    [(([], "Z"%string), (1%float, 0%float))] single_z_data (2 ^ 64)
  = inl TypeError.
Proof. reflexivity. Qed.

(** ** Shapes *)

Lemma broadcast_to_shape {A : Type} (arr arr' : ndarray A) (target : list nat) :
  broadcast_to arr target = inr arr' ->
  shape arr' = target /\ List.length (flat arr') = size_of target.
Proof.
  unfold broadcast_to.
  destruct (map_result _ _) as [e | cells] eqn:Hcells; cbn [bind ret]; [discriminate | ].
  intro H. injection H as <-. cbn [shape flat]. split; [reflexivity | ].
  apply map_result_inr, Forall2_length in Hcells. rewrite <- Hcells. apply ndindex_length.
Qed.


Section ShapeFacts.

Variable options : Options.
Variable pauli_str : Pauli -> string.
Variable paulis_of_labels : list string -> PauliList.
Variable group_commuting : PauliList -> list PauliList.
Variable passmanager_run : list QuantumCircuit -> list QuantumCircuit.
Variable bind_parameters : BindingsArray -> QuantumCircuit -> list nat -> QuantumCircuit.
Variable pow_half : float64 -> float64.
Variable hypot : float64 -> float64 -> float64.



End ShapeFacts.



(** ** Broadcasting *)

Lemma Forall2_rev {A C : Type} (Rel : A -> C -> Prop) (l : list A) (l' : list C) :
  Forall2 Rel l l' -> Forall2 Rel (rev l) (rev l').
Proof.
  induction 1 as [ | a c l l' Hac _ IH]; cbn [rev]; [constructor | ].
  apply Forall2_app; [exact IH | repeat constructor; exact Hac].
Qed.

Lemma Forall2_skipn {A C : Type} (Rel : A -> C -> Prop) (n : nat) :
  forall (l : list A) (l' : list C),
    Forall2 Rel l l' -> Forall2 Rel (skipn n l) (skipn n l').
Proof.
  induction n as [ | n IH]; intros l l' H; [exact H | ].
  destruct H as [ | a c l l' _ H]; cbn [skipn]; [constructor | apply IH, H].
Qed.

Lemma Forall2_same {A : Type} (Rel : A -> A -> Prop) (l : list A) :
  (forall a, Rel a a) -> Forall2 Rel l l.
Proof. intro H. induction l; constructor; auto. Qed.

Lemma broadcast_dim_stretch (x y d : nat) :
  broadcast_dim x y = Some d -> (x = d \/ x = 1%nat) /\ (y = d \/ y = 1%nat).
Proof.
  unfold broadcast_dim.
  destruct (Nat.eqb_spec x y) as [-> | _]; [intro H; injection H as <-; auto | ].
  destruct (Nat.eqb_spec x 1) as [-> | _]; [intro H; injection H as <-; auto | ].
  destruct (Nat.eqb_spec y 1) as [-> | _]; [intro H; injection H as <-; auto | ].
  discriminate.
Qed.

Lemma broadcast_rev_stretch (a : list nat) :
  forall (b l : list nat),
    broadcast_rev a b = Some l ->
    ((List.length a <= List.length l)%nat /\
     Forall2 (fun n t => n = t \/ n = 1%nat) a (firstn (List.length a) l)) /\
    ((List.length b <= List.length l)%nat /\
     Forall2 (fun n t => n = t \/ n = 1%nat) b (firstn (List.length b) l)).
Proof.
  induction a as [ | x a IH]; intros b l H.
  - cbn [broadcast_rev] in H. injection H as <-. cbn [List.length firstn].
    repeat split; try lia; [constructor | ].
    rewrite firstn_all. apply Forall2_same. auto.
  - destruct b as [ | y b].
    + cbn [broadcast_rev] in H. injection H as <-.
      repeat split; try (cbn [List.length]; lia); [ | constructor].
      rewrite firstn_all. apply Forall2_same. auto.
    + cbn [broadcast_rev] in H.
      destruct (broadcast_dim x y) as [d | ] eqn:Hd; [ | discriminate].
      destruct (broadcast_rev a b) as [l' | ] eqn:Hl; [ | discriminate].
      injection H as <-. apply broadcast_dim_stretch in Hd as [Hx Hy].
      destruct (IH b l' Hl) as [[Ha1 Ha2] [Hb1 Hb2]].
      cbn [List.length firstn]. repeat split; try lia; constructor; assumption.
Qed.

(** The broadcast shape is the shape both arguments stretch to. *)
Lemma broadcast_shapes_stretch (s1 s2 target : list nat) :
  broadcast_shapes s1 s2 = Some target ->
  stretches_to s1 target /\ stretches_to s2 target /\
  List.length target = Nat.max (List.length s1) (List.length s2).
Proof.
  unfold broadcast_shapes.
  destruct (broadcast_rev (rev s1) (rev s2)) as [l | ] eqn:Hl; [ | discriminate].
  cbn [option_map]. intro H. injection H as <-.
  assert (Hmax : List.length l = Nat.max (List.length s1) (List.length s2)).
  { clear -Hl. rewrite <- (length_rev s1), <- (length_rev s2).
    revert Hl. generalize (rev s1) (rev s2). clear. intros a; revert l.
    induction a as [ | x a IH]; intros l b H.
    - cbn [broadcast_rev] in H. injection H as <-. reflexivity.
    - destruct b as [ | y b]; cbn [broadcast_rev] in H.
      + injection H as <-. reflexivity.
      + destruct (broadcast_dim x y); [ | discriminate].
        destruct (broadcast_rev a b) as [l' | ] eqn:Hl'; [ | discriminate].
        injection H as <-. cbn [List.length]. rewrite (IH _ _ Hl'). reflexivity. }
  apply broadcast_rev_stretch in Hl as [[Ha1 Ha2] [Hb1 Hb2]].
  rewrite length_rev in Ha1, Ha2, Hb1, Hb2.
  unfold stretches_to. rewrite !length_rev.
  repeat split; try assumption.
  - rewrite skipn_rev. replace (List.length l - (List.length l - List.length s1))%nat
      with (List.length s1) by lia.
    rewrite <- (rev_involutive s1) at 1. apply Forall2_rev, Ha2.
  - rewrite skipn_rev. replace (List.length l - (List.length l - List.length s2))%nat
      with (List.length s2) by lia.
    rewrite <- (rev_involutive s2) at 1. apply Forall2_rev, Hb2.
Qed.

Lemma ndindex_bounds (shp : list nat) (index : list nat) :
  In index (ndindex shp) -> Forall2 lt index shp.
Proof.
  revert index; induction shp as [ | n rest IH]; intros index Hin; cbn [ndindex] in Hin.
  - destruct Hin as [<- | []]. constructor.
  - apply in_flat_map in Hin as [i [Hi Hin]]. apply in_map_iff in Hin as [idx [<- Hidx]].
    apply in_seq in Hi. constructor; [lia | apply IH, Hidx].
Qed.

Lemma ravel_lt (shp : list nat) :
  forall (index : list nat) (o : nat), ravel shp index = Some o -> (o < size_of shp)%nat.
Proof.
  induction shp as [ | n rest IH]; intros [ | i index] o H; cbn [ravel] in H;
    try discriminate.
  - injection H as <-. cbn. lia.
  - destruct (Nat.ltb_spec i n) as [Hi | _]; [ | discriminate].
    destruct (ravel rest index) as [o' | ] eqn:Ho; [ | discriminate].
    cbn [option_map] in H. injection H as <-. apply IH in Ho.
    cbn [size_of fold_right]. fold (size_of rest). nia.
Qed.

Lemma ravel_source (src : list nat) :
  forall (target index : list nat),
    Forall2 (fun n t => n = t \/ n = 1%nat) src target ->
    Forall2 lt index target ->
    exists o,
      ravel src (map (fun p => if (fst p =? 1)%nat then 0%nat else snd p) (combine src index))
      = Some o.
Proof.
  induction src as [ | n src IH]; intros target index Hs Hi.
  - exists 0%nat. reflexivity.
  - inversion Hs as [ | n0 t src0 target0 Hn Hs']; subst.
    inversion Hi as [ | i t0 index0 target1 Hit Hi']; subst.
    destruct (IH _ _ Hs' Hi') as [o Ho].
    cbn [combine map fst snd ravel]. rewrite Ho.
    destruct (Nat.eqb_spec n 1) as [-> | N].
    + cbn [Nat.ltb Nat.leb option_map]. eexists. reflexivity.
    + destruct Hn as [-> | ->]; [ | contradiction].
      destruct (Nat.ltb_spec i t) as [_ | C]; [ | lia].
      cbn [option_map]. eexists. reflexivity.
Qed.

Lemma broadcast_to_returns {A : Type} (arr : ndarray A) (target : list nat) :
  well_formed arr ->
  stretches_to (shape arr) target ->
  exists arr', broadcast_to arr target = inr arr'.
Proof.
  intros Hwf [Hlen Hs]. unfold broadcast_to.
  destruct (map_result_all
              (fun index => array_get arr (source_index (shape arr) index))
              (ndindex target)) as [cells Hcells].
  - intros index Hin. apply ndindex_bounds in Hin.
    pose proof (Forall2_length Hin) as Hl.
    apply (Forall2_skipn _ (List.length target - List.length (shape arr))) in Hin.
    destruct (ravel_source _ _ _ Hs Hin) as [o Ho].
    unfold array_get, source_index. rewrite Hl, Ho.
    apply ravel_lt in Ho. unfold py.getitem.
    destruct (nth_error (flat arr) o) as [a | ] eqn:Ha; [eexists; reflexivity | ].
    apply nth_error_None in Ha. unfold well_formed in Hwf. lia.
  - rewrite Hcells. eexists. reflexivity.
Qed.

(** Broadcasting a pub returns as soon as the shapes agree and the
    observables array is well formed. *)
Lemma broadcast_pub_returns (pub : EstimatorPub) (target : list nat) :
  broadcast_shapes (shape (pub_parameter_values pub)) (shape (pub_observables pub))
  = Some target ->
  well_formed (pub_observables pub) ->
  exists bc_param_ind bc_obs,
    broadcast_pub pub = inr (bc_param_ind, bc_obs) /\
    shape bc_param_ind = target /\ shape bc_obs = target /\
    well_formed bc_param_ind /\ well_formed bc_obs.
Proof.
  intros Ht Hwf. unfold broadcast_pub, broadcast_arrays. cbn [shape]. rewrite Ht.
  destruct (broadcast_shapes_stretch _ _ _ Ht) as [Hs1 [Hs2 _]].
  destruct (broadcast_to_returns
              (mkArray (shape (pub_parameter_values pub))
                 (ndindex (shape (pub_parameter_values pub)))) target) as [a Ha].
  { unfold well_formed. cbn [shape flat]. apply ndindex_length. }
  { exact Hs1. }
  destruct (broadcast_to_returns (pub_observables pub) target Hwf Hs2) as [b Hb].
  rewrite Ha, Hb. cbn [bind ret]. exists a, b.
  apply broadcast_to_shape in Ha as [Ha1 Ha2], Hb as [Hb1 Hb2].
  unfold well_formed. rewrite Ha1, Hb1. auto.
Qed.


(** ** The broadcast of a pub *)







(** ** The table of labels per binding index *)

Lemma set_add_In (s : list string) (x y : string) :
  In y (set_add s x) <-> In y s \/ y = x.
Proof.
  unfold set_add. destruct (existsb (String.eqb x) s) eqn:E.
  - apply existsb_exists in E as [z [Hz Ez]]. apply String.eqb_eq in Ez. subst z.
    split; [auto | ]. intros [H | ->]; assumption.
  - rewrite in_app_iff. cbn [In]. split; intros [H | H]; auto.
    + destruct H as [<- | []]. auto.
Qed.

Lemma set_add_NoDup (s : list string) (x : string) : NoDup s -> NoDup (set_add s x).
Proof.
  intro Hnd. unfold set_add. destruct (existsb (String.eqb x) s) eqn:E; [exact Hnd | ].
  apply NoDup_app; [exact Hnd | repeat constructor; intros [] | ].
  intros y Hy [Exy | []]. subst y.
  assert (T : existsb (String.eqb x) s = true)
    by (apply existsb_exists; exists x; split; [exact Hy | apply String.eqb_refl]).
  congruence.
Qed.

Lemma set_update_In (keys : list string) :
  forall (s : list string) (y : string), In y (set_update s keys) <-> In y s \/ In y keys.
Proof.
  unfold set_update. induction keys as [ | k keys IH]; intros s y; cbn [fold_left In].
  - tauto.
  - rewrite IH, set_add_In. split; intros [H | H]; auto.
    + destruct H; auto.
    + destruct H; auto.
Qed.

Lemma set_update_NoDup (keys : list string) :
  forall s : list string, NoDup s -> NoDup (set_update s keys).
Proof.
  unfold set_update. induction keys as [ | k keys IH]; intros s Hs; cbn [fold_left].
  - exact Hs.
  - apply IH, set_add_NoDup, Hs.
Qed.

Lemma index_eqb_eq (a b : list nat) : index_eqb a b = true <-> a = b.
Proof.
  unfold index_eqb. destruct (list_eq_dec Nat.eq_dec a b); split; congruence.
Qed.

Lemma param_obs_loop (bc_param_ind : ndarray (list nat)) (bc_obs : ndarray OperatorSum) :
  forall (todo done : list (list nat)) (m m' : list (list nat * list string)),
    table_of bc_param_ind bc_obs done m ->
    py.for_each todo
      (fun index param_obs_map =>
         param_index <- array_get bc_param_ind index ;;
         obs <- array_get bc_obs index ;;
         let labels := dict_get_default index_eqb param_obs_map param_index [] in
         ret (dict_set index_eqb param_obs_map param_index
                (set_update labels (map fst obs))))
      m
    = inr m' ->
    table_of bc_param_ind bc_obs (done ++ todo) m'.
Proof.
  induction todo as [ | index todo IH]; intros done m m' Hinv Hrun; cbn [py.for_each] in Hrun.
  - injection Hrun as <-. rewrite app_nil_r. exact Hinv.
  - destruct (array_get bc_param_ind index) as [e | pidx] eqn:Hp; cbn [bind] in Hrun;
      [discriminate | ].
    destruct (array_get bc_obs index) as [e | obs] eqn:Ho; cbn [bind ret] in Hrun;
      [discriminate | ].
    replace (done ++ index :: todo) with ((done ++ [index]) ++ todo)
      by (rewrite <- app_assoc; reflexivity).
    eapply IH; [ | exact Hrun]. clear IH Hrun.
    destruct Hinv as [Hnd [Hrows Hkeys]].
    set (labels0 := dict_get_default index_eqb m pidx []).
    set (new := set_update labels0 (map fst obs)).
    assert (Hnd1 : NoDup (map fst (dict_set index_eqb m pidx new)))
      by (apply (dict_set_NoDup _ _ index_eqb index_eqb_eq); exact Hnd).
    assert (H0 : NoDup labels0 /\
                 forall label, In label labels0 <->
                               labels_in bc_param_ind bc_obs done pidx label).
    { subst labels0. unfold dict_get_default.
      destruct (dict_get index_eqb m pidx) as [e | l] eqn:Hg.
      - split; [constructor | ]. intro label. split; [intros [] | ].
        intros [idx [ob [Hin [Hpi _]]]]. exfalso.
        apply (Hkeys _ _ Hin) in Hpi. apply in_map_iff in Hpi as [[k l] [Ek Hkl]].
        cbn [fst] in Ek. subst k.
        rewrite (In_dict_get _ _ index_eqb index_eqb_eq m pidx l Hnd Hkl) in Hg. discriminate.
      - apply Hrows. apply (dict_get_In _ _ index_eqb index_eqb_eq). exact Hg. }
    destruct H0 as [Hnd0 Hmem0].
    assert (Hnew : NoDup new /\
                   forall label, In label new <->
                                 labels_in bc_param_ind bc_obs (done ++ [index]) pidx label).
    { split; [apply set_update_NoDup; exact Hnd0 | ].
      intro label. subst new. rewrite set_update_In, Hmem0. split.
      - intros [[idx [ob [Hin H]]] | Hl].
        + exists idx, ob. split; [apply in_or_app; left; exact Hin | exact H].
        + exists index, obs. split; [apply in_or_app; right; left; reflexivity | auto].
      - intros [idx [ob [Hin [Hpi [Hob Hl]]]]].
        apply in_app_or in Hin as [Hin | [<- | []]].
        + left. exists idx, ob. auto.
        + right. assert (ob = obs) by congruence. subst ob. exact Hl. }
    split; [exact Hnd1 | ]. split.
    + intros k l Hin.
      assert (Hcase : (k = pidx /\ l = new) \/ (k <> pidx /\ In (k, l) m)).
      { destruct (list_eq_dec Nat.eq_dec k pidx) as [-> | Hne].
        - left. split; [reflexivity | ].
          pose proof (dict_set_In_new index_eqb index_eqb_eq m pidx new) as Hn.
          pose proof (In_dict_get _ _ index_eqb index_eqb_eq _ pidx l Hnd1 Hin) as G1.
          pose proof (In_dict_get _ _ index_eqb index_eqb_eq _ pidx new Hnd1 Hn) as G2.
          congruence.
        - right. split; [exact Hne | ].
          apply (dict_set_In_key index_eqb index_eqb_eq) in Hin as [[E _] | Hin];
            [contradiction | exact Hin]. }
      destruct Hcase as [[-> ->] | [Hne Hold]]; [exact Hnew | ].
      destruct (Hrows _ _ Hold) as [Hndl Hmem]. split; [exact Hndl | ].
      intro label. rewrite Hmem. split.
      * intros [idx [ob [Hi H]]]. exists idx, ob.
        split; [apply in_or_app; left; exact Hi | exact H].
      * intros [idx [ob [Hi [Hpi H]]]]. apply in_app_or in Hi as [Hi | [<- | []]].
        -- exists idx, ob. auto.
        -- congruence.
    + intros idx k Hin Hk.
      destruct (list_eq_dec Nat.eq_dec k pidx) as [-> | Hne].
      * apply in_map_iff. exists (pidx, new). split; [reflexivity | ].
        apply (dict_set_In_new index_eqb index_eqb_eq).
      * apply in_app_or in Hin as [Hin | [<- | []]]; [ | congruence].
        pose proof (Hkeys _ _ Hin Hk) as Hkm. apply in_map_iff in Hkm as [[k' l] [Ek Hkl]].
        cbn [fst] in Ek. subst k'.
        apply in_map_iff. exists (k, l). split; [reflexivity | ].
        apply (dict_set_In_old index_eqb index_eqb_eq); assumption.
Qed.

(** X22: preprocessing binds the circuit once per binding index: the
    circuits of a pub are built from a table with one row per binding index
    that occurs in the broadcast, and the row holds, once each, the labels
    of the operator sums at the broadcast indices with that binding. *)
Theorem circuits_come_from_one_row_per_binding (options : Options)
  (pauli_str : Pauli -> string) (paulis_of_labels : list string -> PauliList)
  (group_commuting : PauliList -> list PauliList)
  (passmanager_run : list QuantumCircuit -> list QuantumCircuit)
  (bind_parameters : BindingsArray -> QuantumCircuit -> list nat -> QuantumCircuit)
  (pub : EstimatorPub) (data : _PreprocessedData) :
  _preprocess_pub options pauli_str paulis_of_labels group_commuting passmanager_run
    bind_parameters pub = inr data ->
  exists param_obs_map,
    table_of (parameter_indices data) (observables data)
      (ndindex (shape (parameter_indices data))) param_obs_map /\
    _bind_and_add_measurements options pauli_str paulis_of_labels group_commuting
      passmanager_run bind_parameters (pub_circuit pub) (pub_parameter_values pub)
      param_obs_map
    = inr (circuits data).
Proof.
  unfold _preprocess_pub.
  destruct (broadcast_pub pub) as [e | [bc_param_ind bc_obs]]; cbn [bind]; [discriminate | ].
  destruct (py.for_each (ndindex (shape bc_param_ind)) _ []) as [e | param_obs_map] eqn:Hloop;
    cbn [bind]; [discriminate | ].
  destruct (_bind_and_add_measurements _ _ _ _ _ _ _ _ _) as [e | bound_circuits] eqn:Hbind;
    cbn [bind ret]; [discriminate | ].
  intro H. injection H as <-. cbn [parameter_indices observables circuits].
  exists param_obs_map. split; [ | exact Hbind].
  apply (param_obs_loop bc_param_ind bc_obs _ [] [] param_obs_map); [ | exact Hloop].
  split; [constructor | ]. split; [intros ? ? [] | intros ? ? []].
Qed.

Lemma circuits_come_from_one_row_per_binding_witness :
  exists data param_obs_map,
    _preprocess_pub Demo.options Demo.pauli_str Demo.paulis_of_labels Demo.group_commuting
      Demo.passmanager_run Demo.bind_parameters (Demo.pub_of 0x1p-6%float) = inr data /\
    table_of (parameter_indices data) (observables data)
      (ndindex (shape (parameter_indices data))) param_obs_map /\
    _bind_and_add_measurements Demo.options Demo.pauli_str Demo.paulis_of_labels
      Demo.group_commuting Demo.passmanager_run Demo.bind_parameters
      (pub_circuit (Demo.pub_of 0x1p-6%float))
      (pub_parameter_values (Demo.pub_of 0x1p-6%float)) param_obs_map
    = inr (circuits data).
Proof.
  assert (E : exists data,
            _preprocess_pub Demo.options Demo.pauli_str Demo.paulis_of_labels
              Demo.group_commuting Demo.passmanager_run Demo.bind_parameters
              (Demo.pub_of 0x1p-6%float) = inr data)
    by (eexists; vm_compute; reflexivity).
  destruct E as [data E]. exists data.
  destruct (circuits_come_from_one_row_per_binding _ _ _ _ _ _ _ data E) as [m Hm].
  exists m. split; [exact E | exact Hm].
Defined.

(** ** The keys of the table of expectation values *)

Lemma dict_set_keeps {K V : Type} (eqb : K -> K -> bool) :
  (forall a b, eqb a b = true <-> a = b) ->
  forall (d : list (K * V)) (k k1 : K) (v : V),
    (exists v1, dict_get eqb d k1 = inr v1) ->
    exists v1, dict_get eqb (dict_set eqb d k v) k1 = inr v1.
Proof.
  intros eqb_eq d k k1 v [v1 H]. rewrite (dict_get_set _ _ eqb eqb_eq).
  destruct (eqb k k1); eexists; [reflexivity | exact H].
Qed.

Lemma key_eqb_eq (a b : Key) : key_eqb a b = true <-> a = b.
Proof.
  destruct a as [i s], b as [j t]. unfold key_eqb. cbn [fst snd].
  rewrite andb_true_iff, index_eqb_eq, String.eqb_eq. split.
  - intros [-> ->]. reflexivity.
  - intro H. injection H as -> ->. split; reflexivity.
Qed.

Lemma fill_table_keys (to_label : Pauli -> string) (param_index : list nat) :
  forall (rows : list (Pauli * (float64 * float64))) (m : list (Key * (float64 * float64))),
    let m' := fold_left
                (fun expval_map '(pauli, (expval, variance)) =>
                   dict_set key_eqb expval_map (param_index, to_label pauli)
                     (expval, variance))
                rows m in
    (forall key, (exists v, dict_get key_eqb m key = inr v) ->
                 exists v, dict_get key_eqb m' key = inr v) /\
    (forall pauli, In pauli (map fst rows) ->
                   exists v, dict_get key_eqb m' (param_index, to_label pauli) = inr v).
Proof.
  induction rows as [ | [pauli [e v]] rows IH]; intros m; cbn [fold_left map fst].
  - split; [auto | intros ? []].
  - destruct (IH (dict_set key_eqb m (param_index, to_label pauli) (e, v))) as [Hkeep Hnew].
    split.
    + intros key Hkey. apply Hkeep. apply (dict_set_keeps key_eqb key_eqb_eq). exact Hkey.
    + intros p [<- | Hin]; [ | apply Hnew, Hin].
      apply Hkeep. exists (e, v). rewrite (dict_get_set _ _ key_eqb key_eqb_eq).
      rewrite (eqb_refl_true _ key_eqb key_eqb_eq). reflexivity.
Qed.

Lemma setitem_length {A : Type} (l l' : list A) (k : nat) (v : A) :
  py.setitem l k v = inr l' -> List.length l' = List.length l.
Proof.
  unfold py.setitem. destruct (nth_error l k); [ | discriminate].
  intro H. injection H as <-. apply update_length.
Qed.

Lemma iadd_at_length (expvals expvals' : list float64) (k : nat) (n : Z) :
  iadd_at expvals k n = inr expvals' -> List.length expvals' = List.length expvals.
Proof.
  unfold iadd_at.
  destruct (py.getitem expvals k) as [e | old]; cbn [bind]; [discriminate | ].
  destruct (of_int n) as [e | v]; cbn [bind]; [discriminate | ].
  apply setitem_length.
Qed.

Lemma count_step_length (size : nat) (diag_inds : list Z) (item : string * Z)
  (st st' : list float64 * Z) :
  count_step size diag_inds item st = inr st' ->
  List.length (fst st') = List.length (fst st).
Proof.
  destruct item as [key freq], st as [expvals denom]. unfold count_step.
  destruct (parse_outcome key) as [e | outcome]; cbn [bind]; [discriminate | ].
  destruct (py.for_each (seq 0 size) _ expvals) as [e | expvals1] eqn:Hloop; cbn [bind ret];
    [discriminate | ].
  intro H. injection H as <-. cbn [fst].
  apply (for_each_invariant (fun l : list float64 => List.length l = List.length expvals))
    in Hloop; [exact Hloop | | reflexivity].
  intros k s s' Hs Hbody.
  destruct (py.getitem diag_inds k) as [e | d]; cbn [bind] in Hbody; [discriminate | ].
  apply iadd_at_length in Hbody. congruence.
Qed.

(** Whatever the histogram, what the estimator returns has one expectation
    value and one variance per Pauli. *)
Lemma estimator_lengths (counts : Counts) (paulis : PauliList)
  (expvals variances : list float64) :
  _pauli_expval_with_variance counts paulis = inr (expvals, variances) ->
  List.length expvals = List.length paulis /\ List.length variances = List.length paulis.
Proof.
  unfold _pauli_expval_with_variance.
  destruct (py.for_each counts _ _) as [e | [acc denom]] eqn:Hloop; cbn [bind];
    [discriminate | ].
  destruct (of_int denom) as [e | d]; cbn [bind ret]; [discriminate | ].
  intro H. injection H as <- <-. rewrite !length_map.
  apply (for_each_invariant
           (fun st : list float64 * Z => List.length (fst st) = List.length paulis))
    in Hloop; [cbn [fst] in Hloop; auto | | cbn [fst]; apply repeat_length].
  intros item s s' Hs Hbody. apply count_step_length in Hbody. congruence.
Qed.

Lemma map_fst_combine_le {A C : Type} :
  forall (l : list A) (l' : list C),
    (List.length l <= List.length l')%nat -> map fst (combine l l') = l.
Proof.
  induction l as [ | a l IH]; intros [ | c l'] Hlen; cbn [List.length combine map fst] in *;
    try reflexivity; try lia.
  rewrite IH by lia. reflexivity.
Qed.

Lemma calc_loop_keys (to_label : Pauli -> string) :
  forall (items : list (Counts * CircuitMetadata)) (m m' : list (Key * (float64 * float64))),
    py.for_each items
      (fun '(count, meta) expval_map =>
         match meta with
         | MeasMetadata orig_paulis meas_paulis param_index =>
             '(expvals, variances) <- _pauli_expval_with_variance count meas_paulis ;;
             ret (fold_left
                    (fun expval_map '(pauli, (expval, variance)) =>
                       dict_set key_eqb expval_map (param_index, to_label pauli)
                         (expval, variance))
                    (combine orig_paulis (combine expvals variances))
                    expval_map)
         | UserMetadata _ => raise KeyError
         end)
      m
    = inr m' ->
    (forall key, (exists v, dict_get key_eqb m key = inr v) ->
                 exists v, dict_get key_eqb m' key = inr v) /\
    (forall count orig_paulis meas_paulis param_index pauli,
       In (count, MeasMetadata orig_paulis meas_paulis param_index) items ->
       List.length meas_paulis = List.length orig_paulis ->
       In pauli orig_paulis ->
       exists v, dict_get key_eqb m' (param_index, to_label pauli) = inr v).
Proof.
  induction items as [ | [count meta] items IH]; intros m m' Hrun; cbn [py.for_each] in Hrun.
  - injection Hrun as <-. split; [auto | intros ? ? ? ? ? []].
  - destruct meta as [u | orig meas pidx]; [discriminate | ].
    destruct (_pauli_expval_with_variance count meas) as [e | [expvals variances]] eqn:Hest;
      cbn [bind ret] in Hrun; [discriminate | ].
    destruct (fill_table_keys to_label pidx (combine orig (combine expvals variances)) m)
      as [Hkeep1 Hnew1].
    apply IH in Hrun as [Hkeep Hnew].
    split; [intros key Hkey; apply Hkeep, Hkeep1, Hkey | ].
    intros c o ms pi p [E | Hin] Hlen Hp; [ | eapply Hnew; eassumption].
    injection E as -> -> -> ->.
    apply Hkeep, Hnew1.
    destruct (estimator_lengths c ms expvals variances Hest) as [Le Lv].
    rewrite map_fst_combine_le; [exact Hp | ].
    rewrite length_combine. lia.
Qed.

(** X24: when [_calc_expval_map] returns, every Pauli of every measurement
    circuit that came with a histogram has an entry in the table, under the
    binding index of the circuit and the label of the Pauli. *)
Theorem measured_paulis_have_entries (to_label : Pauli -> string)
  (counts : list Counts) (metadata_list : list CircuitMetadata)
  (expval_map : list (Key * (float64 * float64)))
  (count : Counts) (orig_paulis meas_paulis : PauliList) (param_index : list nat)
  (pauli : Pauli) :
  _calc_expval_map to_label counts metadata_list = inr expval_map ->
  In (count, MeasMetadata orig_paulis meas_paulis param_index) (combine counts metadata_list) ->
  List.length meas_paulis = List.length orig_paulis ->
  In pauli orig_paulis ->
  exists entry, dict_get key_eqb expval_map (param_index, to_label pauli) = inr entry.
Proof.
  intros Hrun Hin Hlen Hp. unfold _calc_expval_map in Hrun.
  apply calc_loop_keys in Hrun as [_ Hnew]. eapply Hnew; eassumption.
Qed.

Lemma measured_paulis_have_entries_witness :
  exists expval_map entry,
    _calc_expval_map (fun _ => "Z"%string) [[("0"%string, 700); ("1"%string, 300)]]
      [MeasMetadata [mkPauli [true] [false] 0] [mkPauli [true] [false] 0] []]
    = inr expval_map /\
    dict_get key_eqb expval_map ([], "Z"%string) = inr entry.
Proof.
  assert (E : exists expval_map,
            _calc_expval_map (fun _ => "Z"%string) [[("0"%string, 700); ("1"%string, 300)]]
              [MeasMetadata [mkPauli [true] [false] 0] [mkPauli [true] [false] 0] []]
            = inr expval_map).
  { eexists. vm_compute. reflexivity. }
  destruct E as [expval_map E]. exists expval_map.
  destruct (measured_paulis_have_entries (fun _ => "Z"%string)
              [[("0"%string, 700); ("1"%string, 300)]]
              [MeasMetadata [mkPauli [true] [false] 0] [mkPauli [true] [false] 0] []]
              expval_map [("0"%string, 700); ("1"%string, 300)]
              [mkPauli [true] [false] 0] [mkPauli [true] [false] 0] []
              (mkPauli [true] [false] 0) E) as [entry Hentry].
  - left. reflexivity.
  - reflexivity.
  - left. reflexivity.
  - exists entry. split; [exact E | exact Hentry].
Defined.

(** ** The histograms of the jobs *)

Lemma prepare_counts_acc (results : list Result) :
  forall (hists : list (list Counts)) (acc : list Counts),
    Forall2 reports results hists ->
    py.for_each results
      (fun res counts =>
         count <- get_counts res ;;
         let count := match count with OneCounts c => [c] | ListCounts l => l end in
         ret (counts ++ count))
      acc
    = inr (acc ++ List.concat hists).
Proof.
  induction results as [ | res results IH]; intros hists acc H;
    inversion H as [ | ? h ? hs Hr Hrest]; subst; cbn [py.for_each List.concat].
  - rewrite app_nil_r. reflexivity.
  - destruct Hr as [Hr | [c [-> Hr]]]; rewrite Hr; cbn [bind ret];
      rewrite (IH hs) by exact Hrest; rewrite <- app_assoc; reflexivity.
Qed.

(** X26: [_prepare_counts] puts the histograms of the jobs in one list, job
    after job and in the order of each job; a job that reports the histogram
    of its single circuit bare counts as a list of one. *)
Theorem prepare_counts_keeps_the_order (results : list Result)
  (hists : list (list Counts)) :
  Forall2 reports results hists ->
  _prepare_counts results = inr (List.concat hists) /\
  List.length (List.concat hists) = list_sum (map (@List.length Counts) hists).
Proof.
  intro H. split; [apply (prepare_counts_acc results hists [] H) | ].
  clear. induction hists as [ | h hists IH]; cbn [List.concat map list_sum]; [reflexivity | ].
  rewrite length_app, IH. reflexivity.
Qed.

Lemma prepare_counts_keeps_the_order_witness :
  _prepare_counts [mkResult (inr (OneCounts [("0"%string, 5)]));
                   mkResult (inr (ListCounts [[("1"%string, 2)]; [("0"%string, 3)]]))]
  = inr (List.concat [[[("0"%string, 5)]]; [[("1"%string, 2)]; [("0"%string, 3)]]]) /\
  List.length (List.concat [[[("0"%string, 5)]]; [[("1"%string, 2)]; [("0"%string, 3)]]])
  = list_sum (map (@List.length Counts)
                [[[("0"%string, 5)]]; [[("1"%string, 2)]; [("0"%string, 3)]]]).
Proof.
  apply (prepare_counts_keeps_the_order
           [mkResult (inr (OneCounts [("0"%string, 5)]));
            mkResult (inr (ListCounts [[("1"%string, 2)]; [("0"%string, 3)]]))]
           [[[("0"%string, 5)]]; [[("1"%string, 2)]; [("0"%string, 3)]]]).
  constructor.
  - right. eexists. split; reflexivity.
  - constructor; [left; reflexivity | constructor].
Defined.

(** A job whose result has no counts: the exception of [get_counts()] is
    what [_prepare_counts] raises. *)
Example prepare_counts_raises :
  _prepare_counts [mkResult (inr (OneCounts [("0"%string, 5)])); mkResult (inl QiskitError)]
  = inl QiskitError.
Proof. reflexivity. Qed.

(** ** The histograms and metadata that a pub is post-processed with *)

Lemma slice_middle {A : Type} (a b c : list A) :
  slice (a ++ b ++ c) (List.length a) (List.length a + List.length b) = b.
Proof.
  unfold slice. rewrite skipn_app, skipn_all, Nat.sub_diag. cbn [app skipn].
  replace (List.length a + List.length b - List.length a)%nat with (List.length b) by lia.
  rewrite firstn_app, firstn_all, Nat.sub_diag. cbn [firstn]. apply app_nil_r.
Qed.

Section SlicesOfRun.

Variable options : Options.
Variable pauli_str : Pauli -> string.
Variable to_label : Pauli -> string.
Variable paulis_of_labels : list string -> PauliList.
Variable group_commuting : PauliList -> list PauliList.
Variable passmanager_run : list QuantumCircuit -> list QuantumCircuit.
Variable bind_parameters : BindingsArray -> QuantumCircuit -> list nat -> QuantumCircuit.
Variable pow_half : float64 -> float64.
Variable hypot : float64 -> float64 -> float64.
Variable BackendState : Type.
Variable is_backend_v2 : bool.
Variable max_circuits : option nat.
Variable backend_run : BackendState -> RunCall -> result Job * BackendState.

(** The last loop of [_run_pubs], with the slices written out. *)
Lemma slices_loop (counts : list Counts) (shots : Z) :
  forall (pubs : list EstimatorPub) (pdata : list _PreprocessedData)
         (before after : list CircuitMetadata) (acc : list PubResult)
         (res : list PubResult) (stop : nat),
    List.length pubs = List.length pdata ->
    py.for_each (combine pubs pdata)
      (fun '(pub, data) '(results, start) =>
         let stop := (start + List.length (circuits data))%nat in
         expval_map <- _calc_expval_map to_label (slice counts start stop)
                         (slice (before ++ map metadata (flat_map circuits pdata) ++ after)
                            start stop) ;;
         pub_result <- _postprocess_pub pow_half hypot pub expval_map data shots ;;
         ret (results ++ [pub_result], stop))
      (acc, List.length before)
    = inr (res, stop) ->
    exists new,
      res = acc ++ new /\
      forall k pub data,
        nth_error pubs k = Some pub -> nth_error pdata k = Some data ->
        let start := (List.length before
                      + List.length (flat_map circuits (firstn k pdata)))%nat in
        exists expval_map r,
          _calc_expval_map to_label
            (slice counts start (start + List.length (circuits data)))
            (map metadata (circuits data)) = inr expval_map /\
          _postprocess_pub pow_half hypot pub expval_map data shots = inr r /\
          nth_error new k = Some r.
Proof.
  induction pubs as [ | pub0 pubs IH]; intros [ | data0 pdata] before after acc res stop Hlen Hrun;
    try discriminate; cbn [combine py.for_each] in Hrun.
  - injection Hrun as <- _. exists []. rewrite app_nil_r. split; [reflexivity | ].
    intros [ | k] pub data Hk; discriminate.
  - cbn [flat_map] in Hrun. rewrite map_app, <- app_assoc in Hrun.
    rewrite <- (length_map metadata (circuits data0)) in Hrun at 1 2.
    rewrite slice_middle in Hrun. rewrite length_map in Hrun.
    destruct (_calc_expval_map to_label _ (map metadata (circuits data0)))
      as [e | expval_map] eqn:Hmap; cbn [bind] in Hrun; [discriminate | ].
    destruct (_postprocess_pub pow_half hypot pub0 expval_map data0 shots) as [e | r0] eqn:Hpost;
      cbn [bind ret] in Hrun; [discriminate | ].
    specialize (IH pdata (before ++ map metadata (circuits data0)) after (acc ++ [r0]) res stop).
    rewrite length_app, length_map in IH.
    destruct IH as [new [Hres Hnew]].
    + cbn [List.length] in Hlen. lia.
    + rewrite <- app_assoc. exact Hrun.
    + exists (r0 :: new). rewrite Hres, <- app_assoc. split; [reflexivity | ].
      intros [ | k] pub data Hp Hd; cbn [nth_error firstn flat_map] in *.
      * injection Hp as <-. injection Hd as <-. cbn [List.length]. rewrite Nat.add_0_r.
        exists expval_map, r0. auto.
      * destruct (Hnew k pub data Hp Hd) as [em [r [H1 [H2 H3]]]].
        exists em, r. rewrite length_app, Nat.add_assoc. auto.
Qed.

(** X25: every pub is post-processed with its own circuits: when
    [_run_pubs] returns, the result number [k] is [_postprocess_pub] of pub
    [k] with the table that [_calc_expval_map] makes from the metadata of the
    circuits of pub [k] and from the histograms at the positions of these
    circuits in the flat list of all circuits sent. *)
Theorem pubs_read_their_own_circuits (pubs : list EstimatorPub) (shots : Z)
  (w w' : World BackendState) (results : list PubResult) :
  _run_pubs options pauli_str to_label paulis_of_labels group_commuting passmanager_run
    bind_parameters pow_half hypot BackendState is_backend_v2 max_circuits backend_run
    pubs shots w = (inr results, w') ->
  exists pdata run_result counts,
    map_result (_preprocess_pub options pauli_str paulis_of_labels group_commuting
                  passmanager_run bind_parameters) pubs = inr pdata /\
    fst (_run_circuits BackendState is_backend_v2 max_circuits backend_run
           (flat_map circuits pdata) shots (seed_simulator options) w)
    = inr (run_result, map metadata (flat_map circuits pdata)) /\
    _prepare_counts run_result = inr counts /\
    forall k pub data,
      nth_error pubs k = Some pub -> nth_error pdata k = Some data ->
      let start := List.length (flat_map circuits (firstn k pdata)) in
      exists expval_map r,
        _calc_expval_map to_label
          (slice counts start (start + List.length (circuits data)))
          (map metadata (circuits data)) = inr expval_map /\
        _postprocess_pub pow_half hypot pub expval_map data shots = inr r /\
        nth_error results k = Some r.
Proof.
  unfold _run_pubs. unfold bindM at 1. unfold liftM at 1.
  destruct (map_result _ pubs) as [e | pdata] eqn:Hpre; [discriminate | ].
  unfold bindM at 1.
  destruct (_run_circuits BackendState is_backend_v2 max_circuits backend_run
              (flat_map circuits pdata) shots (seed_simulator options) w)
    as [[e | [run_result metadata_list]] w1] eqn:Hrun; [discriminate | ].
  pose proof Hrun as Hsent. apply run_circuits_sent in Hsent as [_ [Hmd _]]. subst metadata_list.
  unfold bindM, liftM.
  destruct (_prepare_counts run_result) as [e | counts] eqn:Hcounts; [discriminate | ].
  destruct (py.for_each _ _ _) as [e | [res stop]] eqn:Hloop; cbn [bind ret];
    [discriminate | ].
  intro H. injection H as <- _.
  exists pdata, run_result, counts. split; [reflexivity | ].
  split; [rewrite Hrun; reflexivity | ]. split; [exact Hcounts | ].
  assert (Hlen : List.length pubs = List.length pdata)
    by (apply map_result_inr in Hpre; eapply Forall2_length; exact Hpre).
  destruct (slices_loop counts shots pubs pdata [] [] [] res stop Hlen)
    as [new [Hres Hnew]].
  - cbn [app List.length]. rewrite app_nil_r. exact Hloop.
  - cbn [app] in Hres. subst new. exact Hnew.
Qed.

End SlicesOfRun.

Lemma pubs_read_their_own_circuits_witness :
  exists results w' pdata run_result counts,
    _run_pubs Demo.options Demo.pauli_str Demo.pauli_str Demo.paulis_of_labels
      Demo.group_commuting Demo.passmanager_run Demo.bind_parameters Demo.pow_half
      Demo.hypot unit true None Demo.backend_run [Demo.pub_of 0x1p-6%float] 4096 Demo.world
    = (inr results, w') /\
    map_result (_preprocess_pub Demo.options Demo.pauli_str Demo.paulis_of_labels
                  Demo.group_commuting Demo.passmanager_run Demo.bind_parameters)
      [Demo.pub_of 0x1p-6%float] = inr pdata /\
    fst (_run_circuits unit true None Demo.backend_run (flat_map circuits pdata) 4096
           (seed_simulator Demo.options) Demo.world)
    = inr (run_result, map metadata (flat_map circuits pdata)) /\
    _prepare_counts run_result = inr counts /\
    forall k pub data,
      nth_error [Demo.pub_of 0x1p-6%float] k = Some pub ->
      nth_error pdata k = Some data ->
      let start := List.length (flat_map circuits (firstn k pdata)) in
      exists expval_map r,
        _calc_expval_map Demo.pauli_str
          (slice counts start (start + List.length (circuits data)))
          (map metadata (circuits data)) = inr expval_map /\
        _postprocess_pub Demo.pow_half Demo.hypot pub expval_map data 4096 = inr r /\
        nth_error results k = Some r.
Proof.
  assert (E : exists results w',
            _run_pubs Demo.options Demo.pauli_str Demo.pauli_str Demo.paulis_of_labels
              Demo.group_commuting Demo.passmanager_run Demo.bind_parameters Demo.pow_half
              Demo.hypot unit true None Demo.backend_run [Demo.pub_of 0x1p-6%float] 4096
              Demo.world
            = (inr results, w')).
  { eexists _, _.
    match goal with |- ?l = _ => let v := eval vm_compute in l in change l with v end.
    reflexivity. }
  destruct E as [results [w' E]].
  destruct (pubs_read_their_own_circuits Demo.options Demo.pauli_str Demo.pauli_str
              Demo.paulis_of_labels Demo.group_commuting Demo.passmanager_run
              Demo.bind_parameters Demo.pow_half Demo.hypot unit true None Demo.backend_run
              [Demo.pub_of 0x1p-6%float] 4096 Demo.world w' results E)
    as [pdata [run_result [counts H]]].
  exists results, w', pdata, run_result, counts. split; [exact E | exact H].
Defined.

(** ** From a histogram to the result of a pub *)

(** The histogram [{"0": 700, "1": 300}] for the operator sum [{"Z": 1.0}]
    and 1000 shots, with the square root for [pow(x, 0.5)]: the expectation
    value is the float nearest to 0.4, and the standard error the float
    0.02898275349237888 (that is [sqrt(0.84) / sqrt(1000)] in binary64). *)
Example aggregation_700_300 :
  exists expval_map res,
    _calc_expval_map (fun _ => "Z"%string) [[("0"%string, 700); ("1"%string, 300)]]
      [MeasMetadata [Demo.zed] [Demo.zed] []] = inr expval_map /\
    _postprocess_pub Demo.pow_half Demo.hypot single_z_pub expval_map single_z_data 1000
    = inr res /\
    flat (evs res) = [0x1.999999999999ap-2%float] /\
    flat (stds res)
    = [np.divide (np.sqrt 0x1.ae147ae147ae1p-1%float) (np.sqrt 1000%float)].
Proof.
  eexists _, _. split; [vm_compute; reflexivity | ].
  split; [vm_compute; reflexivity | ]. split; reflexivity.
Qed.
